(** * Zadig workflow engine: job compiler, SQL job controller, cronjob
    reconciliation.

    A shallow embedding of the Go sources
    - [pkg/microservice/aslan/core/workflow/service/workflow/job/job_build.go]
    - [.../workflow/job] image distribute job (ImageDistributeJob)
    - [.../workflowcontroller/jobcontroller/job_sql.go]
    - [.../workflowcontroller/stepcontroller] distribute image step
    - [.../workflow/service/workflow] cronjob handling (UpdateCronjob)
    followed by the properties of the specification that concern them.

    Conventions.  Go [string] is [string], [int64] and [int] are [Z], a slice
    is a [list], a Go [map] is a [gmap].  A pointer that the code shares and
    mutates is modelled by an explicit reference into a store; a pointer that
    is only read is modelled by its value.  A function that returns
    [(T, error)] returns a [Result T]. *)

From Stdlib Require Import ZArith Lia Ascii.
From stdpp Require Import base strings list gmap.

Local Open Scope string_scope.
Local Open Scope list_scope.

#[local] Set Warnings "-clear-no-such-hyp".

(* ===================================================================== *)
(** * Part I.  The embedding                                              *)
(* ===================================================================== *)

(** ** Go runtime vocabulary *)

(** Outcome of a call that returns [(T, error)].  [Panic] is the outcome of a
    nil pointer dereference, which aborts the goroutine. *)
Inductive Result (A : Type) : Type :=
  | Ok (a : A)
  | Err (msg : string)
  | Panic.
Arguments Ok {A} a.
Arguments Err {A} msg.
Arguments Panic {A}.

Definition bindR {A B : Type} (r : Result A) (k : A -> Result B) : Result B :=
  match r with
  | Ok a => k a
  | Err e => Err e
  | Panic => Panic
  end.

#[global] Instance Result_ret : MRet Result := fun A a => Ok a.
#[global] Instance Result_bind : MBind Result := fun A B k r => bindR r k.

Definition isOk {A : Type} (r : Result A) : bool :=
  match r with Ok _ => true | _ => false end.

(** [strings.Join(elems, sep)]. *)
Definition strings_Join (elems : list string) (sep : string) : string :=
  String.concat sep elems.

(** The one-character string made of a double quote. *)
Definition dquote : string := String (Ascii.ascii_of_nat 34) EmptyString.

(** Go's [==] on strings. *)
Definition streq (a b : string) : bool := bool_decide (a = b).

(** ** Data model ([commonmodels], [types]) *)

(** [commonmodels.KeyVal]: the fields the compiler reads and writes. *)
Record KeyVal : Type := mkKeyVal {
  Key : string;
  Value : string;
  Type_ : string;
  IsCredential : bool;
  ChoiceOption : list string
}.

(** [types.Repository].  [OtherFields] stands for the remaining members of the
    struct (address, code host, commit id, ...), which none of the functions
    below reads or writes. *)
Record Repository : Type := mkRepository {
  Source : string;
  RepoOwner : string;
  RepoNamespace : string;
  RepoName : string;
  RemoteName : string;
  Branch : string;
  Tag : string;
  PR : Z;
  PRs : list Z;
  FilterRegexp : string;
  CheckoutPath : string;
  OtherFields : list (string * string)
}.

#[global] Instance KeyVal_eq_dec : EqDecision KeyVal.
Proof. solve_decision. Defined.
#[global] Instance Repository_eq_dec : EqDecision Repository.
Proof. solve_decision. Defined.

(** ** Variable rendering ([job_build.go]) *)

(** [renderKeyVals(input, origin)]: one fresh item per origin entry; the inner
    loop has no [break], so the last input entry with the same key wins. *)
Definition overlayValue (input : list KeyVal) (item : KeyVal) : KeyVal :=
  fold_left
    (fun (it : KeyVal) (inputKV : KeyVal) =>
       if streq (Key item) (Key inputKV)
       then mkKeyVal (Key it) (Value inputKV) (Type_ it) (IsCredential it) (ChoiceOption it)
       else it)
    input item.

Definition renderKeyVals (input origin : list KeyVal) : list KeyVal :=
  fold_left
    (fun (resp : list KeyVal) (originKV : KeyVal) =>
       let item := mkKeyVal (Key originKV) (Value originKV) (Type_ originKV)
                            (IsCredential originKV) (ChoiceOption originKV) in
       resp ++ [overlayValue input item])
    origin [].

Section RenderEnv.

(** [os.Expand] of the Go standard library: replaces [$name] and [${name}] in
    its first argument by the image of [name] under the mapping. *)
Variable os_Expand : string -> (string -> string) -> string.

(** [renderEnv(data, kvs)]: the mapper returns the value of the first
    variable named [data], and ["$" ++ data] when there is none. *)
Definition renderEnv_mapper (kvs : list KeyVal) (data : string) : string :=
  match List.find (fun envar => streq data (Key envar)) kvs with
  | Some envar => Value envar
  | None => "$" +:+ data
  end.

Definition renderEnv (data : string) (kvs : list KeyVal) : string :=
  os_Expand data (renderEnv_mapper kvs).

(** [renderRepos(input, origin, kvs)].  The result is a slice of pointers:
    entry [i] points either to the origin repository [i] or to an input
    repository, and the input repositories are updated in place (an input
    repository matched twice is rendered twice).  [RepoPtr] records where an
    entry points; the entries are read once the loops are over. *)
Inductive RepoPtr : Type :=
  | OriginPtr (i : nat)
  | InputPtr (k : nat).

Definition renderRepos_match (originRepo inputRepo : Repository) : bool :=
  streq (RepoName originRepo) (RepoName inputRepo)
  && streq (RepoOwner originRepo) (RepoOwner inputRepo).

Definition renderRepos_touch (kvs : list KeyVal) (inputRepo : Repository) : Repository :=
  let checkout := renderEnv (CheckoutPath inputRepo) kvs in
  mkRepository (Source inputRepo) (RepoOwner inputRepo) (RepoNamespace inputRepo)
    (RepoName inputRepo)
    (if streq (RemoteName inputRepo) "" then "origin" else RemoteName inputRepo)
    (Branch inputRepo) (Tag inputRepo) (PR inputRepo) (PRs inputRepo)
    (FilterRegexp inputRepo) checkout (OtherFields inputRepo).

(** Inner loop over the input slice for one origin repository. *)
Definition renderRepos_inner (kvs : list KeyVal) (originRepo : Repository)
    (st : list Repository * RepoPtr) (k : nat) : list Repository * RepoPtr :=
  let '(input, cur) := st in
  match input !! k with
  | Some inputRepo =>
      if renderRepos_match originRepo inputRepo
      then (<[k := renderRepos_touch kvs inputRepo]> input, InputPtr k)
      else (input, cur)
  | None => (input, cur)
  end.

Definition renderRepos_outer (kvs : list KeyVal)
    (st : list Repository * list RepoPtr) (io : nat * Repository)
    : list Repository * list RepoPtr :=
  let '(input, resp) := st in
  let '(i, originRepo) := io in
  let '(input', cur) :=
    fold_left (renderRepos_inner kvs originRepo) (seq 0 (length input))
              (input, OriginPtr i) in
  (input', resp ++ [cur]).

Definition renderRepos_run (input origin : list Repository) (kvs : list KeyVal)
    : list Repository * list RepoPtr :=
  fold_left (renderRepos_outer kvs) (imap (fun i o => (i, o)) origin) (input, []).

Definition derefRepo (input origin : list Repository) (p : RepoPtr) : option Repository :=
  match p with
  | OriginPtr i => origin !! i
  | InputPtr k => input !! k
  end.

(** The repositories the returned slice points to. *)
Definition renderRepos (input origin : list Repository) (kvs : list KeyVal)
    : list Repository :=
  let '(input', resp) := renderRepos_run input origin kvs in
  omap (derefRepo input' origin) resp.

End RenderEnv.

(** Modelled from the spec: [Repository.GetRepoNamespace] is declared in
    [pkg/types], outside the sources at hand.  The spec keys repositories by
    (source, namespace, repoName) and the source replaces an empty namespace by
    the owner, so the getter is taken to be the namespace with that fallback. *)
Definition GetRepoNamespace (repo : Repository) : string :=
  if streq (RepoNamespace repo) "" then RepoOwner repo else RepoNamespace repo.

(** [if repo.RepoNamespace == "" { repo.RepoNamespace = repo.RepoOwner }] *)
Definition normalizeNamespace (repo : Repository) : Repository :=
  if streq (RepoNamespace repo) ""
  then mkRepository (Source repo) (RepoOwner repo) (RepoOwner repo) (RepoName repo)
         (RemoteName repo) (Branch repo) (Tag repo) (PR repo) (PRs repo)
         (FilterRegexp repo) (CheckoutPath repo) (OtherFields repo)
  else repo.

Definition customRepoKey (repo : Repository) : string :=
  strings_Join [Source repo; RepoNamespace repo; RepoName repo] "/".

Definition templateRepoKey (repo : Repository) : string :=
  strings_Join [Source repo; GetRepoNamespace repo; RepoName repo] "/".

(** First loop of [mergeRepos]: the custom repositories, namespace normalised
    in place, indexed by key; a later repository replaces an earlier one. *)
Definition customRepoMap (customRepos : list Repository) : gmap string Repository :=
  fold_left
    (fun (m : gmap string Repository) (repo : Repository) =>
       let repo := normalizeNamespace repo in
       <[customRepoKey repo := repo]> m)
    customRepos ∅.

(** Body of the second loop: the user's selection is copied onto the template
    repository. *)
Definition overlaySelection (cv repo : Repository) : Repository :=
  mkRepository (Source repo) (RepoOwner repo) (RepoNamespace repo) (RepoName repo)
    (RemoteName repo) (Branch cv) (Tag cv) (PR cv) (PRs cv) (FilterRegexp cv)
    (CheckoutPath repo) (OtherFields repo).

Definition mergeRepo (m : gmap string Repository) (repo : Repository) : Repository :=
  let repo := normalizeNamespace repo in
  match m !! templateRepoKey repo with
  | Some cv => overlaySelection cv repo
  | None => repo
  end.

(** [mergeRepos(templateRepos, customRepos)]: the template repositories are
    updated in place and the template slice itself is returned. *)
Definition mergeRepos (templateRepos customRepos : list Repository) : list Repository :=
  map (mergeRepo (customRepoMap customRepos)) templateRepos.

(** ** Workflow definition and job specs ([commonmodels]) *)

(** [commonmodels.ServiceAndBuild]; [ShareStorageInfo] is carried along
    unread. *)
Record ServiceAndBuild : Type := mkServiceAndBuild {
  sab_ServiceName : string;
  sab_ServiceModule : string;
  sab_BuildName : string;
  sab_Image : string;
  sab_Package : string;
  sab_ImageName : string;
  sab_KeyVals : list KeyVal;
  sab_Repos : list Repository;
  sab_ShareStorageInfo : string
}.

Record ZadigBuildJobSpec : Type := mkZadigBuildJobSpec {
  DockerRegistryID : string;
  ServiceAndBuilds : list ServiceAndBuild;
  ServiceAndBuildsOptions : list ServiceAndBuild
}.

(** [commonmodels.DistributeTarget] *)
Record DistributeTarget : Type := mkDistributeTarget {
  dt_ServiceName : string;
  dt_ServiceModule : string;
  dt_SourceTag : string;
  dt_TargetTag : string;
  dt_ImageName : string;
  dt_SourceImage : string;
  dt_TargetImage : string;
  dt_UpdateTag : bool
}.

Record ZadigDistributeImageJobSpec : Type := mkZadigDistributeImageJobSpec {
  dj_Source : string;
  dj_JobName : string;
  dj_SourceRegistryID : string;
  dj_TargetRegistryID : string;
  dj_Targets : list DistributeTarget;
  dj_TargetOptions : list DistributeTarget;
  dj_Timeout : Z;
  dj_ClusterID : string;
  dj_StrategyID : string;
  dj_EnableTargetImageTagRule : bool;
  dj_TargetImageTagRule : string
}.

(** [Job.Spec] is an [interface{}] that every method decodes into the struct of
    its own job type.  The embedding uses the closed sum of job types; a spec
    of some other shape is [SpecOther]. *)
Inductive JobSpec : Type :=
  | SpecBuild (s : ZadigBuildJobSpec)
  | SpecDistribute (s : ZadigDistributeImageJobSpec)
  | SpecOther (raw : string).

(** [commonmodels.Job] *)
Record Job : Type := mkJob {
  job_Name : string;
  job_JobType : string;
  job_Spec : JobSpec;
  job_ErrorPolicy : option string
}.

Record WorkflowStage : Type := mkWorkflowStage {
  stage_Name : string;
  stage_Parallel : bool;
  stage_Jobs : list Job
}.

Record WorkflowV4 : Type := mkWorkflowV4 {
  wf_Name : string;
  wf_DisplayName : string;
  wf_Project : string;
  wf_Stages : list WorkflowStage
}.

(** [commonmodels.IToi] / [IToiYaml] into a build job spec: a re-encoding
    through JSON (YAML) which yields a fresh copy.  It is applied to the spec
    of the job the method belongs to. *)
Definition IToi_build (spec : JobSpec) : Result ZadigBuildJobSpec :=
  match spec with
  | SpecBuild s => Ok s
  | _ => Err "cannot decode build job spec"
  end.

Definition IToi_distribute (spec : JobSpec) : Result ZadigDistributeImageJobSpec :=
  match spec with
  | SpecDistribute s => Ok s
  | _ => Err "cannot decode distribute job spec"
  end.

(** ** The build job ([job_build.go]) *)

(** [type BuildJob struct { job; workflow; spec }].  After a method returns
    without error [j.job.Spec] and [j.spec] are the same pointer. *)
Record BuildJob : Type := mkBuildJob {
  job : Job;
  workflow : WorkflowV4;
  spec : ZadigBuildJobSpec
}.

Definition emptyBuildSpec : ZadigBuildJobSpec := mkZadigBuildJobSpec "" [] [].

(** [j.spec = s; j.job.Spec = j.spec] *)
Definition setBuildSpec (j : BuildJob) (s : ZadigBuildJobSpec) : BuildJob :=
  mkBuildJob
    (mkJob (job_Name (job j)) (job_JobType (job j)) (SpecBuild s) (job_ErrorPolicy (job j)))
    (workflow j) s.

(** [func (j *BuildJob) ClearSelectionField() error] *)
Definition ClearSelectionField (j : BuildJob) : Result BuildJob :=
  s ← IToi_build (job_Spec (job j));
  let chosenObject : list ServiceAndBuild := [] in
  let s' :=
    if negb (Nat.eqb (length (ServiceAndBuilds s)) 1)
    then mkZadigBuildJobSpec (DockerRegistryID s) chosenObject (ServiceAndBuildsOptions s)
    else s in
  Ok (setBuildSpec j s').

(** ** Catalog: builds, build templates, services *)

(** [commonmodels.Output] *)
Record Output : Type := mkOutput { out_Name : string }.

(** [commonmodels.PreBuild]: the members the build job reads. *)
Record PreBuild : Type := mkPreBuild {
  pre_Envs : list KeyVal;
  pre_ImageID : string;
  pre_ImageFrom : string;
  pre_ClusterID : string;
  pre_StrategyID : string;
  pre_Installs : list (string * string);
  pre_UseHostDockerDaemon : bool
}.

Definition emptyPreBuild : PreBuild := mkPreBuild [] "" "" "" "" [] false.

Definition setEnvs (pb : PreBuild) (envs : list KeyVal) : PreBuild :=
  mkPreBuild envs (pre_ImageID pb) (pre_ImageFrom pb) (pre_ClusterID pb)
    (pre_StrategyID pb) (pre_Installs pb) (pre_UseHostDockerDaemon pb).

Record ObjectStorageUpload : Type := mkObjectStorageUpload {
  osu_Enabled : bool;
  osu_ObjectStorageID : string
}.

(** [commonmodels.PostBuild]: which of its optional parts are present. *)
Record PostBuild : Type := mkPostBuild {
  post_DockerBuild : option string;      (* DockerBuild, by its TemplateID *)
  post_FileArchive : option string;      (* FileArchive, by its FileLocation *)
  post_ObjectStorageUpload : option ObjectStorageUpload;
  post_Scripts : string
}.

(** [commonmodels.ServiceModuleTarget] *)
Record ServiceModuleTarget : Type := mkServiceModuleTarget {
  smt_ServiceName : string;
  smt_ServiceModule : string;
  smt_Repos : list Repository;
  smt_Envs : list KeyVal
}.

(** [commonmodels.Build].  Of the members [fillBuildDetail] copies from the
    template, [JenkinsBuild], [SSHs], [PMDeployScripts] and
    [AdvancedSettingsModified] are read by no function below and are left
    out. *)
Record Build : Type := mkBuild {
  b_Name : string;
  b_TemplateID : string;
  b_Timeout : Z;
  b_Targets : list ServiceModuleTarget;
  b_Repos : list Repository;
  b_PreBuild : option PreBuild;
  b_ScriptType : string;
  b_Scripts : string;
  b_PostBuild : option PostBuild;
  b_CacheEnable : bool;
  b_CacheDirType : string;
  b_CacheUserDir : string;
  b_Outputs : list Output;
  b_Infrastructure : string;
  b_VMLabels : list string
}.

(** [commonmodels.BuildTemplate] *)
Record BuildTemplate : Type := mkBuildTemplate {
  t_Timeout : Z;
  t_PreBuild : option PreBuild;
  t_ScriptType : string;
  t_Scripts : string;
  t_PostBuild : option PostBuild;
  t_CacheEnable : bool;
  t_CacheDirType : string;
  t_CacheUserDir : string;
  t_Outputs : list Output;
  t_Infrastructure : string;
  t_VmLabels : list string
}.

(** [commonmodels.Container] and the service revision that owns it. *)
Record Container : Type := mkContainer {
  c_Name : string;
  c_ImageName : string
}.

Record Service : Type := mkService {
  svc_ServiceName : string;
  svc_Containers : list Container
}.

(** [commonmodels.RegistryNamespace], [S3Storage], [BasicImage] and the cache
    settings of a [K8SCluster]: the members [ToJobs] reads. *)
Record RegistryNamespace : Type := mkRegistryNamespace {
  reg_RegAddr : string;
  reg_Namespace : string;
  reg_AccessKey : string;
  reg_SecretKey : string
}.

Record S3Storage : Type := mkS3Storage {
  s3_Endpoint : string;
  s3_Bucket : string
}.

Record BasicImage : Type := mkBasicImage { bi_Value : string }.

Record K8SCluster : Type := mkK8SCluster {
  cache_MediumType : string;             (* Cache.MediumType *)
  cache_ObjectID : string                (* Cache.ObjectProperties.ID *)
}.

(** Answer of a collection or service call that returns [(T, error)]. *)
Inductive Lookup (A : Type) : Type :=
  | Found (a : A)
  | NotFound (err : string).
Arguments Found {A} a.
Arguments NotFound {A} err.

(** The catalogs the build job queries.  Each member is one call of the
    source; the catalog state is whatever these calls answer. *)
Record Catalog : Type := mkCatalog {
  (* repository.GetMaxRevisionsServicesMap(project, false) *)
  GetMaxRevisionsServicesMap : string -> Lookup (gmap string Service);
  (* commonrepo.NewBuildColl().Find({Name, ProductName}) *)
  BuildColl_Find : string -> string -> Lookup Build;
  (* commonrepo.NewBuildTemplateColl().Find({ID}) *)
  BuildTemplateColl_Find : string -> Lookup BuildTemplate;
  (* commonservice.FindRegistryById(id, true, logger) *)
  FindRegistryById : string -> Lookup RegistryNamespace;
  (* commonservice.ListRegistryNamespaces("", true, logger) *)
  ListRegistryNamespaces : Lookup (list RegistryNamespace);
  (* commonrepo.NewS3StorageColl().FindDefault() and .Find(id) *)
  S3StorageColl_FindDefault : Lookup S3Storage;
  S3StorageColl_Find : string -> Lookup S3Storage;
  (* commonrepo.NewBasicImageColl().Find(id) *)
  BasicImageColl_Find : string -> Lookup BasicImage;
  (* commonrepo.NewK8SClusterColl().Get(id) *)
  K8SClusterColl_Get : string -> Lookup K8SCluster
}.

(** *** Objects shared through [buildMap] and [buildTemplateMap]

    [buildMap] caches one [*Build] per build name and [buildTemplateMap] one
    [*BuildTemplate] per template id; [fillBuildDetail] and [mergeRepos]
    update these objects in place, so two selected builds with the same build
    name see each other's updates.  [ReposRef] says which slice
    [buildInfo.Repos] currently is, [PreBuildRef] which object
    [buildInfo.PreBuild] points to. *)
Inductive ReposRef : Type :=
  | OwnRepos                      (* the slice decoded with the build *)
  | TargetRepos (j : nat).        (* [Targets[j].Repos] *)

Inductive PreBuildRef : Type :=
  | OwnPreBuild                   (* [b_PreBuild], [None] being nil *)
  | TemplatePreBuild (tid : string).  (* the [PreBuild] of template [tid] *)

Record BuildObj : Type := mkBuildObj {
  bo_val : Build;
  bo_Repos : ReposRef;
  bo_PreBuild : PreBuildRef
}.

Record Heap : Type := mkHeap {
  buildMap : gmap string (option BuildObj);
  buildTemplateMap : gmap string BuildTemplate
}.

Definition emptyHeap : Heap := mkHeap ∅ ∅.

Definition freshBuildObj (b : Build) : BuildObj := mkBuildObj b OwnRepos OwnPreBuild.

Definition setTargetRepos (t : ServiceModuleTarget) (repos : list Repository)
    : ServiceModuleTarget :=
  mkServiceModuleTarget (smt_ServiceName t) (smt_ServiceModule t) repos (smt_Envs t).

Definition withRepos (b : Build) (repos : list Repository) : Build :=
  mkBuild (b_Name b) (b_TemplateID b) (b_Timeout b) (b_Targets b) repos (b_PreBuild b)
    (b_ScriptType b) (b_Scripts b) (b_PostBuild b) (b_CacheEnable b) (b_CacheDirType b)
    (b_CacheUserDir b) (b_Outputs b) (b_Infrastructure b) (b_VMLabels b).

Definition withTargets (b : Build) (targets : list ServiceModuleTarget) : Build :=
  mkBuild (b_Name b) (b_TemplateID b) (b_Timeout b) targets (b_Repos b) (b_PreBuild b)
    (b_ScriptType b) (b_Scripts b) (b_PostBuild b) (b_CacheEnable b) (b_CacheDirType b)
    (b_CacheUserDir b) (b_Outputs b) (b_Infrastructure b) (b_VMLabels b).

Definition withPreBuild (b : Build) (pb : option PreBuild) : Build :=
  mkBuild (b_Name b) (b_TemplateID b) (b_Timeout b) (b_Targets b) (b_Repos b) pb
    (b_ScriptType b) (b_Scripts b) (b_PostBuild b) (b_CacheEnable b) (b_CacheDirType b)
    (b_CacheUserDir b) (b_Outputs b) (b_Infrastructure b) (b_VMLabels b).

Definition withTemplatePreBuild (t : BuildTemplate) (pb : option PreBuild) : BuildTemplate :=
  mkBuildTemplate (t_Timeout t) pb (t_ScriptType t) (t_Scripts t) (t_PostBuild t)
    (t_CacheEnable t) (t_CacheDirType t) (t_CacheUserDir t) (t_Outputs t)
    (t_Infrastructure t) (t_VmLabels t).

(** The slice [buildInfo.Repos] refers to. *)
Definition reposAt (obj : BuildObj) (r : ReposRef) : list Repository :=
  match r with
  | OwnRepos => b_Repos (bo_val obj)
  | TargetRepos j =>
      match b_Targets (bo_val obj) !! j with
      | Some t => smt_Repos t
      | None => []
      end
  end.

Definition curRepos (obj : BuildObj) : list Repository := reposAt obj (bo_Repos obj).

(** In-place update of the repositories of that slice. *)
Definition writeRepos (obj : BuildObj) (repos : list Repository) : BuildObj :=
  match bo_Repos obj with
  | OwnRepos => mkBuildObj (withRepos (bo_val obj) repos) (bo_Repos obj) (bo_PreBuild obj)
  | TargetRepos j =>
      mkBuildObj
        (withTargets (bo_val obj)
           (alter (fun t => setTargetRepos t repos) j (b_Targets (bo_val obj))))
        (bo_Repos obj) (bo_PreBuild obj)
  end.

(** The object [buildInfo.PreBuild] points to; [None] is the nil pointer. *)
Definition curPreBuild (h : Heap) (obj : BuildObj) : option PreBuild :=
  match bo_PreBuild obj with
  | OwnPreBuild => b_PreBuild (bo_val obj)
  | TemplatePreBuild tid =>
      match buildTemplateMap h !! tid with
      | Some t => t_PreBuild t
      | None => None
      end
  end.

(** [for _, t := range targets { if t.ServiceName == .. && t.ServiceModule == .. { ..; break } }]:
    the first matching target and its position. *)
Fixpoint findTargetFrom (j : nat) (targets : list ServiceModuleTarget)
    (serviceName serviceModule : string) : option (nat * ServiceModuleTarget) :=
  match targets with
  | [] => None
  | t :: rest =>
      if streq (smt_ServiceName t) serviceName && streq (smt_ServiceModule t) serviceModule
      then Some (j, t)
      else findTargetFrom (S j) rest serviceName serviceModule
  end.

Definition findTarget := findTargetFrom 0.

Section BuildJobPreset.

Variable cat : Catalog.

(** [commonservice.MergeBuildEnvs(templateEnvs, customEnvs)], declared outside
    the sources at hand. *)
Variable MergeBuildEnvs : list KeyVal -> list KeyVal -> list KeyVal.

Definition storeBuild (h : Heap) (name : string) (o : option BuildObj) : Heap :=
  mkHeap (<[name := o]> (buildMap h)) (buildTemplateMap h).

Definition storeTemplate (h : Heap) (tid : string) (t : BuildTemplate) : Heap :=
  mkHeap (buildMap h) (<[tid := t]> (buildTemplateMap h)).

(** The assignments [moduleBuild.X = buildTemplate.X]. *)
Definition copyTemplate (tid : string) (obj : BuildObj) (t : BuildTemplate) : BuildObj :=
  let b := bo_val obj in
  mkBuildObj
    (mkBuild (b_Name b) (b_TemplateID b) (t_Timeout t) (b_Targets b) (b_Repos b) None
       (t_ScriptType t) (t_Scripts t) (t_PostBuild t) (t_CacheEnable t)
       (t_CacheDirType t) (t_CacheUserDir t) (t_Outputs t) (t_Infrastructure t)
       (t_VmLabels t))
    (bo_Repos obj)
    (match t_PreBuild t with
     | Some _ => TemplatePreBuild tid
     | None => OwnPreBuild
     end).

(** [moduleBuild.PreBuild.Envs = MergeBuildEnvs(moduleBuild.PreBuild.Envs, serviceConfig.Envs)],
    after a nil [PreBuild] has been replaced by [&PreBuild{}]. *)
Definition mergeEnvsInPlace (h : Heap) (obj : BuildObj) (customEnvs : list KeyVal)
    : Heap * BuildObj :=
  match bo_PreBuild obj with
  | TemplatePreBuild tid =>
      match buildTemplateMap h !! tid with
      | Some t =>
          let pb := default emptyPreBuild (t_PreBuild t) in
          let pb' := setEnvs pb (MergeBuildEnvs (pre_Envs pb) customEnvs) in
          (storeTemplate h tid (withTemplatePreBuild t (Some pb')), obj)
      | None => (h, obj)
      end
  | OwnPreBuild =>
      let pb := default emptyPreBuild (b_PreBuild (bo_val obj)) in
      let pb' := setEnvs pb (MergeBuildEnvs (pre_Envs pb) customEnvs) in
      (h, mkBuildObj (withPreBuild (bo_val obj) (Some pb')) (bo_Repos obj) OwnPreBuild)
  end.

(** [func fillBuildDetail(moduleBuild, serviceName, serviceModule, buildTemplateMap) error] *)
Definition fillBuildDetail (h : Heap) (obj : BuildObj) (serviceName serviceModule : string)
    : Result (Heap * BuildObj) :=
  let tid := b_TemplateID (bo_val obj) in
  if streq tid "" then Ok (h, obj)
  else
    ht ← match buildTemplateMap h !! tid with
         | Some t => Ok (h, t)
         | None =>
             match BuildTemplateColl_Find cat tid with
             | Found t => Ok (storeTemplate h tid t, t)
             | NotFound err =>
                 Err ("failed to find build template with id: " +:+ tid +:+ ", err: " +:+ err)
             end
         end;
    let '(h1, t) := ht in
    let obj1 := copyTemplate tid obj t in
    match findTarget (b_Targets (bo_val obj1)) serviceName serviceModule with
    | Some (j, serviceConfig) =>
        let obj2 := mkBuildObj (bo_val obj1) (TargetRepos j) (bo_PreBuild obj1) in
        Ok (mergeEnvsInPlace h1 obj2 (smt_Envs serviceConfig))
    | None => Ok (h1, obj1)
    end.

(** A selected build while [SetPreset] runs.  Once [build.Repos] has been
    assigned the slice returned by [mergeRepos], it is that slice of the cached
    build ([cell_Repos]); until then it is the build's own value. *)
Record BuildCell : Type := mkBuildCell {
  cell_build : ServiceAndBuild;
  cell_Repos : option (string * ReposRef)
}.

Definition withSelection (b : ServiceAndBuild) (keyVals : list KeyVal) : ServiceAndBuild :=
  mkServiceAndBuild (sab_ServiceName b) (sab_ServiceModule b) (sab_BuildName b)
    (sab_Image b) (sab_Package b) (sab_ImageName b) keyVals (sab_Repos b)
    (sab_ShareStorageInfo b).

Definition withImageName (b : ServiceAndBuild) (imageName : string) : ServiceAndBuild :=
  mkServiceAndBuild (sab_ServiceName b) (sab_ServiceModule b) (sab_BuildName b)
    (sab_Image b) (sab_Package b) imageName (sab_KeyVals b) (sab_Repos b)
    (sab_ShareStorageInfo b).

Definition withReposValue (b : ServiceAndBuild) (repos : list Repository) : ServiceAndBuild :=
  mkServiceAndBuild (sab_ServiceName b) (sab_ServiceModule b) (sab_BuildName b)
    (sab_Image b) (sab_Package b) (sab_ImageName b) (sab_KeyVals b) repos
    (sab_ShareStorageInfo b).

(** [buildMap.Load] / [Find] / [buildMap.Store] at the head of the loop body of
    [SetPreset]: a failed [Find] stores nil and skips the build. *)
Definition loadBuildOrSkip (project : string) (h : Heap) (buildName : string)
    : Heap * option BuildObj :=
  match buildMap h !! buildName with
  | None =>
      match BuildColl_Find cat buildName project with
      | Found b => (storeBuild h buildName (Some (freshBuildObj b)), Some (freshBuildObj b))
      | NotFound _ => (storeBuild h buildName None, None)
      end
  | Some None => (h, None)
  | Some (Some obj) => (h, Some obj)
  end.

(** [for _, container := range service.Containers { if container.Name == build.ServiceModule {..; break} }] *)
Definition containerImageName (service : Service) (build : ServiceAndBuild) : string :=
  match List.find (fun c => streq (c_Name c) (sab_ServiceModule build)) (svc_Containers service) with
  | Some container => c_ImageName container
  | None => sab_ServiceModule build
  end.

(** One iteration of the loop of [SetPreset]; [None] is [continue]. *)
Definition SetPreset_body (project : string) (servicesMap : gmap string Service)
    (h : Heap) (build : ServiceAndBuild) : Result (Heap * option BuildCell) :=
  let name := sab_BuildName build in
  let '(h1, o) := loadBuildOrSkip project h name in
  match o with
  | None => Ok (h1, None)
  | Some buildInfo =>
      match fillBuildDetail h1 buildInfo (sab_ServiceName build) (sab_ServiceModule build) with
      | Panic => Panic
      | Err _ => Ok (h1, None)
      | Ok (h2, buildInfo2) =>
          r ← match findTarget (b_Targets (bo_val buildInfo2))
                      (sab_ServiceName build) (sab_ServiceModule build) with
              | Some _ =>
                  let buildInfo3 :=
                    writeRepos buildInfo2 (mergeRepos (curRepos buildInfo2) (sab_Repos build)) in
                  let h3 := storeBuild h2 name (Some buildInfo3) in
                  match curPreBuild h3 buildInfo3 with
                  | None => Panic
                  | Some pb =>
                      Ok (h3,
                          mkBuildCell
                            (withSelection build (renderKeyVals (sab_KeyVals build) (pre_Envs pb)))
                            (Some (name, bo_Repos buildInfo3)))
                  end
              | None => Ok (storeBuild h2 name (Some buildInfo2), mkBuildCell build None)
              end;
          let '(h3, c) := r in
          match servicesMap !! sab_ServiceName build with
          | None => Ok (h3, None)
          | Some service =>
              Ok (h3, Some (mkBuildCell
                              (withImageName (cell_build c)
                                 (containerImageName service (cell_build c)))
                              (cell_Repos c)))
          end
      end
  end.

Fixpoint SetPreset_loop (project : string) (servicesMap : gmap string Service)
    (h : Heap) (newBuilds : list BuildCell) (builds : list ServiceAndBuild)
    : Result (Heap * list BuildCell) :=
  match builds with
  | [] => Ok (h, newBuilds)
  | build :: rest =>
      r ← SetPreset_body project servicesMap h build;
      let '(h', c) := r in
      SetPreset_loop project servicesMap h'
        (match c with Some c => newBuilds ++ [c] | None => newBuilds end) rest
  end.

(** The value of a selected build when the loop is over. *)
Definition readCell (h : Heap) (c : BuildCell) : ServiceAndBuild :=
  match cell_Repos c with
  | None => cell_build c
  | Some (name, r) =>
      match buildMap h !! name with
      | Some (Some obj) => withReposValue (cell_build c) (reposAt obj r)
      | _ => cell_build c
      end
  end.

(** [func (j *BuildJob) SetPreset() error] *)
Definition SetPreset (j : BuildJob) : Result BuildJob :=
  s ← IToi_build (job_Spec (job j));
  servicesMap ← match GetMaxRevisionsServicesMap cat (wf_Project (workflow j)) with
                | Found m => Ok m
                | NotFound err => Err ("get services map error: " +:+ err)
                end;
  r ← SetPreset_loop (wf_Project (workflow j)) servicesMap emptyHeap [] (ServiceAndBuilds s);
  let '(h, newBuilds) := r in
  Ok (setBuildSpec j
        (mkZadigBuildJobSpec (DockerRegistryID s) (map (readCell h) newBuilds)
           (ServiceAndBuildsOptions s))).

End BuildJobPreset.

(** ** Compiled tasks ([commonmodels.JobTask]) *)

(** [commonmodels.StepTask] without its type-specific [Spec] payload. *)
Record StepTask : Type := mkStepTask {
  step_Name : string;
  step_JobName : string;
  step_StepType : string
}.

(** [commonmodels.JobProperties]: the members that do not depend on the
    rendered image and package names. *)
Record JobProperties : Type := mkJobProperties {
  prop_Timeout : Z;
  prop_CustomEnvs : list KeyVal;
  prop_ClusterID : string;
  prop_StrategyID : string;
  prop_BuildOS : string;
  prop_ImageFrom : string;
  prop_UseHostDockerDaemon : bool;
  prop_CacheEnable : bool;
  prop_CacheDirType : string;
  prop_CacheMediumType : string
}.

Record JobTask : Type := mkJobTask {
  jt_Name : string;
  jt_JobInfo : gmap string string;
  jt_Key : string;
  jt_JobType : string;
  jt_Timeout : Z;
  jt_Outputs : list Output;
  jt_Infrastructure : string;
  jt_VMLabels : list string;
  jt_ErrorPolicy : option string;
  jt_Properties : JobProperties;
  jt_Steps : list StepTask
}.

(** String constants of [pkg/setting], [pkg/types] and [aslan/config] that the
    build job compares with or copies into a task; they are declared outside the
    sources at hand. *)
Record Settings : Type := mkSettings {
  JobVMInfrastructure : string;
  ObjectMedium : string;
  ScriptTypeShell : string;
  ScriptTypeBatchFile : string;
  ScriptTypePowerShell : string;
  JobZadigBuild : string;
  JobNameKey : string;
  StepTools : string;
  StepDownloadArchive : string;
  StepGit : string;
  StepDebugBefore : string;
  StepShell : string;
  StepBatchFile : string;
  StepPowerShell : string;
  StepDebugAfter : string;
  StepDockerBuild : string;
  StepTarArchive : string;
  StepArchive : string
}.

Definition IMAGEKEY : string := "IMAGE".
Definition IMAGETAGKEY : string := "imageTag".
Definition PKGFILEKEY : string := "PKG_FILE".

(** [func ensureBuildInOutputs(outputs) []*Output]: the key map is filled from
    the given outputs before anything is appended. *)
Definition ensureBuildInOutputs (outputs : list Output) : list Output :=
  let keyMap : gset string := list_to_set (map out_Name outputs) in
  let outputs := if decide (IMAGEKEY ∈ keyMap) then outputs
                   else outputs ++ [mkOutput IMAGEKEY] in
  let outputs := if decide (IMAGETAGKEY ∈ keyMap) then outputs
                   else outputs ++ [mkOutput IMAGETAGKEY] in
  let outputs := if decide (PKGFILEKEY ∈ keyMap) then outputs
                   else outputs ++ [mkOutput PKGFILEKEY] in
  outputs.

Section BuildJobToJobs.

Variable cat : Catalog.
Variable cfg : Settings.
Variable MergeBuildEnvs : list KeyVal -> list KeyVal -> list KeyVal.

(** [jobNameFormat] of the job package and [job.GetJobOutputKey] of
    [pkg/types/job], both declared outside the sources at hand. *)
Variable jobNameFormat : string -> string.
Variable GetJobOutputKey : string -> string -> string.

Definition lookupOr {A : Type} (l : Lookup A) (msg : string -> string) : Result A :=
  match l with
  | Found a => Ok a
  | NotFound err => Err (msg err)
  end.

(** [strings.Join([]string{j.job.Name, build.ServiceName, build.ServiceModule}, ".")] *)
Definition buildJobKey (jobName : string) (build : ServiceAndBuild) : string :=
  strings_Join [jobName; sab_ServiceName build; sab_ServiceModule build] ".".

(** [buildMap.Load] / [Find] / [buildMap.Store] in [ToJobs]: a failed [Find]
    is returned to the caller. *)
Definition loadBuildOrFail (project : string) (h : Heap) (buildName : string)
    : Result (Heap * BuildObj) :=
  match buildMap h !! buildName with
  | None =>
      b ← lookupOr (BuildColl_Find cat buildName project)
            (fun err => "find build: " +:+ buildName +:+ " error: " +:+ err);
      Ok (storeBuild h buildName (Some (freshBuildObj b)), freshBuildObj b)
  | Some (Some obj) => Ok (h, obj)
  | Some None => Panic   (* type assertion on a nil interface value *)
  end.

(** The cache settings of the task: [(CacheEnable, CacheDirType, Cache.MediumType)]. *)
Definition cacheProperties (b : Build) (pb : PreBuild) : Result (bool * string * string) :=
  if streq (b_Infrastructure b) (JobVMInfrastructure cfg)
  then Ok (b_CacheEnable b, b_CacheDirType b, "")
  else
    clusterInfo ← lookupOr (K8SClusterColl_Get cat (pre_ClusterID pb))
      (fun err => "find cluster: " +:+ pre_ClusterID pb +:+ " error: " +:+ err);
    let '(enable, dirType, medium) :=
      if streq (cache_MediumType clusterInfo) ""
      then (false, "", "")
      else (b_CacheEnable b, b_CacheDirType b, cache_MediumType clusterInfo) in
    if enable && streq medium (ObjectMedium cfg)
    then
      _ ← lookupOr (S3StorageColl_Find cat (cache_ObjectID clusterInfo))
        (fun err => "find cache s3 storage: " +:+ cache_ObjectID clusterInfo
                    +:+ " error: " +:+ err);
      Ok (enable, dirType, medium)
    else Ok (enable, dirType, medium).

(** The script step: its name and type depend on [buildInfo.ScriptType]; with
    an unknown script type both stay empty. *)
Definition scriptStep (b : Build) (serviceName jobTaskName : string) : StepTask :=
  if streq (b_ScriptType b) (ScriptTypeShell cfg) || streq (b_ScriptType b) ""
  then mkStepTask (serviceName +:+ "-shell") jobTaskName (StepShell cfg)
  else if streq (b_ScriptType b) (ScriptTypeBatchFile cfg)
  then mkStepTask (serviceName +:+ "-batchfile") jobTaskName (StepBatchFile cfg)
  else if streq (b_ScriptType b) (ScriptTypePowerShell cfg)
  then mkStepTask (serviceName +:+ "-powershell") jobTaskName (StepPowerShell cfg)
  else mkStepTask "" jobTaskName "".

Definition hasDockerBuild (b : Build) : bool :=
  match b_PostBuild b with
  | Some post => bool_decide (is_Some (post_DockerBuild post))
  | None => false
  end.

Definition hasFileArchive (b : Build) : bool :=
  match b_PostBuild b with
  | Some post =>
      match post_FileArchive post with
      | Some fileLocation => negb (streq fileLocation "")
      | None => false
      end
  | None => false
  end.

Definition objectStorageToUpload (b : Build) : option ObjectStorageUpload :=
  match b_PostBuild b with
  | Some post =>
      match post_ObjectStorageUpload post with
      | Some osu => if osu_Enabled osu then Some osu else None
      | None => None
      end
  | None => None
  end.

Definition hasPostScripts (b : Build) : bool :=
  match b_PostBuild b with
  | Some post => negb (streq (post_Scripts post) "")
  | None => false
  end.

Definition when (c : bool) (st : StepTask) : list StepTask := if c then [st] else [].

(** The steps of a build task, in the order [ToJobs] appends them; the lookup
    of the object storage of an upload step may fail. *)
Definition buildSteps (b : Build) (serviceName jobTaskName : string)
    (cacheEnable : bool) (medium : string) : Result (list StepTask) :=
  let objectCache := cacheEnable && streq medium (ObjectMedium cfg) in
  let front :=
    [mkStepTask (serviceName +:+ "-" +:+ "tool-install") jobTaskName (StepTools cfg)]
    ++ when objectCache
         (mkStepTask (serviceName +:+ "-" +:+ "download-archive") jobTaskName
            (StepDownloadArchive cfg))
    ++ [mkStepTask (serviceName +:+ "-git") jobTaskName (StepGit cfg);
        mkStepTask (serviceName +:+ "-debug_before") jobTaskName (StepDebugBefore cfg);
        scriptStep b serviceName jobTaskName;
        mkStepTask (serviceName +:+ "-debug_after") jobTaskName (StepDebugAfter cfg)]
    ++ when (hasDockerBuild b)
         (mkStepTask (serviceName +:+ "-docker-build") jobTaskName (StepDockerBuild cfg))
    ++ when objectCache
         (mkStepTask (serviceName +:+ "-" +:+ "tar-archive") jobTaskName (StepTarArchive cfg))
    ++ when (hasFileArchive b)
         (mkStepTask (serviceName +:+ "-pkgfile-archive") jobTaskName (StepArchive cfg)) in
  upload ←
    match objectStorageToUpload b with
    | Some osu =>
        _ ← lookupOr (S3StorageColl_Find cat (osu_ObjectStorageID osu))
          (fun err => "find object storage: " +:+ osu_ObjectStorageID osu
                      +:+ " failed, err: " +:+ err);
        Ok [mkStepTask (serviceName +:+ "-object-storage") jobTaskName (StepArchive cfg)]
    | None => Ok []
    end;
  Ok (front ++ upload
      ++ when (hasPostScripts b)
           (mkStepTask (serviceName +:+ "-post-shell") jobTaskName (StepShell cfg))).

Definition withImageAndPackage (b : ServiceAndBuild) (image package : string)
    : ServiceAndBuild :=
  mkServiceAndBuild (sab_ServiceName b) (sab_ServiceModule b) (sab_BuildName b)
    image package (sab_ImageName b) (sab_KeyVals b) (sab_Repos b) (sab_ShareStorageInfo b).

(** One iteration of the loop of [ToJobs].  The first component is the selected
    build as the iteration leaves it ([build.Image] and [build.Package] are
    assigned before the steps are built), the second the cache and the task, or
    the error that ends [ToJobs]. *)
Definition ToJobs_body (j : Job) (project : string) (h : Heap) (build : ServiceAndBuild)
    : ServiceAndBuild * Result (Heap * JobTask) :=
  let prepared : Result (Heap * Build * PreBuild * BasicImage * (bool * string * string)) :=
    hb ← loadBuildOrFail project h (sab_BuildName build);
    let '(h1, buildInfo) := hb in
    hb2 ← fillBuildDetail cat MergeBuildEnvs h1 buildInfo
            (sab_ServiceName build) (sab_ServiceModule build);
    let '(h2, buildInfo2) := hb2 in
    let h3 := storeBuild h2 (sab_BuildName build) (Some buildInfo2) in
    pb ← match curPreBuild h3 buildInfo2 with
         | Some pb => Ok pb
         | None => Panic
         end;
    basicImage ← lookupOr (BasicImageColl_Find cat (pre_ImageID pb))
      (fun err => "find base image: " +:+ pre_ImageID pb +:+ " error: " +:+ err);
    _ ← lookupOr (ListRegistryNamespaces cat) (fun err => err);
    cache ← cacheProperties (bo_val buildInfo2) pb;
    Ok (h3, bo_val buildInfo2, pb, basicImage, cache) in
  match prepared with
  | Err e => (build, Err e)
  | Panic => (build, Panic)
  | Ok (h3, b, pb, basicImage, (cacheEnable, cacheDirType, medium)) =>
      let name :=
        jobNameFormat (sab_ServiceName build +:+ "-" +:+ sab_ServiceModule build
                       +:+ "-" +:+ job_Name j) in
      let key := buildJobKey (job_Name j) build in
      let build' :=
        withImageAndPackage build (GetJobOutputKey key "IMAGE") (GetJobOutputKey key "PKG_FILE") in
      (build',
       steps ← buildSteps b (sab_ServiceName build) name cacheEnable medium;
       Ok (h3,
           mkJobTask name
             (<[JobNameKey cfg := job_Name j]>
                (<["service_module" := sab_ServiceModule build]>
                   (<["service_name" := sab_ServiceName build]> ∅)))
             key (JobZadigBuild cfg) (b_Timeout b)
             (ensureBuildInOutputs (b_Outputs b))
             (b_Infrastructure b) (b_VMLabels b) (job_ErrorPolicy j)
             (mkJobProperties (b_Timeout b)
                (renderKeyVals (sab_KeyVals build) (pre_Envs pb))
                (pre_ClusterID pb) (pre_StrategyID pb) (bi_Value basicImage)
                (pre_ImageFrom pb) (pre_UseHostDockerDaemon pb)
                cacheEnable cacheDirType medium)
             steps))
  end.

(** The loop of [ToJobs]: [done] are the selected builds already visited,
    [resp] the tasks emitted so far.  An error ends the loop; the builds not
    yet visited stay as they are. *)
Fixpoint ToJobs_loop (j : Job) (project : string) (h : Heap)
    (done : list ServiceAndBuild) (resp : list JobTask) (builds : list ServiceAndBuild)
    : list ServiceAndBuild * list JobTask * Result unit :=
  match builds with
  | [] => (done, resp, Ok ())
  | build :: rest =>
      match ToJobs_body j project h build with
      | (build', Ok (h', jobTask)) =>
          ToJobs_loop j project h' (done ++ [build']) (resp ++ [jobTask]) rest
      | (build', Err e) => (done ++ build' :: rest, resp, Err e)
      | (build', Panic) => (done ++ build' :: rest, resp, Panic)
      end
  end.

(** [func (j *BuildJob) ToJobs(taskID int64) ([]*commonmodels.JobTask, error)].
    The task id only enters the image and package names, which are part of
    the step payloads. *)
Definition ToJobs (j : BuildJob) (taskID : Z) : BuildJob * list JobTask * Result unit :=
  match IToi_build (job_Spec (job j)) with
  | Err e => (j, [], Err e)
  | Panic => (j, [], Panic)
  | Ok s =>
      let j1 := setBuildSpec j s in
      match FindRegistryById cat (DockerRegistryID s) with
      | NotFound err =>
          (j1, [], Err ("find docker registry: " +:+ DockerRegistryID s +:+ " error: " +:+ err))
      | Found _ =>
          match S3StorageColl_FindDefault cat with
          | NotFound err => (j1, [], Err ("find default s3 storage error: " +:+ err))
          | Found _ =>
              let '(builds, resp, r) :=
                ToJobs_loop (job j1) (wf_Project (workflow j)) emptyHeap [] []
                  (ServiceAndBuilds s) in
              (setBuildSpec j
                 (mkZadigBuildJobSpec (DockerRegistryID s) builds (ServiceAndBuildsOptions s)),
               resp, r)
          end
      end
  end.

End BuildJobToJobs.

(** ** The SQL job controller ([jobcontroller/job_sql.go]) *)

(** [setting.SQLExecStatus] *)
Inductive SQLExecStatus : Type :=
  | SQLExecStatusNotExec
  | SQLExecStatusSuccess
  | SQLExecStatusFailed.

(** [commonmodels.SQLExecResult] *)
Record SQLExecResult : Type := mkSQLExecResult {
  res_SQL : string;
  res_ElapsedTime : Z;
  res_RowsAffected : Z;
  res_Status : SQLExecStatus
}.

(** [commonmodels.JobTaskSQLSpec] *)
Record JobTaskSQLSpec : Type := mkJobTaskSQLSpec {
  sql_ID : string;
  sql_SQL : string;
  sql_Results : list SQLExecResult
}.

(** [config.Status]: the states of the specification (section 4). *)
Inductive Status : Type :=
  | StatusCreated
  | StatusRunning
  | StatusPassed
  | StatusFailed
  | StatusTimeout
  | StatusCancelled
  | StatusReject.

(** The members of [commonmodels.JobTask] a job controller updates. *)
Record JobState : Type := mkJobState {
  Status_ : Status;
  Error : string
}.

(** [config.DBInstanceType] *)
Inductive DBInstanceType : Type :=
  | DBInstanceTypeMySQL
  | DBInstanceTypeMariaDB
  | DBInstanceTypeOther (name : string).

(** [commonmodels.DBInstance] *)
Record DBInstance : Type := mkDBInstance {
  db_Type : DBInstanceType;
  db_Username : string;
  db_Password : string;
  db_Host : string;
  db_Port : string
}.

(** [strings.SplitAfter(s, sep)] for a separator of one byte: the pieces end
    with the separator, and the text after the last separator, empty or not,
    is the last piece. *)
Fixpoint SplitAfter (s : string) (sep : Ascii.ascii) : list string :=
  match s with
  | EmptyString => [""]
  | String a rest =>
      if bool_decide (a = sep)
      then String a "" :: SplitAfter rest sep
      else match SplitAfter rest sep with
           | piece :: pieces => String a piece :: pieces
           | [] => [String a ""]
           end
  end.

(** What the controller observes of one [db.Exec]: the error, or the time the
    call took in milliseconds and the answer of [result.RowsAffected()]. *)
Inductive ExecReply : Type :=
  | ExecError (err : string)
  | ExecDone (elapsed : Z) (rows : Lookup Z).

(** The database driver: [sql.Open] on a data source name and [db.Exec] on an
    open handle whose state a statement may change. *)
Record SQLDriver : Type := mkSQLDriver {
  DB : Type;
  sql_Open : string -> Lookup DB;
  db_Exec : DB -> string -> DB * ExecReply
}.

(** What the controller does to the outside, in order. *)
Inductive Event : Type :=
  | EvAck (st : Status)          (* [c.ack()], with the job status it publishes *)
  | EvExec (stmt : string).      (* [db.Exec(stmt)] *)

(** Modelled from the spec: [logError] is declared in another file of the
    controller package.  Section 7: an execution error is "recorded as the
    job's error field and status Failed". *)
Definition logError (j : JobState) (msg : string) : JobState :=
  mkJobState StatusFailed msg.

Section SQLJob.

Variable driver : SQLDriver.

(** [mongodb.NewDBInstanceColl().Find({Id})] *)
Variable DBInstanceColl_Find : string -> Lookup DBInstance.

(** [strings.TrimSpace] of the Go standard library. *)
Variable strings_TrimSpace : string -> string.

(** [type SQLJobCtl struct] *)
Record SQLJobCtl : Type := mkSQLJobCtl {
  ctl_job : JobState;
  ctl_jobTaskSpec : JobTaskSQLSpec;
  ctl_dbInfo : option DBInstance
}.

Definition dataSourceName (info : DBInstance) : string :=
  db_Username info +:+ ":" +:+ db_Password info +:+ "@tcp(" +:+ db_Host info +:+ ":"
  +:+ db_Port info +:+ ")/?charset=utf8&multiStatements=true".

(** First loop of [ExecMySQLStatement]: one entry per non-empty piece. *)
Definition newExecResult (sql : string) : SQLExecResult :=
  mkSQLExecResult (strings_TrimSpace sql) 0 0 SQLExecStatusNotExec.

Definition appendNotExec (results : list SQLExecResult) (sqls : list string)
    : list SQLExecResult :=
  fold_left
    (fun results sql => if streq sql "" then results else results ++ [newExecResult sql])
    sqls results.

Definition setStatus (r : SQLExecResult) (st : SQLExecStatus) : SQLExecResult :=
  mkSQLExecResult (res_SQL r) (res_ElapsedTime r) (res_RowsAffected r) st.

(** Second loop: [visited] are the entries already executed, as the loop left
    them; the entries not reached are returned unchanged. *)
Fixpoint execResults (db : DB driver) (visited : list SQLExecResult)
    (results : list SQLExecResult) (trace : list Event)
    : list SQLExecResult * list Event * option string :=
  match results with
  | [] => (visited, trace, None)
  | execResult :: rest =>
      let '(db', reply) := db_Exec driver db (res_SQL execResult) in
      let trace := trace ++ [EvExec (res_SQL execResult)] in
      match reply with
      | ExecError err =>
          (visited ++ setStatus execResult SQLExecStatusFailed :: rest, trace,
           Some ("exec SQL " +:+ dquote +:+ res_SQL execResult +:+ dquote +:+ " error: " +:+ err))
      | ExecDone elapsed rows =>
          let succeeded :=
            mkSQLExecResult (res_SQL execResult) elapsed (res_RowsAffected execResult)
              SQLExecStatusSuccess in
          match rows with
          | NotFound err =>
              (visited ++ succeeded :: rest, trace, Some ("get affect rows error: " +:+ err))
          | Found rowsAffected =>
              execResults db'
                (visited ++ [mkSQLExecResult (res_SQL execResult) elapsed rowsAffected
                               SQLExecStatusSuccess])
                rest trace
          end
      end
  end.

(** [func (c *SQLJobCtl) ExecMySQLStatement() error]; [c.dbInfo] has been set
    by [Run]. *)
Definition ExecMySQLStatement (info : DBInstance) (sp : JobTaskSQLSpec) (trace : list Event)
    : JobTaskSQLSpec * list Event * option string :=
  match sql_Open driver (dataSourceName info) with
  | NotFound err => (sp, trace, Some ("connect db error: " +:+ err))
  | Found db =>
      let sqls := SplitAfter (sql_SQL sp) ";"%char in
      let results := appendNotExec (sql_Results sp) sqls in
      let '(results', trace', err) := execResults db [] results trace in
      (mkJobTaskSQLSpec (sql_ID sp) (sql_SQL sp) results', trace', err)
  end.

(** [func (c *SQLJobCtl) Run(ctx context.Context)] *)
Definition Run (c : SQLJobCtl) : SQLJobCtl * list Event :=
  let job1 := mkJobState StatusRunning (Error (ctl_job c)) in
  let trace := [EvAck StatusRunning] in
  match DBInstanceColl_Find (sql_ID (ctl_jobTaskSpec c)) with
  | NotFound err => (mkSQLJobCtl (logError job1 err) (ctl_jobTaskSpec c) (ctl_dbInfo c), trace)
  | Found info =>
      match db_Type info with
      | DBInstanceTypeMySQL | DBInstanceTypeMariaDB =>
          let '(sp, trace', err) := ExecMySQLStatement info (ctl_jobTaskSpec c) trace in
          match err with
          | Some msg => (mkSQLJobCtl (logError job1 msg) sp (Some info), trace')
          | None => (mkSQLJobCtl (mkJobState StatusPassed (Error job1)) sp (Some info), trace')
          end
      | DBInstanceTypeOther _ =>
          (mkSQLJobCtl (logError job1 "invalid db type") (ctl_jobTaskSpec c) (Some info), trace)
      end
  end.

End SQLJob.

(** ** The image distribute job and its step *)

(** [step.DistributeTaskTarget] *)
Record DistributeTaskTarget : Type := mkDistributeTaskTarget {
  dtt_SourceImage : string;
  dtt_TargetImage : string;
  dtt_ServiceName : string;
  dtt_ServiceModule : string;
  dtt_TargetTag : string;
  dtt_UpdateTag : bool
}.

(** [step.StepImageDistributeSpec]; the two registries are read by [PreRun]
    only. *)
Record StepImageDistributeSpec : Type := mkStepImageDistributeSpec {
  DistributeTarget_ : list DistributeTaskTarget
}.

(** [type ImageDistributeJob struct { job; workflow; spec }] *)
Record ImageDistributeJob : Type := mkImageDistributeJob {
  dist_job : Job;
  dist_workflow : WorkflowV4;
  dist_spec : ZadigDistributeImageJobSpec
}.

(** Modelled from the spec: [getJobRankMap] is declared in another file of the
    job package.  Section 4.1 calls it "a rank map over stage position" that
    decides whether a job is "earlier in the stage order", and section 8 lets a
    reference to "a job earlier in the same stage or an earlier stage" succeed
    and a reference to a job after it fail.  A job's rank is therefore its
    position in the workflow, stage after stage and, within a stage, in
    declaration order; as in a Go map, a later job of the same name replaces the
    rank of an earlier one. *)
Definition getJobRankMap (stages : list WorkflowStage) : gmap string Z :=
  snd (fold_left
         (fun (st : Z * gmap string Z) (job : Job) =>
            let '(index, resp) := st in
            ((index + 1)%Z, <[job_Name job := index]> resp))
         (concat (map stage_Jobs stages)) (0%Z, ∅)).

(** Modelled from the spec: [getOutputKey] is declared in another file of the
    job package.  Section 3: an output is "resolved at runtime into
    globalContext under" the key made of the job key and the output name;
    section 4.1: [GetOutPuts] "returns the declared output keys a downstream
    job may reference".  It is taken to form one job output key per declared
    output. *)
Definition getOutputKey (GetJobOutputKey : string -> string -> string)
    (jobKey : string) (outputs : list Output) : list string :=
  map (fun output => GetJobOutputKey jobKey (out_Name output)) outputs.

(** Modelled from the spec: [WorkflowTaskCtx.GlobalContextSet] is declared
    with the task context, outside the sources at hand.  Section 3:
    [globalContext] is a [map[string]string]; section 9: it offers
    [get(key)]/[set(key, value)], and "subsequent writes overwrite". *)
Record WorkflowTaskCtx : Type := mkWorkflowTaskCtx {
  GlobalContext : gmap string string
}.

Definition GlobalContextSet (ctx : WorkflowTaskCtx) (key value : string) : WorkflowTaskCtx :=
  mkWorkflowTaskCtx (<[key := value]> (GlobalContext ctx)).

Definition GlobalContextGet (ctx : WorkflowTaskCtx) (key : string) : option string :=
  GlobalContext ctx !! key.

Section DistributeImage.

(** [config.SourceFromJob] and [job.GetJobOutputKey], both declared outside
    the sources at hand. *)
Variable SourceFromJob : string.
Variable GetJobOutputKey : string -> string -> string.

(** [func (j *ImageDistributeJob) LintJob() error] *)
Definition LintJob (j : ImageDistributeJob) : Result ImageDistributeJob :=
  s ← IToi_distribute (job_Spec (dist_job j));
  let j' := mkImageDistributeJob (dist_job j) (dist_workflow j) s in
  if negb (streq (dj_Source s) SourceFromJob) then Ok j'
  else
    let jobRankMap := getJobRankMap (wf_Stages (dist_workflow j)) in
    match jobRankMap !! dj_JobName s with
    | Some buildJobRank =>
        if (buildJobRank >=? default 0%Z (jobRankMap !! job_Name (dist_job j)))%Z
        then Err ("can not quote job " +:+ dj_JobName s +:+ " in job " +:+ job_Name (dist_job j))
        else Ok j'
    | None =>
        Err ("can not quote job " +:+ dj_JobName s +:+ " in job " +:+ job_Name (dist_job j))
    end.

(** [strings.Join([]string{jobName, serviceName, serviceModule}, ".")] *)
Definition targetKey (jobName serviceName serviceModule : string) : string :=
  strings_Join [jobName; serviceName; serviceModule] ".".

(** [func (j *ImageDistributeJob) GetOutPuts(log) []string] *)
Definition GetOutPuts (j : ImageDistributeJob) : list string :=
  match IToi_distribute (job_Spec (dist_job j)) with
  | Ok s =>
      fold_left
        (fun resp target =>
           resp ++ getOutputKey GetJobOutputKey
                     (targetKey (job_Name (dist_job j)) (dt_ServiceName target)
                        (dt_ServiceModule target))
                     [mkOutput "IMAGE"])
        (dj_Targets s) []
  | _ => []
  end.

(** [type distributeImageCtl struct] *)
Record distributeImageCtl : Type := mkDistributeImageCtl {
  workflowCtx : WorkflowTaskCtx;
  jobName : string;
  distributeImageSpec : StepImageDistributeSpec
}.

(** [func (s *distributeImageCtl) AfterRun(ctx) error]; it always returns nil. *)
Definition AfterRun (s : distributeImageCtl) : distributeImageCtl :=
  mkDistributeImageCtl
    (fold_left
       (fun ctx target =>
          GlobalContextSet ctx
            (GetJobOutputKey
               (targetKey (jobName s) (dtt_ServiceName target) (dtt_ServiceModule target))
               "IMAGE")
            (dtt_TargetImage target))
       (DistributeTarget_ (distributeImageSpec s)) (workflowCtx s))
    (jobName s) (distributeImageSpec s).

End DistributeImage.

(** ** Cronjob reconciliation ([workflow.UpdateCronjob]) *)

(** [primitive.ObjectID], represented by the 24 hexadecimal digits that [Hex()]
    returns; the zero id is [NilObjectID]. *)
Abbreviation ObjectID := string (only parsing).

Definition NilObjectID : ObjectID := "000000000000000000000000".
Definition IsZero (id : ObjectID) : bool := streq id NilObjectID.
Definition Hex (id : ObjectID) : string := id.

(** [commonmodels.Schedule]: one submitted schedule item.  The argument
    structures are carried as opaque values. *)
Record Schedule : Type := mkSchedule {
  sch_ID : ObjectID;
  sch_Number : Z;
  sch_Frequency : string;
  sch_Time : string;
  sch_Cron : string;
  sch_MaxFailures : Z;
  sch_TaskArgs : string;
  sch_WorkflowArgs : string;
  sch_TestArgs : string;
  sch_Type : string
}.

(** [commonmodels.ScheduleCtrl] *)
Record ScheduleCtrl : Type := mkScheduleCtrl {
  sc_Enabled : bool;
  sc_Items : list Schedule
}.

(** [commonmodels.Cronjob] *)
Record Cronjob : Type := mkCronjob {
  cj_ID : ObjectID;
  cj_Name : string;
  cj_Type : string;
  cj_Number : Z;
  cj_Frequency : string;
  cj_Time : string;
  cj_Cron : string;
  cj_ProductName : string;
  cj_MaxFailure : Z;
  cj_TaskArgs : string;
  cj_WorkflowArgs : string;
  cj_TestArgs : string;
  cj_JobType : string;
  cj_Enabled : bool
}.

#[global] Instance Cronjob_eq_dec : EqDecision Cronjob.
Proof. solve_decision. Defined.

(** The calls [UpdateCronjob] makes on [commonrepo.NewCronjobColl()], over a
    collection state [S].  [Create] answers with the id the collection gave to
    the new record. *)
Class CronjobColl (S : Type) : Type := mkCronjobColl {
  coll_List : S -> string -> string -> Lookup (list Cronjob);
  coll_Update : S -> Cronjob -> Lookup S;
  coll_Create : S -> Cronjob -> Lookup (S * ObjectID);
  coll_Delete : S -> list string -> Lookup S
}.

Section UpdateCronjob.

Context {S : Type} `{CronjobColl S}.

(** [setting.TestingCronjob], declared outside the sources at hand. *)
Variable TestingCronjob : string.

(** The order in which [for k := range idMap] visits the keys; Go leaves it
    unspecified. *)
Variable rangeKeys : gmap string bool -> list string.

Definition withID (job : Cronjob) (id : ObjectID) : Cronjob :=
  mkCronjob id (cj_Name job) (cj_Type job) (cj_Number job) (cj_Frequency job) (cj_Time job)
    (cj_Cron job) (cj_ProductName job) (cj_MaxFailure job) (cj_TaskArgs job)
    (cj_WorkflowArgs job) (cj_TestArgs job) (cj_JobType job) (cj_Enabled job).

Definition withProductName (job : Cronjob) (productName : string) : Cronjob :=
  mkCronjob (cj_ID job) (cj_Name job) (cj_Type job) (cj_Number job) (cj_Frequency job)
    (cj_Time job) (cj_Cron job) productName (cj_MaxFailure job) (cj_TaskArgs job)
    (cj_WorkflowArgs job) (cj_TestArgs job) (cj_JobType job) (cj_Enabled job).

Definition withScheduleID (tasks : Schedule) (id : ObjectID) : Schedule :=
  mkSchedule id (sch_Number tasks) (sch_Frequency tasks) (sch_Time tasks) (sch_Cron tasks)
    (sch_MaxFailures tasks) (sch_TaskArgs tasks) (sch_WorkflowArgs tasks)
    (sch_TestArgs tasks) (sch_Type tasks).

(** The [&commonmodels.Cronjob{...}] literal at the head of the loop body. *)
Definition cronjobOf (parentName parentType : string) (tasks : Schedule) : Cronjob :=
  mkCronjob NilObjectID parentName parentType (sch_Number tasks) (sch_Frequency tasks)
    (sch_Time tasks) (sch_Cron tasks) "" (sch_MaxFailures tasks) (sch_TaskArgs tasks)
    (sch_WorkflowArgs tasks) (sch_TestArgs tasks) (sch_Type tasks) true.

Definition forTesting (parentType productName : string) (job : Cronjob) : Cronjob :=
  if streq parentType TestingCronjob then withProductName job productName else job.

(** The loop over [schedule.Items]: [visited] are the items already handled
    (a created item has received its id). *)
Fixpoint reconcileItems (parentName parentType productName : string)
    (st : S) (idMap : gmap string bool) (visited items : list Schedule)
    : Result (S * gmap string bool * list Schedule) :=
  match items with
  | [] => Ok (st, idMap, visited)
  | tasks :: rest =>
      let job := cronjobOf parentName parentType tasks in
      if negb (IsZero (sch_ID tasks))
      then
        let job := forTesting parentType productName (withID job (sch_ID tasks)) in
        match coll_Update st job with
        | NotFound err => Err err
        | Found st' =>
            reconcileItems parentName parentType productName st'
              (delete (Hex (sch_ID tasks)) idMap) (visited ++ [tasks]) rest
        end
      else
        let job := forTesting parentType productName job in
        match coll_Create st job with
        | NotFound err => Err err
        | Found (st', id) =>
            reconcileItems parentName parentType productName st' idMap
              (visited ++ [withScheduleID tasks id]) rest
        end
  end.

(** [func UpdateCronjob(parentName, parentType, productName, schedule, log)
    (deleteList []string, err error)].  Beside the delete list the model returns
    the collection and the schedule items, which the function updates through
    the [schedule] pointer. *)
Definition UpdateCronjob (parentName parentType productName : string)
    (schedule : ScheduleCtrl) (st : S) : Result (list string * ScheduleCtrl * S) :=
  match coll_List st parentName parentType with
  | NotFound err => Err err
  | Found jobList =>
      let idMap : gmap string bool :=
        fold_left (fun m cron => <[Hex (cj_ID cron) := true]> m) jobList ∅ in
      r ← reconcileItems parentName parentType productName st idMap [] (sc_Items schedule);
      let '(st1, idMap1, items) := r in
      let deleteList := rangeKeys idMap1 in
      match coll_Delete st1 deleteList with
      | NotFound err => Err err
      | Found st2 => Ok (deleteList, mkScheduleCtrl (sc_Enabled schedule) items, st2)
      end
  end.

End UpdateCronjob.

(** Modelled from the spec: the cronjob collection is part of the persistence
    layer, an external collaborator (section 1).  Section 4.5 and section 6 say
    what the core expects of it: records are queried "by parent name/type", an
    entry matched by id is "updated in place", an item without id is "created",
    and the unmatched entries are "deleted".  [MemColl] is that collection in
    memory; [mc_log] keeps the calls it served and [mc_fresh] the ids it will
    hand out. *)
Inductive CollOp : Type :=
  | OpUpdate (job : Cronjob)
  | OpCreate (job : Cronjob)
  | OpDelete (ids : list string).

Record MemColl : Type := mkMemColl {
  mc_records : list Cronjob;
  mc_fresh : list ObjectID;
  mc_log : list CollOp
}.

Definition mem_List (st : MemColl) (parentName parentType : string) : Lookup (list Cronjob) :=
  Found (filter (fun c => cj_Name c = parentName ∧ cj_Type c = parentType) (mc_records st)).

Definition mem_Update (st : MemColl) (job : Cronjob) : Lookup MemColl :=
  Found (mkMemColl
           (map (fun c => if streq (cj_ID c) (cj_ID job) then job else c) (mc_records st))
           (mc_fresh st) (mc_log st ++ [OpUpdate job])).

Definition mem_Create (st : MemColl) (job : Cronjob) : Lookup (MemColl * ObjectID) :=
  match mc_fresh st with
  | id :: fresh =>
      Found (mkMemColl (mc_records st ++ [withID job id]) fresh (mc_log st ++ [OpCreate job]), id)
  | [] => NotFound "insert failed"
  end.

Definition mem_Delete (st : MemColl) (ids : list string) : Lookup MemColl :=
  Found (mkMemColl
           (filter (fun c => Hex (cj_ID c) ∉ ids) (mc_records st))
           (mc_fresh st) (mc_log st ++ [OpDelete ids])).

#[global] Instance MemColl_CronjobColl : CronjobColl MemColl :=
  mkCronjobColl MemColl mem_List mem_Update mem_Create mem_Delete.

(** A visiting order for [range]: the keys as [map_to_list] enumerates them. *)
Definition keysOf (m : gmap string bool) : list string := (map_to_list m).*1.

(** ** Further functions of the build job ([job_build.go]) *)

(** [s[n:]] *)
Fixpoint dropBytes (n : nat) (s : string) : string :=
  match n, s with
  | S n, String _ rest => dropBytes n rest
  | _, _ => s
  end.

(** [strings.Replace(s, old, new, -1)] and [strings.ReplaceAll(s, old, new)] of
    the Go standard library, for a non-empty [old]: the occurrences of [old]
    are replaced from left to right, and the search resumes after each
    replaced occurrence.  [fuel] bounds the number of bytes still to read. *)
Fixpoint replaceFrom (fuel : nat) (s old new : string) : string :=
  match fuel with
  | 0 => s
  | S fuel =>
      match s with
      | EmptyString => EmptyString
      | String a rest =>
          if String.prefix old s
          then new +:+ replaceFrom fuel (dropBytes (String.length old) s) old new
          else String a (replaceFrom fuel rest old new)
      end
  end.

Definition strings_ReplaceAll (s old new : string) : string :=
  replaceFrom (String.length s) s old new.

(** [strings.TrimPrefix(s, prefix)] *)
Definition strings_TrimPrefix (s prefix : string) : string :=
  if String.prefix prefix s then dropBytes (String.length prefix) s else s.

(** Carriage return and line feed. *)
Definition CR : Ascii.ascii := Ascii.ascii_of_nat 13.
Definition LF : Ascii.ascii := Ascii.ascii_of_nat 10.

(** [func replaceWrapLine(script string) string] *)
Definition replaceWrapLine (script : string) : string :=
  strings_ReplaceAll
    (strings_ReplaceAll script (String CR (String LF EmptyString)) (String LF EmptyString))
    (String CR EmptyString) (String LF EmptyString).

(** The condition of the inner loop of [MergeArgs]. *)
Definition MergeArgs_match (build argsBuild : ServiceAndBuild) : bool :=
  streq (sab_BuildName build) (sab_BuildName argsBuild)
  && streq (sab_ServiceName build) (sab_ServiceName argsBuild)
  && streq (sab_ServiceModule build) (sab_ServiceModule argsBuild).

(** The inner loop of [MergeArgs]: the first build of the arguments with the
    same names is merged into the build, which is then kept; [None] when
    there is none. *)
Definition MergeArgs_build (argsBuilds : list ServiceAndBuild) (build : ServiceAndBuild)
    : option ServiceAndBuild :=
  match List.find (MergeArgs_match build) argsBuilds with
  | Some argsBuild =>
      let build := withReposValue build (mergeRepos (sab_Repos build) (sab_Repos argsBuild)) in
      Some (withSelection build (renderKeyVals (sab_KeyVals argsBuild) (sab_KeyVals build)))
  | None => None
  end.

(** [func (j *BuildJob) MergeArgs(args *commonmodels.Job) error] *)
Definition MergeArgs (j : BuildJob) (args : Job) : Result BuildJob :=
  if streq (job_Name (job j)) (job_Name args) && streq (job_JobType (job j)) (job_JobType args)
  then
    s ← IToi_build (job_Spec (job j));
    argsSpec ← IToi_build (job_Spec args);
    let newBuilds := omap (MergeArgs_build (ServiceAndBuilds argsSpec)) (ServiceAndBuilds s) in
    Ok (setBuildSpec j
          (mkZadigBuildJobSpec (DockerRegistryID s) newBuilds (ServiceAndBuildsOptions s)))
  else Ok j.

(** [func (j *BuildJob) MergeWebhookRepo(webhookRepo *types.Repository) error] *)
Definition MergeWebhookRepo (j : BuildJob) (webhookRepo : Repository) : Result BuildJob :=
  s ← IToi_build (job_Spec (job j));
  let builds :=
    map (fun build => withReposValue build (mergeRepos (sab_Repos build) [webhookRepo]))
        (ServiceAndBuilds s) in
  Ok (setBuildSpec j
        (mkZadigBuildJobSpec (DockerRegistryID s) builds (ServiceAndBuildsOptions s))).

(** ** Further methods of the image distribute job *)

(** [commonmodels.ZadigDeployJobSpec]: the members the distribute job reads
    of a deploy job it refers to. *)
Record DeployModuleInfo : Type := mkDeployModuleInfo { dmi_ServiceModule : string }.

Record DeployServiceInfo : Type := mkDeployServiceInfo {
  dsi_ServiceName : string;
  dsi_Modules : list DeployModuleInfo
}.

Record ZadigDeployJobSpec : Type := mkZadigDeployJobSpec {
  dep_Env : string;
  dep_Services : list DeployServiceInfo
}.

(** [commonmodels.Product]: the registry of an environment. *)
Record Product : Type := mkProduct { prod_RegistryID : string }.

Definition DistributeTimeout : Z := 10.
Definition WorkflowInputImageTagVariable : string := "{{.workflow.input.imageTag}}".
Definition PreBuildImageTagVariable : string := "{{.job.preBuild.imageTag}}".
Definition PreJobImageTagVariable : string := "{{.job.preJob.imageTag}}".

(** [func getServiceKey(serviceName, serviceModule string) string] *)
Definition getServiceKey (serviceName serviceModule : string) : string :=
  serviceName +:+ "/" +:+ serviceModule.

(** [func getImage(name, tag string, reg *commonmodels.RegistryNamespace) string] *)
Definition getImage (name tag : string) (reg : RegistryNamespace) : string :=
  let image := reg_RegAddr reg +:+ "/" +:+ name +:+ ":" +:+ tag in
  let image :=
    if (0 <? String.length (reg_Namespace reg))%nat
    then reg_RegAddr reg +:+ "/" +:+ reg_Namespace reg +:+ "/" +:+ name +:+ ":" +:+ tag
    else image in
  let image := strings_TrimPrefix image "http://" in
  strings_TrimPrefix image "https://".

(** [func getTimeout(timeout int64) int64] *)
Definition getTimeout (timeout : Z) : Z :=
  if (timeout =? 0)%Z then DistributeTimeout else timeout.

Definition withTargets_ (s : ZadigDistributeImageJobSpec) (targets : list DistributeTarget)
    : ZadigDistributeImageJobSpec :=
  mkZadigDistributeImageJobSpec (dj_Source s) (dj_JobName s) (dj_SourceRegistryID s)
    (dj_TargetRegistryID s) targets (dj_TargetOptions s) (dj_Timeout s) (dj_ClusterID s)
    (dj_StrategyID s) (dj_EnableTargetImageTagRule s) (dj_TargetImageTagRule s).

Definition withSourceRegistryID (s : ZadigDistributeImageJobSpec) (id : string)
    : ZadigDistributeImageJobSpec :=
  mkZadigDistributeImageJobSpec (dj_Source s) (dj_JobName s) id
    (dj_TargetRegistryID s) (dj_Targets s) (dj_TargetOptions s) (dj_Timeout s) (dj_ClusterID s)
    (dj_StrategyID s) (dj_EnableTargetImageTagRule s) (dj_TargetImageTagRule s).

Definition withTargetImageName (t : DistributeTarget) (imageName : string) : DistributeTarget :=
  mkDistributeTarget (dt_ServiceName t) (dt_ServiceModule t) (dt_SourceTag t) (dt_TargetTag t)
    imageName (dt_SourceImage t) (dt_TargetImage t) (dt_UpdateTag t).

Definition withSourceImage (t : DistributeTarget) (sourceImage : string) : DistributeTarget :=
  mkDistributeTarget (dt_ServiceName t) (dt_ServiceModule t) (dt_SourceTag t) (dt_TargetTag t)
    (dt_ImageName t) sourceImage (dt_TargetImage t) (dt_UpdateTag t).

Definition withTargetImage (t : DistributeTarget) (targetImage : string) : DistributeTarget :=
  mkDistributeTarget (dt_ServiceName t) (dt_ServiceModule t) (dt_SourceTag t) (dt_TargetTag t)
    (dt_ImageName t) (dt_SourceImage t) targetImage (dt_UpdateTag t).

Definition withTag (t : DistributeTarget) (targetTag : string) (updateTag : bool)
    : DistributeTarget :=
  mkDistributeTarget (dt_ServiceName t) (dt_ServiceModule t) (dt_SourceTag t) targetTag
    (dt_ImageName t) (dt_SourceImage t) (dt_TargetImage t) updateTag.

(** [&commonmodels.DistributeTarget{ServiceName: .., ServiceModule: ..}] *)
Definition newTarget (serviceName serviceModule : string) : DistributeTarget :=
  mkDistributeTarget serviceName serviceModule "" "" "" "" "" false.

(** [j.spec = s; j.job.Spec = j.spec] *)
Definition setDistributeSpec (j : ImageDistributeJob) (s : ZadigDistributeImageJobSpec)
    : ImageDistributeJob :=
  mkImageDistributeJob
    (mkJob (job_Name (dist_job j)) (job_JobType (dist_job j)) (SpecDistribute s)
       (job_ErrorPolicy (dist_job j)))
    (dist_workflow j) s.

(** The loops of [UpdateWithLatestSetting] and [SetOptions] over the stages
    and their jobs: the first job, in stage order, with the given name and type. *)
Definition findStoredJob (stages : list WorkflowStage) (name jobType : string) : option Job :=
  List.find (fun job => streq (job_Name job) name && streq (job_JobType job) jobType)
            (concat (map stage_Jobs stages)).

Module ImageDistribute.

Section Methods.

Variable cat : Catalog.
Variable cfg : Settings.

(** [config.SourceFromJob], [config.SourceRuntime], [config.JobZadigDistributeImage],
    [config.JobZadigDeploy], [config.StepDistributeImage] and
    [commonmodels.ImageFromKoderover], declared outside the sources at hand. *)
Variable SourceFromJob SourceRuntime : string.
Variable JobZadigDistributeImage JobZadigDeploy : string.
Variable StepDistributeImage ImageFromKoderover : string.

(** [getOriginJobName] of the job package and [job.GetJobOutputKey] of
    [pkg/types/job], declared outside the sources at hand. *)
Variable getOriginJobName : WorkflowV4 -> string -> string.
Variable GetJobOutputKey : string -> string -> string.

(** [commonmodels.IToi] into a deploy job spec,
    [commonrepo.NewProductColl().Find({EnvName, Name})] and
    [commonrepo.NewWorkflowV4Coll().Find(name)]; the last one answers with a
    pointer, nil or not, and an error, nil or not. *)
Variable IToi_deploy : JobSpec -> Result ZadigDeployJobSpec.
Variable ProductColl_Find : string -> string -> Lookup Product.
Variable WorkflowV4Coll_Find : string -> option WorkflowV4 * option string.

(** [func getQuoteBuildJobSpec(jobName, workflow)], which returns a build job spec and an error:
    the first job of that name decides. *)
Definition getQuoteBuildJobSpec (jobName : string) (workflow : WorkflowV4)
    : Result ZadigBuildJobSpec :=
  match List.find (fun job => streq (job_Name job) jobName)
                  (concat (map stage_Jobs (wf_Stages workflow))) with
  | Some job =>
      if negb (streq (job_JobType job) (JobZadigBuild cfg))
      then Err ("cannot reference job: " +:+ jobName +:+ " that is not a build")
      else IToi_build (job_Spec job)
  | None => Err ("reference job: " +:+ jobName +:+ " not found")
  end.

(** The body of the inner loop of [getOriginReferredJobTargets] for a job of
    the referred name: the targets and the registry a build, distribute or
    deploy job gives, or the error that ends the function; [None] for a job of
    another type, which the loop passes over. *)
Definition referredTargets (project : string) (job : Job)
    : option (Result (list DistributeTarget * string)) :=
  if streq (job_JobType job) (JobZadigBuild cfg)
  then Some match IToi_build (job_Spec job) with
            | Ok buildSpec =>
                Ok (map (fun build => newTarget (sab_ServiceName build) (sab_ServiceModule build))
                        (ServiceAndBuilds buildSpec),
                    DockerRegistryID buildSpec)
            | Err err => Err ("failed to decode build job spec, error: " +:+ err)
            | Panic => Panic
            end
  else if streq (job_JobType job) JobZadigDistributeImage
  then Some match IToi_distribute (job_Spec job) with
            | Ok distributeSpec =>
                Ok (map (fun distribute =>
                           newTarget (dt_ServiceName distribute) (dt_ServiceModule distribute))
                        (dj_Targets distributeSpec),
                    dj_TargetRegistryID distributeSpec)
            | Err err => Err ("failed to decode distribute job spec, error: " +:+ err)
            | Panic => Panic
            end
  else if streq (job_JobType job) JobZadigDeploy
  then Some match IToi_deploy (job_Spec job) with
            | Ok deploySpec =>
                let servicetargets :=
                  concat (map (fun svc =>
                                 map (fun module =>
                                        newTarget (dsi_ServiceName svc) (dmi_ServiceModule module))
                                     (dsi_Modules svc))
                              (dep_Services deploySpec)) in
                match ProductColl_Find (dep_Env deploySpec) project with
                | Found envInfo => Ok (servicetargets, prod_RegistryID envInfo)
                | NotFound err =>
                    Err ("failed to get deploy job " +:+ dep_Env deploySpec
                         +:+ " env's registry info, error: " +:+ err)
                end
            | Err err => Err ("failed to decode deploy job spec, error: " +:+ err)
            | Panic => Panic
            end
  else None.

(** The loops labelled [serviceLoop]: the first job, in stage order, of the
    referred name and of one of the three types. *)
Fixpoint serviceLoop (project serviceReferredJob : string) (jobs : list Job)
    : option (Result (list DistributeTarget * string)) :=
  match jobs with
  | [] => None
  | job :: rest =>
      if negb (streq (job_Name job) serviceReferredJob)
      then serviceLoop project serviceReferredJob rest
      else match referredTargets project job with
           | Some r => Some r
           | None => serviceLoop project serviceReferredJob rest
           end
  end.

(** [func (j *ImageDistributeJob) getOriginReferredJobTargets(serviceReferredJob,
    imageReferredJob string) ([]*DistributeTarget, string, error)] *)
Definition getOriginReferredJobTargets (j : ImageDistributeJob)
    (serviceReferredJob imageReferredJob : string)
    : Result (list DistributeTarget * string) :=
  match serviceLoop (wf_Project (dist_workflow j)) serviceReferredJob
                    (concat (map stage_Jobs (wf_Stages (dist_workflow j)))) with
  | None => Err ("referred service job " +:+ serviceReferredJob +:+ " not found")
  | Some r =>
      found ← r;
      let '(servicetargets, sourceRegistryID) := found in
      Ok (map (fun svc =>
                 withSourceImage svc
                   (GetJobOutputKey
                      (imageReferredJob +:+ "." +:+ dt_ServiceName svc +:+ "."
                       +:+ dt_ServiceModule svc)
                      IMAGEKEY))
              servicetargets,
          sourceRegistryID)
  end.

(** The body of the loop of [SetPreset] over the targets of a runtime
    source. *)
Definition presetTarget (servicesMap : gmap string Service) (target : DistributeTarget)
    : DistributeTarget :=
  match servicesMap !! dt_ServiceName target with
  | None => withTargetImageName target (dt_ServiceModule target)
  | Some service =>
      match List.find (fun container => streq (c_Name container) (dt_ServiceModule target))
                      (svc_Containers service) with
      | Some container => withTargetImageName target (c_ImageName container)
      | None => withTargetImageName target (dt_ServiceModule target)
      end
  end.

(** [func (j *ImageDistributeJob) SetPreset() error] *)
Definition SetPreset (j : ImageDistributeJob) : Result ImageDistributeJob :=
  s ← IToi_distribute (job_Spec (dist_job j));
  s' ← (if streq (dj_Source s) SourceFromJob
        then
          let serviceReferredJob := getOriginJobName (dist_workflow j) (dj_JobName s) in
          match getOriginReferredJobTargets j serviceReferredJob (dj_JobName s) with
          | Ok (targets, _) => Ok (withTargets_ s targets)
          | Err err =>
              Err ("failed to get referred job info for distribute job: "
                   +:+ job_Name (dist_job j) +:+ ", error: " +:+ err)
          | Panic => Panic
          end
        else if streq (dj_Source s) SourceRuntime
        then
          match GetMaxRevisionsServicesMap cat (wf_Project (dist_workflow j)) with
          | NotFound err => Err ("get services map error: " +:+ err)
          | Found servicesMap =>
              Ok (withTargets_ s (map (presetTarget servicesMap) (dj_Targets s)))
          end
        else Ok s);
  Ok (setDistributeSpec j s').

(** [func (j *ImageDistributeJob) ClearSelectionField() error] *)
Definition ClearSelectionField (j : ImageDistributeJob) : Result ImageDistributeJob :=
  s ← IToi_distribute (job_Spec (dist_job j));
  Ok (setDistributeSpec j (withTargets_ s [])).

(** [func (j *ImageDistributeJob) MergeArgs(args *commonmodels.Job) error] *)
Definition MergeArgs (j : ImageDistributeJob) (args : Job) : Result ImageDistributeJob :=
  if streq (job_Name (dist_job j)) (job_Name args)
     && streq (job_JobType (dist_job j)) (job_JobType args)
  then
    s ← IToi_distribute (job_Spec (dist_job j));
    argsSpec ← IToi_distribute (job_Spec args);
    Ok (setDistributeSpec j (withTargets_ s (dj_Targets argsSpec)))
  else Ok j.

(** [func (j *ImageDistributeJob) UpdateWithLatestSetting() error].  The
    error of [Find] is logged only; a nil workflow is dereferenced. *)
Definition UpdateWithLatestSetting (j : ImageDistributeJob) : Result ImageDistributeJob :=
  s ← IToi_distribute (job_Spec (dist_job j));
  match fst (WorkflowV4Coll_Find (wf_Name (dist_workflow j))) with
  | None => Panic
  | Some latestWorkflow =>
      match findStoredJob (wf_Stages latestWorkflow) (job_Name (dist_job j))
                          (job_JobType (dist_job j)) with
      | None =>
          Err ("failed to find the original workflow: " +:+ wf_Name (dist_workflow j))
      | Some job =>
          latestSpec ← IToi_distribute (job_Spec job);
          let targets :=
            if streq (dj_Source s) SourceFromJob && streq (dj_Source latestSpec) SourceRuntime
            then [] else dj_Targets s in
          let source := dj_Source latestSpec in
          let fromJob := streq source SourceFromJob in
          Ok (setDistributeSpec j
                (mkZadigDistributeImageJobSpec source
                   (if fromJob then dj_JobName latestSpec else dj_JobName s)
                   (if fromJob then dj_SourceRegistryID s else dj_SourceRegistryID latestSpec)
                   (dj_TargetRegistryID latestSpec) targets (dj_TargetOptions s)
                   (dj_Timeout latestSpec) (dj_ClusterID latestSpec) (dj_StrategyID latestSpec)
                   (dj_EnableTargetImageTagRule latestSpec)
                   (dj_TargetImageTagRule latestSpec)))
      end
  end.

(** [fmt.Sprintf("{{.job.%s.%s.%s.output.%s}}", jobName, serviceName, serviceModule, IMAGETAGKEY)] *)
Definition imageTagReference (jobName serviceName serviceModule : string) : string :=
  "{{.job." +:+ jobName +:+ "." +:+ serviceName +:+ "." +:+ serviceModule +:+ ".output."
  +:+ IMAGETAGKEY +:+ "}}".

(** The targets of a job whose source is another job: the tag of a referred
    target follows the rule when it is enabled (the second assignment to
    [target.TargetTag] replaces the first) and is otherwise the one configured
    for the same service and module, the zero value when there is none. *)
Definition targetTagMap (targets : list DistributeTarget) : gmap string DistributeTarget :=
  fold_left
    (fun (m : gmap string DistributeTarget) target =>
       <[getServiceKey (dt_ServiceName target) (dt_ServiceModule target) := target]> m)
    targets ∅.

Definition tagFromJob (s : ZadigDistributeImageJobSpec) (target : DistributeTarget)
    : DistributeTarget :=
  if dj_EnableTargetImageTagRule s
  then withTag target
         (strings_ReplaceAll (dj_TargetImageTagRule s) PreJobImageTagVariable
            (imageTagReference (dj_JobName s) (dt_ServiceName target) (dt_ServiceModule target)))
         true
  else
    let configured :=
      default (newTarget "" "")
        (targetTagMap (dj_Targets s)
           !! getServiceKey (dt_ServiceName target) (dt_ServiceModule target)) in
    withTag target (dt_TargetTag configured) (dt_UpdateTag configured).

(** The targets of a job with a runtime source. *)
Definition tagRuntime (s : ZadigDistributeImageJobSpec) (sourceReg : RegistryNamespace)
    (target : DistributeTarget) : DistributeTarget :=
  let target :=
    withSourceImage target
      (if streq (dt_ImageName target) ""
       then getImage (dt_ServiceModule target) (dt_SourceTag target) sourceReg
       else getImage (dt_ImageName target) (dt_SourceTag target) sourceReg) in
  let target :=
    if dj_EnableTargetImageTagRule s
    then withTag target
           (strings_ReplaceAll (dj_TargetImageTagRule s) WorkflowInputImageTagVariable
              (dt_SourceTag target))
           (dt_UpdateTag target)
    else target in
  withTag target (dt_TargetTag target) true.

(** The last loop of [ToJobs]: the target receives the key of its image, and
    the step a target without the target image. *)
Definition keyedTarget (jobName : string) (target : DistributeTarget) : DistributeTarget :=
  withTargetImage target
    (GetJobOutputKey
       (strings_Join [jobName; dt_ServiceName target; dt_ServiceModule target] ".") "IMAGE").

Definition stepTarget (target : DistributeTarget) : DistributeTaskTarget :=
  mkDistributeTaskTarget (dt_SourceImage target) "" (dt_ServiceName target)
    (dt_ServiceModule target) (dt_TargetTag target) (dt_UpdateTag target).

(** [func (j *ImageDistributeJob) ToJobs(taskID int64) ([]*commonmodels.JobTask, error)].
    The result is the job, the one task it compiles to, and the targets of
    the spec of the task's one step. *)
Definition ToJobs (j : ImageDistributeJob) (taskID : Z)
    : Result (ImageDistributeJob * JobTask * StepImageDistributeSpec) :=
  s ← IToi_distribute (job_Spec (dist_job j));
  sourceReg ← match FindRegistryById cat (dj_SourceRegistryID s) with
              | Found reg => Ok reg
              | NotFound err =>
                  Err ("source image registry: " +:+ dj_SourceRegistryID s
                       +:+ " not found: " +:+ err)
              end;
  _ ← match FindRegistryById cat (dj_TargetRegistryID s) with
      | Found reg => Ok reg
      | NotFound err =>
          Err ("target image registry: " +:+ dj_TargetRegistryID s +:+ " not found: " +:+ err)
      end;
  s1 ← (if streq (dj_Source s) SourceFromJob
        then
          let serviceReferredJob := getOriginJobName (dist_workflow j) (dj_JobName s) in
          match getOriginReferredJobTargets j serviceReferredJob (dj_JobName s) with
          | Ok (targets, registryID) =>
              Ok (withTargets_ (withSourceRegistryID s registryID) (map (tagFromJob s) targets))
          | Err err =>
              Err ("failed to get referred job info for distribute job: "
                   +:+ job_Name (dist_job j) +:+ ", error: " +:+ err)
          | Panic => Panic
          end
        else if streq (dj_Source s) SourceRuntime
        then Ok (withTargets_ s (map (tagRuntime s sourceReg) (dj_Targets s)))
        else Ok s);
  let s2 := withTargets_ s1 (map (keyedTarget (job_Name (dist_job j))) (dj_Targets s1)) in
  let stepSpec := mkStepImageDistributeSpec (map stepTarget (dj_Targets s1)) in
  let jobTask :=
    mkJobTask (job_Name (dist_job j))
      (<[JobNameKey cfg := job_Name (dist_job j)]> ∅)
      (job_Name (dist_job j)) JobZadigDistributeImage (getTimeout (dj_Timeout s1))
      [] "" [] (job_ErrorPolicy (dist_job j))
      (mkJobProperties (dj_Timeout s1) [] (dj_ClusterID s1) (dj_StrategyID s1) "focal"
         ImageFromKoderover false false "" "")
      [mkStepTask "distribute" "" StepDistributeImage] in
  Ok (setDistributeSpec j s2, jobTask, stepSpec).

End Methods.

End ImageDistribute.

(** ** The distribute image step before it runs ([stepcontroller]) *)

Section DistributePreRun.

(** [target.SetTargetImage(s.distributeImageSpec.TargetRegistry)]: the method
    belongs to [pkg/types/step], and the target registry is a member of the
    step spec; both are outside the sources at hand. *)
Variable SetTargetImage : DistributeTaskTarget -> DistributeTaskTarget.

(** The loop of [PreRun]: [visited] are the targets already updated; the
    targets from the first one without source image on stay as they are. *)
Fixpoint PreRun_loop (visited targets : list DistributeTaskTarget)
    : list DistributeTaskTarget * Result unit :=
  match targets with
  | [] => (visited, Ok ())
  | target :: rest =>
      if streq (dtt_SourceImage target) ""
      then (visited ++ target :: rest, Err "source image is empty")
      else PreRun_loop (visited ++ [SetTargetImage target]) rest
  end.

(** [func (s *distributeImageCtl) PreRun(ctx context.Context) error] *)
Definition PreRun (s : distributeImageCtl) : distributeImageCtl * Result unit :=
  let '(targets, r) := PreRun_loop [] (DistributeTarget_ (distributeImageSpec s)) in
  (mkDistributeImageCtl (workflowCtx s) (jobName s) (mkStepImageDistributeSpec targets), r).

End DistributePreRun.

(** ** Options and latest settings of the build job ([job_build.go]) *)

Section BuildJobLatest.

Variable cat : Catalog.
Variable MergeBuildEnvs : list KeyVal -> list KeyVal -> list KeyVal.

(** [commonrepo.NewWorkflowV4Coll().Find(name)]: a pointer, nil or not, and
    an error, nil or not. *)
Variable WorkflowV4Coll_Find : string -> option WorkflowV4 * option string.

(** [func (j *BuildJob) SetOptions() error].  The error of [Find] is logged
    only, and a nil workflow is dereferenced.  The loop over the builds of the
    stored job is, statement by statement, the loop of [SetPreset]. *)
Definition SetOptions (j : BuildJob) : Result BuildJob :=
  s ← IToi_build (job_Spec (job j));
  match fst (WorkflowV4Coll_Find (wf_Name (workflow j))) with
  | None => Panic
  | Some originalWorkflow =>
      match findStoredJob (wf_Stages originalWorkflow) (job_Name (job j))
                          (job_JobType (job j)) with
      | None => Err ("failed to find the original workflow: " +:+ wf_Name (workflow j))
      | Some storedJob =>
          originalSpec ← IToi_build (job_Spec storedJob);
          servicesMap ← match GetMaxRevisionsServicesMap cat (wf_Project (workflow j)) with
                        | Found m => Ok m
                        | NotFound err => Err ("get services map error: " +:+ err)
                        end;
          r ← SetPreset_loop cat MergeBuildEnvs (wf_Project (workflow j)) servicesMap
                 emptyHeap [] (ServiceAndBuilds originalSpec);
          let '(h, newBuilds) := r in
          Ok (setBuildSpec j
                (mkZadigBuildJobSpec (DockerRegistryID s) (ServiceAndBuilds s)
                   (map (readCell h) newBuilds)))
      end
  end.

(** [fmt.Sprintf("%s++%s", service.ServiceName, service.ServiceModule)] *)
Definition userServiceKey (service : ServiceAndBuild) : string :=
  sab_ServiceName service +:+ "++" +:+ sab_ServiceModule service.

(** The map [userConfiguredService]: a later selected build with the same
    key replaces an earlier one. *)
Definition userConfiguredService (builds : list ServiceAndBuild)
    : gmap string ServiceAndBuild :=
  fold_left (fun (m : gmap string ServiceAndBuild) service =>
               <[userServiceKey service := service]> m)
            builds ∅.

(** One iteration of the loop of [UpdateWithLatestSetting] over the builds of
    the stored job; [None] is [continue].  The build configuration is read
    anew for every build; only the templates are cached. *)
Definition UpdateWithLatestSetting_body (project : string)
    (user : gmap string ServiceAndBuild) (h : Heap) (buildInfo : ServiceAndBuild)
    : Result (Heap * option ServiceAndBuild) :=
  match user !! userServiceKey buildInfo with
  | None => Ok (h, None)
  | Some userDefinedArgs =>
      match BuildColl_Find cat (sab_BuildName buildInfo) project with
      | NotFound _ => Ok (h, None)
      | Found latestBuild =>
          match fillBuildDetail cat MergeBuildEnvs h (freshBuildObj latestBuild)
                  (sab_ServiceName buildInfo) (sab_ServiceModule buildInfo) with
          | Panic => Panic
          | Err _ => Ok (h, None)
          | Ok (h2, latestBuild2) =>
              r ← match findTarget (b_Targets (bo_val latestBuild2))
                          (sab_ServiceName buildInfo) (sab_ServiceModule buildInfo) with
                  | Some _ =>
                      match curPreBuild h2 latestBuild2 with
                      | None => Panic
                      | Some pb =>
                          Ok (mergeRepos (curRepos latestBuild2) (sab_Repos buildInfo),
                              renderKeyVals (sab_KeyVals buildInfo) (pre_Envs pb))
                      end
                  | None => Ok (sab_Repos buildInfo, sab_KeyVals buildInfo)
                  end;
              let '(repos, keyVals) := r in
              Ok (h2,
                  Some (mkServiceAndBuild (sab_ServiceName buildInfo)
                          (sab_ServiceModule buildInfo) (sab_BuildName buildInfo)
                          (sab_Image buildInfo) (sab_Package buildInfo)
                          (sab_ImageName buildInfo)
                          (renderKeyVals (sab_KeyVals userDefinedArgs) keyVals)
                          (mergeRepos repos (sab_Repos userDefinedArgs))
                          (sab_ShareStorageInfo buildInfo)))
          end
      end
  end.

Fixpoint UpdateWithLatestSetting_loop (project : string)
    (user : gmap string ServiceAndBuild) (h : Heap)
    (mergedServiceAndBuilds builds : list ServiceAndBuild)
    : Result (list ServiceAndBuild) :=
  match builds with
  | [] => Ok mergedServiceAndBuilds
  | buildInfo :: rest =>
      r ← UpdateWithLatestSetting_body project user h buildInfo;
      let '(h', newBuildInfo) := r in
      UpdateWithLatestSetting_loop project user h'
        (match newBuildInfo with
         | Some b => mergedServiceAndBuilds ++ [b]
         | None => mergedServiceAndBuilds
         end)
        rest
  end.

(** [func (j *BuildJob) UpdateWithLatestSetting() error] *)
Definition UpdateWithLatestSetting (j : BuildJob) : Result BuildJob :=
  s ← IToi_build (job_Spec (job j));
  match fst (WorkflowV4Coll_Find (wf_Name (workflow j))) with
  | None => Panic
  | Some latestWorkflow =>
      match findStoredJob (wf_Stages latestWorkflow) (job_Name (job j))
                          (job_JobType (job j)) with
      | None => Err ("failed to find the original workflow: " +:+ wf_Name (workflow j))
      | Some storedJob =>
          latestSpec ← IToi_build (job_Spec storedJob);
          mergedServiceAndBuilds ←
            UpdateWithLatestSetting_loop (wf_Project (workflow j))
              (userConfiguredService (ServiceAndBuilds s)) emptyHeap []
              (ServiceAndBuilds latestSpec);
          Ok (setBuildSpec j
                (mkZadigBuildJobSpec (DockerRegistryID latestSpec) mergedServiceAndBuilds
                   (ServiceAndBuildsOptions s)))
      end
  end.

End BuildJobLatest.

(** ** Repositories of the build job ([job_build.go]) *)

Section BuildJobRepos.

Variable cat : Catalog.
Variable MergeBuildEnvs : list KeyVal -> list KeyVal -> list KeyVal.

(** One iteration of the loop of [GetRepos]; a build that is skipped leaves
    no slice.  The second component is the selected build as the iteration
    leaves it ([mergeRepos] fills the empty namespaces of its repositories in
    place), the third the slice of the cached build whose elements are
    appended to [resp]. *)
Definition GetRepos_body (project : string) (h : Heap) (build : ServiceAndBuild)
    : Result (Heap * ServiceAndBuild * option (string * ReposRef)) :=
  let name := sab_BuildName build in
  let '(h1, o) := loadBuildOrSkip cat project h name in
  match o with
  | None => Ok (h1, build, None)
  | Some buildInfo =>
      match fillBuildDetail cat MergeBuildEnvs h1 buildInfo
              (sab_ServiceName build) (sab_ServiceModule build) with
      | Panic => Panic
      | Err _ => Ok (h1, build, None)
      | Ok (h2, buildInfo2) =>
          match findTarget (b_Targets (bo_val buildInfo2))
                  (sab_ServiceName build) (sab_ServiceModule build) with
          | Some _ =>
              let buildInfo3 :=
                writeRepos buildInfo2 (mergeRepos (curRepos buildInfo2) (sab_Repos build)) in
              Ok (storeBuild h2 name (Some buildInfo3),
                  withReposValue build (map normalizeNamespace (sab_Repos build)),
                  Some (name, bo_Repos buildInfo3))
          | None => Ok (storeBuild h2 name (Some buildInfo2), build, None)
          end
      end
  end.

Fixpoint GetRepos_loop (project : string) (h : Heap) (visited : list ServiceAndBuild)
    (resp : list (string * ReposRef)) (builds : list ServiceAndBuild)
    : Result (Heap * list ServiceAndBuild * list (string * ReposRef)) :=
  match builds with
  | [] => Ok (h, visited, resp)
  | build :: rest =>
      r ← GetRepos_body project h build;
      let '(h', build', slice) := r in
      GetRepos_loop project h' (visited ++ [build'])
        (match slice with Some c => resp ++ [c] | None => resp end) rest
  end.

(** The repositories the elements of a slice of [resp] point to when the loop
    is over. *)
Definition readRepos (h : Heap) (c : string * ReposRef) : list Repository :=
  match buildMap h !! c.1 with
  | Some (Some obj) => reposAt obj c.2
  | _ => []
  end.

(** [func (j *BuildJob) GetRepos() ([]*types.Repository, error)].  The method
    assigns [j.spec] and leaves [j.job.Spec] as it is. *)
Definition GetRepos (j : BuildJob) : Result (BuildJob * list Repository) :=
  s ← IToi_build (job_Spec (job j));
  r ← GetRepos_loop (wf_Project (workflow j)) emptyHeap [] [] (ServiceAndBuilds s);
  let '(h, builds, resp) := r in
  Ok (mkBuildJob (job j) (workflow j)
        (mkZadigBuildJobSpec (DockerRegistryID s) builds (ServiceAndBuildsOptions s)),
      concat (map (readRepos h) resp)).

End BuildJobRepos.

(* ===================================================================== *)
(** * Part II.  Properties                                                *)
(* ===================================================================== *)

(** ** Helper facts on lists and strings *)

Lemma fold_left_snoc_map {A B : Type} (f : A -> B) (l : list A) (acc : list B) :
  fold_left (fun resp x => resp ++ [f x]) l acc = acc ++ map f l.
Proof.
  revert acc. induction l as [|x l IH]; intros acc; simpl.
  - by rewrite app_nil_r.
  - rewrite IH. by rewrite <- app_assoc.
Qed.

Lemma streq_true (a b : string) : streq a b = true <-> a = b.
Proof. unfold streq. apply bool_decide_eq_true. Qed.

Lemma streq_false (a b : string) : streq a b = false <-> a <> b.
Proof. unfold streq. apply bool_decide_eq_false. Qed.

Lemma streq_refl (a : string) : streq a a = true.
Proof. by apply streq_true. Qed.

(** ** renderKeyVals *)

(** The value [renderKeyVals] gives to the item made from [originKV]: that of
    the last input entry with the same key, else the origin value. *)
Definition renderedValue (input : list KeyVal) (originKV : KeyVal) : string :=
  default (Value originKV)
          (Value <$> last (filter (fun inputKV => Key inputKV = Key originKV) input)).

Lemma overlayValue_fold (k : string) (input : list KeyVal) (it : KeyVal) :
  fold_left
    (fun (it : KeyVal) (inputKV : KeyVal) =>
       if streq k (Key inputKV)
       then mkKeyVal (Key it) (Value inputKV) (Type_ it) (IsCredential it) (ChoiceOption it)
       else it)
    input it
  = mkKeyVal (Key it)
      (default (Value it) (Value <$> last (filter (fun inputKV => Key inputKV = k) input)))
      (Type_ it) (IsCredential it) (ChoiceOption it).
Proof.
  revert it. induction input as [|x input IH]; intros it; simpl.
  - by destruct it.
  - rewrite IH. destruct (streq k (Key x)) eqn:E.
    + apply streq_true in E. rewrite filter_cons_True by done. simpl.
      rewrite last_cons. by destruct (last _).
    + apply streq_false in E. rewrite filter_cons_False by congruence. done.
Qed.

Lemma overlayValue_eq (input : list KeyVal) (item : KeyVal) :
  overlayValue input item
  = mkKeyVal (Key item) (renderedValue input item) (Type_ item) (IsCredential item)
      (ChoiceOption item).
Proof. unfold overlayValue, renderedValue. apply overlayValue_fold. Qed.

Lemma renderKeyVals_map (input origin : list KeyVal) :
  renderKeyVals input origin
  = map (fun originKV =>
           mkKeyVal (Key originKV) (renderedValue input originKV) (Type_ originKV)
             (IsCredential originKV) (ChoiceOption originKV))
        origin.
Proof.
  unfold renderKeyVals.
  rewrite (fold_left_snoc_map
             (fun originKV =>
                overlayValue input
                  (mkKeyVal (Key originKV) (Value originKV) (Type_ originKV)
                     (IsCredential originKV) (ChoiceOption originKV)))).
  simpl. apply map_ext. intros o. by rewrite overlayValue_eq.
Qed.

(** C6.  [renderKeyVals(input, origin)] returns exactly one entry per entry of
    [origin], in the order of [origin]; entry [i] has the Key, Type,
    IsCredential and ChoiceOption of [origin[i]]; its Value is that of an input
    entry with the same key when there is one (the last such entry), and the
    origin Value otherwise; in particular the keys of the result are the keys
    of [origin], so a key that occurs only in [input] never appears. *)
Theorem renderKeyVals_origin_shape (input origin : list KeyVal) :
  length (renderKeyVals input origin) = length origin
  /\ map Key (renderKeyVals input origin) = map Key origin
  /\ (forall (i : nat) (originKV : KeyVal),
        origin !! i = Some originKV ->
        exists item,
          renderKeyVals input origin !! i = Some item
          /\ Key item = Key originKV
          /\ Type_ item = Type_ originKV
          /\ IsCredential item = IsCredential originKV
          /\ ChoiceOption item = ChoiceOption originKV
          /\ ((exists inputKV,
                 last (filter (fun kv => Key kv = Key originKV) input) = Some inputKV
                 /\ inputKV ∈ input
                 /\ Key inputKV = Key originKV
                 /\ Value item = Value inputKV)
              \/ ((forall inputKV, inputKV ∈ input -> Key inputKV <> Key originKV)
                  /\ Value item = Value originKV)))
  /\ (forall k : string,
        k ∈ map Key (renderKeyVals input origin) -> k ∈ map Key origin).
Proof.
  rewrite renderKeyVals_map. split; [by rewrite length_map|].
  split; [by rewrite map_map|].
  split.
  - intros i o Ho. eexists. split.
    + rewrite list_lookup_fmap, Ho. reflexivity.
    + simpl. repeat split; try done.
      unfold renderedValue.
      destruct (last (filter (fun kv => Key kv = Key o) input)) as [kv|] eqn:El.
      * left. exists kv. simpl.
        assert (Hin : kv ∈ filter (fun kv => Key kv = Key o) input).
        { apply last_Some in El as [l' ->]. set_solver. }
        apply list_elem_of_filter in Hin as [Hk Hin]. done.
      * right. split; [|done]. intros kv Hin Hk.
        apply last_None in El.
        assert (Hf : kv ∈ filter (fun kv => Key kv = Key o) input)
          by (apply list_elem_of_filter; done).
        rewrite El in Hf. by apply not_elem_of_nil in Hf.
  - rewrite map_map. simpl. done.
Qed.

(** ** ClearSelectionField *)

(** C9.  [ClearSelectionField] on a build job replaces the selection
    [ServiceAndBuilds] by the empty list, except when the selection has exactly
    one entry, in which case the spec is left as it is.  (The job's spec is a
    build spec, so decoding it succeeds.) *)
Theorem ClearSelectionField_keeps_single_selection
    (jobName jobType : string) (policy : option string) (wf : WorkflowV4)
    (s0 s : ZadigBuildJobSpec) :
  exists j',
    ClearSelectionField (mkBuildJob (mkJob jobName jobType (SpecBuild s) policy) wf s0) = Ok j'
    /\ job_Name (job j') = jobName /\ job_JobType (job j') = jobType
    /\ job_ErrorPolicy (job j') = policy /\ workflow j' = wf
    /\ job_Spec (job j') = SpecBuild (spec j')
    /\ DockerRegistryID (spec j') = DockerRegistryID s
    /\ ServiceAndBuildsOptions (spec j') = ServiceAndBuildsOptions s
    /\ ServiceAndBuilds (spec j')
       = if decide (length (ServiceAndBuilds s) = 1) then ServiceAndBuilds s else [].
Proof.
  eexists. split; [reflexivity|]. simpl.
  destruct (Nat.eqb_spec (length (ServiceAndBuilds s)) 1) as [Hlen|Hlen]; simpl;
    repeat split; try done; try (case_decide; done).
Qed.

(** ** mergeRepos and renderRepos *)

(** A Go map filled by one assignment per element: the last element with a
    given key is the one found. *)
Lemma fold_insert_lookup {A B : Type} (key : A -> string) (val : A -> B)
    (l : list A) (m0 : gmap string B) (k : string) :
  fold_left (fun m x => <[key x := val x]> m) l m0 !! k
  = match last (filter (fun x => key x = k) l) with
    | Some x => Some (val x)
    | None => m0 !! k
    end.
Proof.
  revert m0. induction l as [|x l IH]; intros m0; simpl; [done|].
  rewrite IH. destruct (decide (key x = k)) as [E|E].
  - rewrite filter_cons_True by done. rewrite last_cons.
    destruct (last (filter _ l)); [done|]. subst k. by rewrite lookup_insert_eq.
  - rewrite filter_cons_False by done.
    destruct (last (filter _ l)); [done|]. by rewrite lookup_insert_ne.
Qed.

(** The custom repository [mergeRepos] finds for a key: the last one whose
    key, after its namespace has been normalised, is that key. *)
Definition customFor (customRepos : list Repository) (key : string) : option Repository :=
  last (filter (fun c => customRepoKey (normalizeNamespace c) = key) customRepos).

Lemma customRepoMap_lookup (customRepos : list Repository) (key : string) :
  customRepoMap customRepos !! key = normalizeNamespace <$> customFor customRepos key.
Proof.
  unfold customRepoMap, customFor.
  rewrite (fold_insert_lookup (fun c => customRepoKey (normalizeNamespace c)) normalizeNamespace).
  destruct (last _); simpl; [done|]. apply lookup_empty.
Qed.

Lemma normalizeNamespace_fields (repo : Repository) :
  let n := normalizeNamespace repo in
  Source n = Source repo /\ RepoOwner n = RepoOwner repo /\ RepoName n = RepoName repo
  /\ RemoteName n = RemoteName repo /\ Branch n = Branch repo /\ Tag n = Tag repo
  /\ PR n = PR repo /\ PRs n = PRs repo /\ FilterRegexp n = FilterRegexp repo
  /\ CheckoutPath n = CheckoutPath repo /\ OtherFields n = OtherFields repo
  /\ RepoNamespace n = GetRepoNamespace repo.
Proof.
  unfold normalizeNamespace, GetRepoNamespace.
  destruct (streq (RepoNamespace repo) "") eqn:E; simpl; rewrite ?E; done.
Qed.

(** Everything of a repository but the user's selection. *)
Definition sameMetadata (r o : Repository) : Prop :=
  Source r = Source o /\ RepoOwner r = RepoOwner o /\ RepoNamespace r = RepoNamespace o
  /\ RepoName r = RepoName o /\ RemoteName r = RemoteName o
  /\ CheckoutPath r = CheckoutPath o /\ OtherFields r = OtherFields o.

(** The user's selection: branch, tag, pull requests and the filter. *)
Definition sameSelection (r c : Repository) : Prop :=
  Branch r = Branch c /\ Tag r = Tag c /\ PR r = PR c /\ PRs r = PRs c
  /\ FilterRegexp r = FilterRegexp c.

Lemma mergeRepos_overlay (templateRepos customRepos : list Repository) :
  length (mergeRepos templateRepos customRepos) = length templateRepos
  /\ forall (i : nat) (t : Repository),
       templateRepos !! i = Some t ->
       exists r,
         mergeRepos templateRepos customRepos !! i = Some r
         /\ sameMetadata r (normalizeNamespace t)
         /\ match customFor customRepos (templateRepoKey (normalizeNamespace t)) with
            | Some c => sameSelection r c
            | None => sameSelection r t
            end.
Proof.
  unfold mergeRepos. split; [by rewrite length_map|].
  intros i t Ht. eexists. split; [by rewrite list_lookup_fmap, Ht|].
  unfold mergeRepo. rewrite customRepoMap_lookup.
  destruct (customFor customRepos _) as [c|]; simpl.
  - split; [done|]. unfold sameSelection; simpl.
    pose proof (normalizeNamespace_fields c) as Hc. simpl in Hc. intuition congruence.
  - split; [done|]. unfold sameSelection.
    pose proof (normalizeNamespace_fields t) as Hc. simpl in Hc. intuition congruence.
Qed.

Lemma omap_lookup_total {A B : Type} (f : A -> option B) (l : list A) (i : nat) :
  (forall x, x ∈ l -> is_Some (f x)) ->
  omap f l !! i = l !! i ≫= f.
Proof.
  revert i. induction l as [|x l IH]; intros i Hall; [by destruct i|].
  destruct (Hall x) as [y Hy]; [set_solver|].
  simpl. rewrite Hy. destruct i as [|i]; simpl; [done|].
  apply IH. intros z Hz. apply Hall. set_solver.
Qed.

Lemma length_omap_total {A B : Type} (f : A -> option B) (l : list A) :
  (forall x, x ∈ l -> is_Some (f x)) ->
  length (omap f l) = length l.
Proof.
  induction l as [|x l IH]; intros Hall; [done|].
  destruct (Hall x) as [y Hy]; [set_solver|].
  simpl. rewrite Hy. simpl. f_equal. apply IH. intros z Hz. apply Hall. set_solver.
Qed.

Section RenderReposFacts.

Variable os_Expand : string -> (string -> string) -> string.
Variable kvs : list KeyVal.

(** What one pass of the inner loop for [originRepo] does to an input
    repository. *)
Definition bump (originRepo inputRepo : Repository) : Repository :=
  if renderRepos_match originRepo inputRepo
  then renderRepos_touch os_Expand kvs inputRepo
  else inputRepo.

(** Where the entry for [originRepo] points after the inner loop over [l],
    whose first element has index [a]. *)
Fixpoint lastIdx (originRepo : Repository) (l : list Repository) (a : nat) (cur : RepoPtr)
    : RepoPtr :=
  match l with
  | [] => cur
  | u :: l' =>
      lastIdx originRepo l' (S a) (if renderRepos_match originRepo u then InputPtr a else cur)
  end.

Lemma match_touch (o u : Repository) :
  renderRepos_match o (renderRepos_touch os_Expand kvs u) = renderRepos_match o u.
Proof. done. Qed.

Lemma match_bump (o o' u : Repository) :
  renderRepos_match o (bump o' u) = renderRepos_match o u.
Proof. unfold bump. destruct (renderRepos_match o' u); [apply match_touch|done]. Qed.

Lemma match_iter_touch (o u : Repository) (n : nat) :
  renderRepos_match o (Nat.iter n (renderRepos_touch os_Expand kvs) u) = renderRepos_match o u.
Proof. induction n as [|n IH]; simpl; [done|]. by rewrite match_touch. Qed.

Lemma inner_fold (o : Repository) (suf pre : list Repository) (cur : RepoPtr) :
  fold_left (renderRepos_inner os_Expand kvs o) (seq (length pre) (length suf))
            (pre ++ suf, cur)
  = (pre ++ map (bump o) suf, lastIdx o suf (length pre) cur).
Proof.
  revert pre cur. induction suf as [|u suf IH]; intros pre cur; simpl; [done|].
  rewrite list_lookup_middle by done. unfold bump at 1.
  destruct (renderRepos_match o u) eqn:E.
  - rewrite insert_app_r_alt by lia. rewrite Nat.sub_diag. simpl.
    specialize (IH (pre ++ [renderRepos_touch os_Expand kvs u]) (InputPtr (length pre))).
    rewrite length_app in IH. simpl in IH. rewrite Nat.add_1_r in IH.
    rewrite <- !app_assoc in IH. simpl in IH. exact IH.
  - specialize (IH (pre ++ [u]) cur).
    rewrite length_app in IH. simpl in IH. rewrite Nat.add_1_r in IH.
    rewrite <- !app_assoc in IH. simpl in IH. exact IH.
Qed.

Lemma lastIdx_bump (o o' : Repository) (l : list Repository) (a : nat) (cur : RepoPtr) :
  lastIdx o (map (bump o') l) a cur = lastIdx o l a cur.
Proof.
  revert a cur. induction l as [|u l IH]; intros a cur; simpl; [done|].
  by rewrite match_bump, IH.
Qed.

Lemma lastIdx_none (o : Repository) (l : list Repository) (a : nat) (cur : RepoPtr) :
  (forall u, u ∈ l -> renderRepos_match o u = false) ->
  lastIdx o l a cur = cur.
Proof.
  revert a cur. induction l as [|u l IH]; intros a cur Hall; simpl; [done|].
  rewrite (Hall u) by set_solver. apply IH. intros; apply Hall; set_solver.
Qed.

Lemma lastIdx_last (o : Repository) (l : list Repository) (a : nat) (cur : RepoPtr)
    (k : nat) (u : Repository) :
  l !! k = Some u ->
  renderRepos_match o u = true ->
  (forall k' u', k < k' -> l !! k' = Some u' -> renderRepos_match o u' = false) ->
  lastIdx o l a cur = InputPtr (a + k).
Proof.
  revert a cur k. induction l as [|v l IH]; intros a cur k Hk Hm Hlast; [done|].
  destruct k as [|k]; simpl in *.
  - inversion Hk; subst v. rewrite Hm, Nat.add_0_r.
    apply lastIdx_none. intros u' Hu'.
    apply list_elem_of_lookup in Hu' as [k' Hk'].
    apply (Hlast (S k')); [lia|done].
  - rewrite (IH (S a) _ k Hk Hm).
    + f_equal. lia.
    + intros k' u' Hlt Hk'. apply (Hlast (S k')); [lia|done].
Qed.

Lemma lastIdx_valid (o : Repository) (l : list Repository) (a : nat) (cur : RepoPtr) :
  lastIdx o l a cur = cur
  \/ exists k, lastIdx o l a cur = InputPtr (a + k) /\ k < length l.
Proof.
  revert a cur. induction l as [|u l IH]; intros a cur; simpl; [by left|].
  destruct (IH (S a) (if renderRepos_match o u then InputPtr a else cur))
    as [->|(k & -> & Hk)].
  - destruct (renderRepos_match o u); [|by left].
    right. exists 0. split; [f_equal; lia|lia].
  - right. exists (S k). split; [f_equal; lia|lia].
Qed.

(** The input repositories once the origin repositories [os] have been
    visited, and the pointers collected meanwhile. *)
Definition bumpAll (os : list (nat * Repository)) (input : list Repository)
    : list Repository :=
  fold_left (fun inp io => map (bump io.2) inp) os input.

Lemma outer_fold (os : list (nat * Repository)) (input : list Repository)
    (resp : list RepoPtr) :
  fold_left (renderRepos_outer os_Expand kvs) os (input, resp)
  = (bumpAll os input,
     resp ++ map (fun io => lastIdx io.2 input 0 (OriginPtr io.1)) os).
Proof.
  revert input resp. induction os as [|[i o] os IH]; intros input resp; simpl.
  - by rewrite app_nil_r.
  - pose proof (inner_fold o input [] (OriginPtr i)) as Hin. simpl in Hin.
    rewrite Hin. unfold bumpAll in *. simpl. rewrite IH. f_equal.
    rewrite <- app_assoc. simpl. do 2 f_equal.
    apply map_ext. intros [i' o']. simpl. apply lastIdx_bump.
Qed.

Lemma length_bumpAll (os : list (nat * Repository)) (input : list Repository) :
  length (bumpAll os input) = length input.
Proof.
  revert input. induction os as [|io os IH]; intros input; [done|].
  unfold bumpAll in *. simpl. by rewrite IH, length_map.
Qed.

Lemma bumpAll_lookup (os : list (nat * Repository)) (input : list Repository)
    (k : nat) (u : Repository) :
  input !! k = Some u ->
  bumpAll os input !! k
  = Some (Nat.iter (length (filter (fun io => renderRepos_match io.2 u = true) os))
                   (renderRepos_touch os_Expand kvs) u).
Proof.
  revert input u. induction os as [|[i o] os IH]; intros input u Hk; [done|].
  unfold bumpAll in *. simpl.
  erewrite IH by (rewrite list_lookup_fmap, Hk; reflexivity).
  f_equal.
  assert (Hf : filter (fun io : nat * Repository => renderRepos_match io.2 (bump o u) = true) os
               = filter (fun io : nat * Repository => renderRepos_match io.2 u = true) os).
  { apply list_filter_iff. intros [i' o']. simpl. by rewrite match_bump. }
  rewrite Hf. clear Hf. unfold bump. destruct (renderRepos_match o u) eqn:E.
  - rewrite filter_cons_True by done. simpl. by rewrite <- Nat.iter_succ_r.
  - rewrite filter_cons_False by (simpl; congruence). done.
Qed.

(** How often the loops render an input repository: once per origin
    repository with the same owner and name. *)
Definition timesMatched (origin : list Repository) (u : Repository) : nat :=
  length (filter (fun o => renderRepos_match o u = true) origin).

Lemma filter_imap_length (origin : list Repository) (u : Repository) (f : nat -> nat) :
  length (filter (fun io : nat * Repository => renderRepos_match io.2 u = true)
            (imap (fun i o => (f i, o)) origin))
  = timesMatched origin u.
Proof.
  unfold timesMatched. revert f. induction origin as [|o origin IH]; intros f; [done|].
  cbn [imap]. rewrite !filter_cons. cbn [snd].
  specialize (IH (f ∘ S)).
  destruct (decide (renderRepos_match o u = true)); cbn [length]; by rewrite <- IH.
Qed.

Lemma deref_total (input origin : list Repository) (p : RepoPtr) :
  p ∈ map (fun io : nat * Repository => lastIdx io.2 input 0 (OriginPtr io.1))
          (imap (fun i o => (i, o)) origin) ->
  is_Some (derefRepo (bumpAll (imap (fun i o => (i, o)) origin) input) origin p).
Proof.
  intros Hp. apply list_elem_of_fmap in Hp as ([i' o'] & -> & Hio).
  apply list_elem_of_lookup in Hio as [n Hn].
  rewrite list_lookup_imap in Hn.
  destruct (origin !! n) as [o''|] eqn:En; [|done]. simpl in Hn.
  inversion Hn; subst i' o'. simpl.
  destruct (lastIdx_valid o'' input 0 (OriginPtr n)) as [->|(k & -> & Hk)]; simpl.
  - by rewrite En.
  - apply lookup_lt_is_Some. by rewrite length_bumpAll.
Qed.

(** [renderRepos], entry by entry. *)
Lemma renderRepos_lookup (input origin : list Repository) (i : nat) (o : Repository) :
  origin !! i = Some o ->
  renderRepos os_Expand input origin kvs !! i
  = match lastIdx o input 0 (OriginPtr i) with
    | OriginPtr _ => Some o
    | InputPtr k =>
        (fun u => Nat.iter (timesMatched origin u) (renderRepos_touch os_Expand kvs) u)
          <$> input !! k
    end.
Proof.
  intros Ho. unfold renderRepos, renderRepos_run. rewrite outer_fold. simpl.
  rewrite omap_lookup_total by apply deref_total.
  rewrite list_lookup_fmap, list_lookup_imap, Ho. simpl.
  destruct (lastIdx_valid o input 0 (OriginPtr i)) as [->|(k & -> & Hk)]; simpl; [done|].
  destruct (input !! k) as [u|] eqn:Ek.
  - rewrite (bumpAll_lookup _ input k u Ek). simpl. do 2 f_equal.
    apply (filter_imap_length origin u id).
  - simpl. apply lookup_ge_None. rewrite length_bumpAll. by apply lookup_ge_None.
Qed.

Lemma length_renderRepos (input origin : list Repository) :
  length (renderRepos os_Expand input origin kvs) = length origin.
Proof.
  unfold renderRepos, renderRepos_run. rewrite outer_fold. simpl.
  rewrite length_omap_total by apply deref_total.
  by rewrite length_map, length_imap.
Qed.

End RenderReposFacts.

Lemma iter_touch_fields (os_Expand : string -> (string -> string) -> string)
    (kvs : list KeyVal) (u : Repository) (n : nat) :
  let r := Nat.iter (S n) (renderRepos_touch os_Expand kvs) u in
  Source r = Source u /\ RepoOwner r = RepoOwner u /\ RepoNamespace r = RepoNamespace u
  /\ RepoName r = RepoName u /\ Branch r = Branch u /\ Tag r = Tag u /\ PR r = PR u
  /\ PRs r = PRs u /\ FilterRegexp r = FilterRegexp u /\ OtherFields r = OtherFields u
  /\ RemoteName r = (if streq (RemoteName u) "" then "origin" else RemoteName u)
  /\ CheckoutPath r
     = Nat.iter (S n) (fun path => renderEnv os_Expand path kvs) (CheckoutPath u).
Proof.
  induction n as [|n IH]; [done|].
  cbn zeta in *. rewrite (Nat.iter_succ (S n)).
  destruct IH as (H1&H2&H3&H4&H5&H6&H7&H8&H9&H10&Hremote&Hpath).
  unfold renderRepos_touch at 1. simpl.
  rewrite <- H1, <- H2, <- H3, <- H4, <- H5, <- H6, <- H7, <- H8, <- H9, <- H10.
  repeat split; try done.
  - simpl in Hremote. rewrite Hremote.
    destruct (streq (RemoteName u) "") eqn:E; [done|by rewrite E].
  - simpl in Hpath. by rewrite Hpath.
Qed.

Lemma timesMatched_pos (origin : list Repository) (i : nat) (o u : Repository) :
  origin !! i = Some o -> renderRepos_match o u = true ->
  exists n, timesMatched origin u = S n.
Proof.
  intros Ho Hm. unfold timesMatched.
  assert (Hin : o ∈ filter (fun o => renderRepos_match o u = true) origin).
  { apply list_elem_of_filter. split; [done|]. by apply list_elem_of_lookup_2 in Ho. }
  destruct (filter _ origin) as [|x l]; [by apply not_elem_of_nil in Hin|].
  by exists (length l).
Qed.

(** [os.Expand] on a text without [$]: the text itself. *)
Definition expand_plain (text : string) (mapping : string -> string) : string := text.

Definition canonicalRepo : Repository :=
  mkRepository "github" "koderover" "koderover" "zadig" "origin" "main" "" 0%Z [] "" ""
    [("address", "https://github.com/koderover/zadig")].

Definition userRepo : Repository :=
  mkRepository "github" "koderover" "koderover" "zadig" "upstream" "dev" "" 0%Z [] "" "src"
    [("address", "https://example.org/fork/zadig")].

(** C5 as stated, for [renderRepos]: every entry of the result carries the
    metadata of the canonical repository at the same position. *)
Definition renderRepos_keeps_canonical_metadata
    (os_Expand : string -> (string -> string) -> string)
    (input origin : list Repository) (kvs : list KeyVal) : Prop :=
  forall (i : nat) (o r : Repository),
    origin !! i = Some o ->
    renderRepos os_Expand input origin kvs !! i = Some r ->
    sameMetadata r o.

(** C5, counterexample.  With one canonical repository and one user
    repository of the same source, namespace and name, the entry [renderRepos]
    returns is the user's repository: its remote name, checkout path and
    address are the user's, not the canonical ones. *)
Lemma renderRepos_returns_the_input_repository :
  renderRepos expand_plain [userRepo] [canonicalRepo] []
  = [mkRepository "github" "koderover" "koderover" "zadig" "upstream" "dev" "" 0%Z [] ""
       "src" [("address", "https://example.org/fork/zadig")]]
  /\ ~ renderRepos_keeps_canonical_metadata expand_plain [userRepo] [canonicalRepo] [].
Proof.
  split; [reflexivity|].
  intros Hclaim.
  specialize (Hclaim 0 canonicalRepo _ eq_refl eq_refl).
  destruct Hclaim as (_ & _ & _ & _ & Hremote & _). discriminate Hremote.
Qed.

(** C5, amended.  The overlay the claim describes is what [mergeRepos] does:
    it keys the repositories by source/namespace/name (an empty namespace
    being replaced by the owner), keeps every template repository with its
    metadata, and copies branch, tag, PR, PRs and filter from the last custom
    repository with the same key when there is one.  [renderRepos] instead
    pairs repositories by owner and name: an origin repository without such an
    input repository is returned as it is, and one with such input
    repositories is replaced by the last of them, whose checkout path has been
    rendered (once per origin repository it pairs with) and whose empty remote
    name has become "origin". *)
Theorem mergeRepos_overlays_renderRepos_substitutes
    (os_Expand : string -> (string -> string) -> string) (kvs : list KeyVal)
    (canonical user : list Repository) :
  (length (mergeRepos canonical user) = length canonical
   /\ forall (i : nat) (t : Repository),
        canonical !! i = Some t ->
        exists r,
          mergeRepos canonical user !! i = Some r
          /\ sameMetadata r (normalizeNamespace t)
          /\ match customFor user (templateRepoKey (normalizeNamespace t)) with
             | Some c => sameSelection r c
             | None => sameSelection r t
             end)
  /\ (length (renderRepos os_Expand user canonical kvs) = length canonical
      /\ forall (i : nat) (o : Repository),
           canonical !! i = Some o ->
           ((forall u, u ∈ user -> renderRepos_match o u = false) ->
            renderRepos os_Expand user canonical kvs !! i = Some o)
           /\ (forall (k : nat) (u : Repository),
                 user !! k = Some u ->
                 renderRepos_match o u = true ->
                 (forall k' u', k < k' -> user !! k' = Some u' ->
                                renderRepos_match o u' = false) ->
                 exists (r : Repository) (n : nat),
                   renderRepos os_Expand user canonical kvs !! i = Some r
                   /\ Source r = Source u /\ RepoOwner r = RepoOwner u
                   /\ RepoNamespace r = RepoNamespace u /\ RepoName r = RepoName u
                   /\ Branch r = Branch u /\ Tag r = Tag u /\ PR r = PR u
                   /\ PRs r = PRs u /\ FilterRegexp r = FilterRegexp u
                   /\ OtherFields r = OtherFields u
                   /\ RemoteName r
                      = (if streq (RemoteName u) "" then "origin" else RemoteName u)
                   /\ CheckoutPath r
                      = Nat.iter (S n) (fun path => renderEnv os_Expand path kvs)
                                 (CheckoutPath u))).
Proof.
  split; [apply mergeRepos_overlay|].
  split; [apply length_renderRepos|].
  intros i o Ho. split.
  - intros Hnone. rewrite (renderRepos_lookup _ _ _ _ _ _ Ho).
    by rewrite lastIdx_none.
  - intros k u Hk Hm Hlast.
    rewrite (renderRepos_lookup _ _ _ _ _ _ Ho).
    rewrite (lastIdx_last o user 0 _ k u Hk Hm Hlast). simpl. rewrite Hk. simpl.
    destruct (timesMatched_pos canonical i o u Ho Hm) as [n ->].
    eexists _, n. split; [reflexivity|].
    apply (iter_touch_fields os_Expand kvs u n).
Qed.

(** ** The SQL job *)

Section SQLJobFacts.

Variable driver : SQLDriver.
Variable DBInstanceColl_Find : string -> Lookup DBInstance.
Variable strings_TrimSpace : string -> string.

(** The replies the database gives when the statements are executed one after
    the other, starting in state [db]. *)
Fixpoint replies (db : DB driver) (stmts : list string) : list ExecReply :=
  match stmts with
  | [] => []
  | stmt :: rest =>
      let '(db', reply) := db_Exec driver db stmt in
      reply :: replies db' rest
  end.

(** A statement that succeeded in [elapsed] milliseconds and affected [rows]
    rows. *)
Definition okReply (ok : Z * Z) : ExecReply := ExecDone ok.1 (Found ok.2).

Definition succeeded (r : SQLExecResult) (ok : Z * Z) : SQLExecResult :=
  mkSQLExecResult (res_SQL r) ok.1 ok.2 SQLExecStatusSuccess.

Definition execErrorText (stmt err : string) : string :=
  "exec SQL " +:+ dquote +:+ stmt +:+ dquote +:+ " error: " +:+ err.

(** The non-empty pieces of the SQL text. *)
Definition segments (sqlText : string) : list string :=
  filter (fun piece => piece <> "") (SplitAfter sqlText ";"%char).

Lemma appendNotExec_eq (results : list SQLExecResult) (sqls : list string) :
  appendNotExec strings_TrimSpace results sqls
  = results ++ map (newExecResult strings_TrimSpace) (filter (fun piece => piece <> "") sqls).
Proof.
  unfold appendNotExec. revert results.
  induction sqls as [|sql sqls IH]; intros results; simpl.
  - by rewrite app_nil_r.
  - rewrite IH. destruct (streq sql "") eqn:E.
    + apply streq_true in E. by rewrite filter_cons_False by (intros Hne; done).
    + apply streq_false in E. rewrite filter_cons_True by done.
      simpl. by rewrite <- app_assoc.
Qed.

Lemma zip_succeeded_sql (l : list SQLExecResult) (oks : list (Z * Z)) :
  length l = length oks ->
  map res_SQL (zip_with succeeded l oks) = map res_SQL l.
Proof.
  revert oks. induction l as [|x l IH]; intros [|ok oks] Hlen; simpl in *; try done.
  f_equal. apply IH. lia.
Qed.

(** The execution loop when the first [length oks] statements succeed and the
    next one fails. *)
Lemma execResults_fails_at (results : list SQLExecResult) :
  forall (db : DB driver) (visited : list SQLExecResult) (trace : list Event)
         (oks : list (Z * Z)) (r : SQLExecResult) (err : string),
    results !! length oks = Some r ->
    take (length oks) (replies db (map res_SQL results)) = map okReply oks ->
    replies db (map res_SQL results) !! length oks = Some (ExecError err) ->
    execResults driver db visited results trace
    = (visited ++ zip_with succeeded (take (length oks) results) oks
         ++ setStatus r SQLExecStatusFailed :: drop (S (length oks)) results,
       trace ++ map EvExec (map res_SQL (take (S (length oks)) results)),
       Some (execErrorText (res_SQL r) err)).
Proof.
  induction results as [|x results IH]; intros db visited trace oks r err Hr Hok Herr;
    [done|].
  simpl in *. destruct (db_Exec driver db (res_SQL x)) as [db' reply] eqn:Ex.
  destruct oks as [|[elapsed rows] oks]; simpl in *.
  - inversion Hr; subst x. inversion Herr; subst reply.
    by rewrite drop_0.
  - inversion Hok as [[Hreply Hrest]]. subst reply. unfold okReply at 1. simpl.
    rewrite (IH db' _ _ oks r err Hr Hrest Herr).
    rewrite <- !app_assoc. simpl. done.
Qed.

(** The execution loop when every statement succeeds. *)
Lemma execResults_all_ok (results : list SQLExecResult) :
  forall (db : DB driver) (visited : list SQLExecResult) (trace : list Event)
         (oks : list (Z * Z)),
    replies db (map res_SQL results) = map okReply oks ->
    execResults driver db visited results trace
    = (visited ++ zip_with succeeded results oks,
       trace ++ map EvExec (map res_SQL results), None).
Proof.
  induction results as [|x results IH]; intros db visited trace oks Hok; simpl in *.
  - by rewrite !app_nil_r.
  - destruct (db_Exec driver db (res_SQL x)) as [db' reply] eqn:Ex.
    destruct oks as [|[elapsed rows] oks]; [done|]. simpl in Hok.
    inversion Hok as [[Hreply Hrest]]. subst reply. simpl.
    rewrite (IH db' _ _ oks Hrest). by rewrite <- !app_assoc.
Qed.

(** [ExecMySQLStatement] when statement [length oks] of the result list fails
    after the statements before it have succeeded; the result list may hold
    entries recorded before the call, which the loop executes as well. *)
Lemma ExecMySQLStatement_fails_at (info : DBInstance) (sp : JobTaskSQLSpec)
    (trace : list Event) (db : DB driver) (oks : list (Z * Z)) (r : SQLExecResult)
    (err : string) :
  let results :=
    sql_Results sp ++ map (newExecResult strings_TrimSpace) (segments (sql_SQL sp)) in
  sql_Open driver (dataSourceName info) = Found db ->
  results !! length oks = Some r ->
  take (length oks) (replies db (map res_SQL results)) = map okReply oks ->
  replies db (map res_SQL results) !! length oks = Some (ExecError err) ->
  ExecMySQLStatement driver strings_TrimSpace info sp trace
  = (mkJobTaskSQLSpec (sql_ID sp) (sql_SQL sp)
       (zip_with succeeded (take (length oks) results) oks
          ++ setStatus r SQLExecStatusFailed :: drop (S (length oks)) results),
     trace ++ map EvExec (map res_SQL (take (S (length oks)) results)),
     Some (execErrorText (res_SQL r) err)).
Proof.
  intros results Hopen Hr Hok Herr. unfold ExecMySQLStatement. rewrite Hopen.
  rewrite appendNotExec_eq. fold (segments (sql_SQL sp)). fold results.
  by rewrite (execResults_fails_at results db [] trace oks r err Hr Hok Herr).
Qed.


Lemma segments_two_updates :
  segments "UPDATE t SET x=1; UPDATE t SET y=2;"
  = ["UPDATE t SET x=1;"; " UPDATE t SET y=2;"].
Proof. vm_compute. reflexivity. Qed.

(** C2.  A SQL job with the text "UPDATE t SET x=1; UPDATE t SET y=2;" that has
    not run yet, on a MySQL or MariaDB instance whose connection opens: the
    controller publishes the running status and sends the two statements in
    order; when the first succeeds and the second fails, the result list has
    exactly two entries, the first marked success with its elapsed time and
    rows affected, the second marked failed, and the job ends with status
    Failed and the error of the second statement. *)
Theorem Run_two_statements_second_fails
    (c : SQLJobCtl) (info : DBInstance) (db db1 db2 : DB driver)
    (elapsed rows : Z) (err : string) :
  let first := strings_TrimSpace "UPDATE t SET x=1;" in
  let second := strings_TrimSpace " UPDATE t SET y=2;" in
  sql_SQL (ctl_jobTaskSpec c) = "UPDATE t SET x=1; UPDATE t SET y=2;" ->
  sql_Results (ctl_jobTaskSpec c) = [] ->
  DBInstanceColl_Find (sql_ID (ctl_jobTaskSpec c)) = Found info ->
  db_Type info = DBInstanceTypeMySQL \/ db_Type info = DBInstanceTypeMariaDB ->
  sql_Open driver (dataSourceName info) = Found db ->
  db_Exec driver db first = (db1, ExecDone elapsed (Found rows)) ->
  db_Exec driver db1 second = (db2, ExecError err) ->
  Run driver DBInstanceColl_Find strings_TrimSpace c
  = (mkSQLJobCtl
       (mkJobState StatusFailed (execErrorText second err))
       (mkJobTaskSQLSpec (sql_ID (ctl_jobTaskSpec c)) (sql_SQL (ctl_jobTaskSpec c))
          [mkSQLExecResult first elapsed rows SQLExecStatusSuccess;
           mkSQLExecResult second 0 0 SQLExecStatusFailed])
       (Some info),
     [EvAck StatusRunning; EvExec first; EvExec second]).
Proof.
  intros first second Hsql Hfresh Hfind Htype Hopen Hfirst Hsecond.
  unfold Run. rewrite Hfind.
  assert (Hexec :
    ExecMySQLStatement driver strings_TrimSpace info (ctl_jobTaskSpec c) [EvAck StatusRunning]
    = (mkJobTaskSQLSpec (sql_ID (ctl_jobTaskSpec c)) (sql_SQL (ctl_jobTaskSpec c))
         [mkSQLExecResult first elapsed rows SQLExecStatusSuccess;
          mkSQLExecResult second 0 0 SQLExecStatusFailed],
       [EvAck StatusRunning; EvExec first; EvExec second],
       Some (execErrorText second err))).
  { unfold ExecMySQLStatement. rewrite Hopen, appendNotExec_eq, Hfresh.
    fold (segments (sql_SQL (ctl_jobTaskSpec c))). rewrite Hsql at 1.
    rewrite segments_two_updates. simpl.
    fold first. rewrite Hfirst. fold second. rewrite Hsecond. done. }
  destruct Htype as [-> | ->]; rewrite Hexec; done.
Qed.

End SQLJobFacts.

(** A concrete driver for the scenarios: [strings.TrimSpace] on ASCII text, a
    database that counts the statements it has received and accepts only the
    first update, and a MySQL instance. *)
Definition isAsciiSpace (a : ascii) : bool :=
  let n := nat_of_ascii a in
  Nat.eqb n 32 || (Nat.leb 9 n && Nat.leb n 13).

Fixpoint trimLeft (s : string) : string :=
  match s with
  | EmptyString => EmptyString
  | String a rest => if isAsciiSpace a then trimLeft rest else s
  end.

Fixpoint trimRight (s : string) : string :=
  match s with
  | EmptyString => EmptyString
  | String a rest =>
      match trimRight rest with
      | EmptyString => if isAsciiSpace a then EmptyString else String a EmptyString
      | rest' => String a rest'
      end
  end.

Definition asciiTrimSpace (s : string) : string := trimRight (trimLeft s).

Definition scenarioDriver : SQLDriver :=
  mkSQLDriver nat
    (fun _ => Found 0)
    (fun received stmt =>
       (S received,
        if streq stmt "UPDATE t SET x=1;"
        then ExecDone 12 (Found 3%Z)
        else ExecError "Error 1064: You have an error in your SQL syntax")).

Definition scenarioInstance : DBInstance :=
  mkDBInstance DBInstanceTypeMySQL "root" "secret" "mysql.internal" "3306".

Definition scenarioFind (id : string) : Lookup DBInstance :=
  if streq id "db-1" then Found scenarioInstance else NotFound "mongo: no documents in result".

Definition scenarioCtl : SQLJobCtl :=
  mkSQLJobCtl (mkJobState StatusCreated "")
    (mkJobTaskSQLSpec "db-1" "UPDATE t SET x=1; UPDATE t SET y=2;" []) None.

Lemma Run_two_statements_second_fails_witness :
  Run scenarioDriver scenarioFind asciiTrimSpace scenarioCtl
  = (mkSQLJobCtl
       (mkJobState StatusFailed
          (execErrorText "UPDATE t SET y=2;"
             "Error 1064: You have an error in your SQL syntax"))
       (mkJobTaskSQLSpec "db-1" "UPDATE t SET x=1; UPDATE t SET y=2;"
          [mkSQLExecResult "UPDATE t SET x=1;" 12 3 SQLExecStatusSuccess;
           mkSQLExecResult "UPDATE t SET y=2;" 0 0 SQLExecStatusFailed])
       (Some scenarioInstance),
     [EvAck StatusRunning; EvExec "UPDATE t SET x=1;"; EvExec "UPDATE t SET y=2;"]).
Proof.
  apply (Run_two_statements_second_fails scenarioDriver scenarioFind asciiTrimSpace
           scenarioCtl scenarioInstance 0 1 2 12%Z 3%Z
           "Error 1064: You have an error in your SQL syntax").
  - reflexivity.
  - reflexivity.
  - reflexivity.
  - left. reflexivity.
  - reflexivity.
  - reflexivity.
  - reflexivity.
Defined.


(** ** Output keys of the image distribute job *)

Section DistributeOutputs.

Variable SourceFromJob : string.
Variable GetJobOutputKey : string -> string -> string.

(** The key under which the image of a step target is published. *)
Definition imageKeyOf (jobName : string) (target : DistributeTaskTarget) : string :=
  GetJobOutputKey (targetKey jobName (dtt_ServiceName target) (dtt_ServiceModule target))
                  "IMAGE".

Lemma AfterRun_context (s : distributeImageCtl) :
  GlobalContext (workflowCtx (AfterRun GetJobOutputKey s))
  = fold_left (fun m target => <[imageKeyOf (jobName s) target := dtt_TargetImage target]> m)
              (DistributeTarget_ (distributeImageSpec s))
              (GlobalContext (workflowCtx s)).
Proof.
  unfold AfterRun. simpl.
  generalize (workflowCtx s) as ctx.
  induction (DistributeTarget_ (distributeImageSpec s)) as [|t ts IH]; intros ctx; [done|].
  simpl. by rewrite IH.
Qed.

Lemma AfterRun_lookup (s : distributeImageCtl) (key : string) :
  GlobalContextGet (workflowCtx (AfterRun GetJobOutputKey s)) key
  = match last (filter (fun target => imageKeyOf (jobName s) target = key)
                       (DistributeTarget_ (distributeImageSpec s))) with
    | Some target => Some (dtt_TargetImage target)
    | None => GlobalContextGet (workflowCtx s) key
    end.
Proof.
  unfold GlobalContextGet. rewrite AfterRun_context.
  apply (fold_insert_lookup (imageKeyOf (jobName s)) dtt_TargetImage).
Qed.

Lemma GetOutPuts_keys (jobName_ jobType : string) (policy : option string)
    (wf : WorkflowV4) (s0 s : ZadigDistributeImageJobSpec) :
  GetOutPuts GetJobOutputKey
    (mkImageDistributeJob (mkJob jobName_ jobType (SpecDistribute s) policy) wf s0)
  = map (fun target =>
           GetJobOutputKey (targetKey jobName_ (dt_ServiceName target) (dt_ServiceModule target))
                           "IMAGE")
        (dj_Targets s).
Proof.
  unfold GetOutPuts. simpl.
  apply (fold_left_snoc_map
           (fun target =>
              GetJobOutputKey
                (targetKey jobName_ (dt_ServiceName target) (dt_ServiceModule target))
                "IMAGE")).
Qed.

Lemma last_filter_later {A : Type} (P : A -> Prop) `{forall x, Decision (P x)}
    (l : list A) (i : nat) (x : A) :
  l !! i = Some x -> P x ->
  (forall i' x', i < i' -> l !! i' = Some x' -> ~ P x') ->
  last (filter P l) = Some x.
Proof.
  revert i. induction l as [|y l IH]; intros i Hi Hx Hlater; [done|].
  destruct i as [|i]; simpl in Hi.
  - inversion Hi; subst y. rewrite filter_cons_True by done.
    rewrite last_cons.
    assert (Hnil : filter P l = []).
    { destruct (filter P l) as [|z l'] eqn:E; [done|]. exfalso.
      assert (Hz : z ∈ filter P l) by (rewrite E; left).
      apply list_elem_of_filter in Hz as [HPz Hz].
      apply list_elem_of_lookup in Hz as [i' Hi'].
      apply (Hlater (S i') z); [lia|done|done]. }
    by rewrite Hnil.
  - assert (Hl : last (filter P l) = Some x).
    { apply (IH i Hi Hx). intros i' x' Hlt Hx'. apply (Hlater (S i')); [lia|done]. }
    rewrite filter_cons. destruct (decide (P y)); [|done].
    rewrite last_cons. by rewrite Hl.
Qed.

(** C7.  For a distribute job [jobName] with configured targets
    [dj_Targets s], and the distribute step compiled for it (same job name,
    one step target per configured target, with the same service and module):
    [GetOutPuts] returns exactly the keys [AfterRun] writes, one per target and
    in the same order; after [AfterRun] every such key holds the target image
    of a step target with that key, namely the last one written; a target that
    is not followed by another target with the same key finds exactly its own
    [TargetImage] under its key; and all other keys of the context are
    unchanged. *)
Theorem AfterRun_publishes_the_keys_GetOutPuts_returns
    (jobType : string) (policy : option string) (wf : WorkflowV4)
    (s0 s : ZadigDistributeImageJobSpec) (ctl : distributeImageCtl) :
  let j := mkImageDistributeJob (mkJob (jobName ctl) jobType (SpecDistribute s) policy) wf s0 in
  let targets := DistributeTarget_ (distributeImageSpec ctl) in
  let ctx' := workflowCtx (AfterRun GetJobOutputKey ctl) in
  map (fun t => (dtt_ServiceName t, dtt_ServiceModule t)) targets
  = map (fun t => (dt_ServiceName t, dt_ServiceModule t)) (dj_Targets s) ->
  GetOutPuts GetJobOutputKey j = map (imageKeyOf (jobName ctl)) targets
  /\ (forall key, key ∈ GetOutPuts GetJobOutputKey j ->
        exists target,
          target ∈ targets
          /\ imageKeyOf (jobName ctl) target = key
          /\ GlobalContextGet ctx' key = Some (dtt_TargetImage target))
  /\ (forall (i : nat) (target : DistributeTaskTarget),
        targets !! i = Some target ->
        (forall i' target', i < i' -> targets !! i' = Some target' ->
           imageKeyOf (jobName ctl) target' <> imageKeyOf (jobName ctl) target) ->
        GlobalContextGet ctx' (imageKeyOf (jobName ctl) target)
        = Some (dtt_TargetImage target))
  /\ (forall key, key ∉ GetOutPuts GetJobOutputKey j ->
        GlobalContextGet ctx' key = GlobalContextGet (workflowCtx ctl) key).
Proof.
  intros j targets ctx' Hsame.
  assert (Hkeys : GetOutPuts GetJobOutputKey j = map (imageKeyOf (jobName ctl)) targets).
  { unfold j. rewrite GetOutPuts_keys. unfold imageKeyOf.
    transitivity
      (map (fun p : string * string => GetJobOutputKey (targetKey (jobName ctl) p.1 p.2) "IMAGE")
           (map (fun t => (dt_ServiceName t, dt_ServiceModule t)) (dj_Targets s)));
      [by rewrite map_map|].
    rewrite <- Hsame. by rewrite map_map. }
  split; [exact Hkeys|]. rewrite Hkeys. split; [|split].
  - intros key Hkey. unfold ctx'. rewrite AfterRun_lookup. fold targets.
    apply list_elem_of_fmap in Hkey as (t & -> & Ht).
    destruct (last (filter (fun target => imageKeyOf (jobName ctl) target
                                          = imageKeyOf (jobName ctl) t) targets))
      as [t'|] eqn:El.
    + assert (Hin : t' ∈ filter (fun target => imageKeyOf (jobName ctl) target
                                               = imageKeyOf (jobName ctl) t) targets).
      { apply last_Some in El as [l' ->]. set_solver. }
      apply list_elem_of_filter in Hin as [Hk Hin]. exists t'. done.
    + apply last_None in El.
      assert (Hin : t ∈ filter (fun target => imageKeyOf (jobName ctl) target
                                              = imageKeyOf (jobName ctl) t) targets)
        by (apply list_elem_of_filter; done).
      rewrite El in Hin. by apply not_elem_of_nil in Hin.
  - intros i t Hi Hlater. unfold ctx'. rewrite AfterRun_lookup. fold targets.
    by rewrite (last_filter_later _ targets i t Hi eq_refl Hlater).
  - intros key Hkey. unfold ctx'. rewrite AfterRun_lookup. fold targets.
    destruct (last (filter (fun target => imageKeyOf (jobName ctl) target = key) targets))
      as [t'|] eqn:El; [|done].
    exfalso. apply Hkey.
    assert (Hin : t' ∈ filter (fun target => imageKeyOf (jobName ctl) target = key) targets).
    { apply last_Some in El as [l' ->]. set_solver. }
    apply list_elem_of_filter in Hin as [Hk Hin].
    apply list_elem_of_fmap. exists t'. done.
Qed.

End DistributeOutputs.

(** The shape of a job output key in the sources: the distribute job formats
    its references as [{{.job.%s.%s.%s.output.%s}}]. *)
Definition jobOutputKeyTemplate (key outputName : string) : string :=
  "{{.job." +:+ key +:+ ".output." +:+ outputName +:+ "}}".

Definition scenarioDistributeCtl : distributeImageCtl :=
  mkDistributeImageCtl (mkWorkflowTaskCtx ∅) "distribute1"
    (mkStepImageDistributeSpec
       [mkDistributeTaskTarget "registry.a/dev/modA:v1" "registry.b/prod/modA:v1"
          "svcA" "modA" "v1" true]).

Definition scenarioDistributeSpec : ZadigDistributeImageJobSpec :=
  mkZadigDistributeImageJobSpec "runtime" "" "reg-a" "reg-b"
    [mkDistributeTarget "svcA" "modA" "v1" "v1" "modA" "" "" true] [] 0%Z "" "" false "".

Lemma AfterRun_publishes_the_keys_GetOutPuts_returns_witness :
  GetOutPuts jobOutputKeyTemplate
    (mkImageDistributeJob
       (mkJob "distribute1" "zadig-distribute-image" (SpecDistribute scenarioDistributeSpec) None)
       (mkWorkflowV4 "wf" "wf" "proj" []) scenarioDistributeSpec)
  = ["{{.job.distribute1.svcA.modA.output.IMAGE}}"]
  /\ GlobalContextGet (workflowCtx (AfterRun jobOutputKeyTemplate scenarioDistributeCtl))
       "{{.job.distribute1.svcA.modA.output.IMAGE}}"
     = Some "registry.b/prod/modA:v1".
Proof.
  destruct (AfterRun_publishes_the_keys_GetOutPuts_returns jobOutputKeyTemplate
              "zadig-distribute-image" None (mkWorkflowV4 "wf" "wf" "proj" [])
              scenarioDistributeSpec scenarioDistributeSpec scenarioDistributeCtl)
    as (Hkeys & _ & Hown & _).
  - reflexivity.
  - split; [exact Hkeys|].
    apply (Hown 0 (mkDistributeTaskTarget "registry.a/dev/modA:v1" "registry.b/prod/modA:v1"
                     "svcA" "modA" "v1" true)).
    + reflexivity.
    + intros i' t' Hlt Hi'. destruct i' as [|[|i']]; [lia|discriminate Hi'|discriminate Hi'].
Defined.

(** ** LintJob of the image distribute job *)

Lemma rank_fold_absent (jobs : list Job) (a : Z) (m0 : gmap string Z) (name : string) :
  (forall job, job ∈ jobs -> job_Name job <> name) ->
  (fold_left
     (fun (st : Z * gmap string Z) (job : Job) =>
        let '(index, resp) := st in ((index + 1)%Z, <[job_Name job := index]> resp))
     jobs (a, m0)).2 !! name
  = m0 !! name.
Proof.
  revert a m0. induction jobs as [|j jobs IH]; intros a m0 Habs; [done|].
  simpl. rewrite IH by (intros; apply Habs; set_solver).
  apply lookup_insert_ne. apply Habs. set_solver.
Qed.

Lemma rank_fold_present (jobs : list Job) (a : Z) (m0 : gmap string Z) (q : nat) (job : Job) :
  NoDup (map job_Name jobs) ->
  jobs !! q = Some job ->
  (fold_left
     (fun (st : Z * gmap string Z) (job : Job) =>
        let '(index, resp) := st in ((index + 1)%Z, <[job_Name job := index]> resp))
     jobs (a, m0)).2 !! job_Name job
  = Some (a + Z.of_nat q)%Z.
Proof.
  revert a m0 q. induction jobs as [|j jobs IH]; intros a m0 q Hnd Hq; [done|].
  simpl in Hnd. apply NoDup_cons in Hnd as [Hnotin Hnd].
  destruct q as [|q]; simpl in *.
  - inversion Hq; subst j. rewrite rank_fold_absent.
    + rewrite lookup_insert_eq. f_equal. lia.
    + intros job' Hin Heq. apply Hnotin. rewrite <- Heq.
      apply list_elem_of_fmap. by exists job'.
  - rewrite (IH (a + 1)%Z _ q Hnd Hq). f_equal. lia.
Qed.

(** The jobs of the workflow in stage order. *)
Definition jobsInOrder (stages : list WorkflowStage) : list Job :=
  concat (map stage_Jobs stages).

(** Position in [jobsInOrder] of job [k] of stage [s]. *)
Definition flatIndex (stages : list WorkflowStage) (s k : nat) : nat :=
  length (jobsInOrder (take s stages)) + k.

Lemma jobsInOrder_lookup (stages : list WorkflowStage) (s k : nat) (st : WorkflowStage)
    (job : Job) :
  stages !! s = Some st -> stage_Jobs st !! k = Some job ->
  jobsInOrder stages !! flatIndex stages s k = Some job.
Proof.
  intros Hs Hk. unfold flatIndex.
  set (n := length (jobsInOrder (take s stages))).
  rewrite <- (take_drop_middle stages s st Hs). unfold jobsInOrder in *.
  rewrite List.map_app, concat_app. rewrite lookup_app_r by (fold n; lia).
  fold n. rewrite Nat.add_comm, Nat.add_sub. simpl.
  by rewrite lookup_app_l by (by eapply lookup_lt_Some).
Qed.

Lemma jobsInOrder_take_mono (stages : list WorkflowStage) (s s' : nat) (st : WorkflowStage) :
  stages !! s = Some st -> s < s' ->
  length (jobsInOrder (take s stages)) + length (stage_Jobs st)
  <= length (jobsInOrder (take s' stages)).
Proof.
  unfold jobsInOrder.
  revert s s'. induction stages as [|x stages IH]; intros s s' Hs Hlt; [done|].
  destruct s' as [|s']; [lia|]. destruct s as [|s]; simpl in *.
  - inversion Hs; subst x. rewrite length_app. lia.
  - rewrite !length_app. specialize (IH s s' Hs). lia.
Qed.

Lemma flatIndex_earlier_stage (stages : list WorkflowStage) (s s' k k' : nat)
    (st : WorkflowStage) :
  stages !! s = Some st -> k < length (stage_Jobs st) -> s < s' ->
  flatIndex stages s k < flatIndex stages s' k'.
Proof.
  intros Hs Hk Hlt. unfold flatIndex.
  pose proof (jobsInOrder_take_mono stages s s' st Hs Hlt). lia.
Qed.

Lemma getJobRankMap_present (stages : list WorkflowStage) (q : nat) (job : Job) :
  NoDup (map job_Name (jobsInOrder stages)) ->
  jobsInOrder stages !! q = Some job ->
  getJobRankMap stages !! job_Name job = Some (Z.of_nat q).
Proof.
  intros Hnd Hq. unfold getJobRankMap.
  pose proof (rank_fold_present (jobsInOrder stages) 0%Z ∅ q job Hnd Hq) as H.
  simpl in H. exact H.
Qed.

Lemma getJobRankMap_absent (stages : list WorkflowStage) (name : string) :
  (forall job, job ∈ jobsInOrder stages -> job_Name job <> name) ->
  getJobRankMap stages !! name = None.
Proof.
  intros Habs. unfold getJobRankMap.
  transitivity ((∅ : gmap string Z) !! name); [|apply lookup_empty].
  exact (rank_fold_absent (jobsInOrder stages) 0%Z ∅ name Habs).
Qed.


Section LintJobFacts.

Variable SourceFromJob : string.

Definition quoteError (referred referring : string) : string :=
  "can not quote job " +:+ referred +:+ " in job " +:+ referring.

(** [LintJob] in terms of the rank map. *)
Lemma LintJob_by_rank (j : ImageDistributeJob) (s : ZadigDistributeImageJobSpec) :
  job_Spec (dist_job j) = SpecDistribute s ->
  dj_Source s = SourceFromJob ->
  let ranks := getJobRankMap (wf_Stages (dist_workflow j)) in
  LintJob SourceFromJob j
  = match ranks !! dj_JobName s with
    | Some referredRank =>
        if decide (referredRank < default 0 (ranks !! job_Name (dist_job j)))%Z
        then Ok (mkImageDistributeJob (dist_job j) (dist_workflow j) s)
        else Err (quoteError (dj_JobName s) (job_Name (dist_job j)))
    | None => Err (quoteError (dj_JobName s) (job_Name (dist_job j)))
    end.
Proof.
  intros Hspec Hsrc ranks. unfold LintJob. rewrite Hspec. simpl.
  rewrite Hsrc, streq_refl. simpl. fold ranks.
  destruct (ranks !! dj_JobName s) as [r|]; [|done].
  destruct (Z.geb_spec r (default 0%Z (ranks !! job_Name (dist_job j))));
    case_decide; try done; lia.
Qed.

(** C4.  A distribute-image job whose source is "from-job", in a workflow
    whose job names are pairwise distinct, standing at position [k] of stage
    [sg].  [LintJob] fails with the referential error exactly when the rank of
    the referred job is missing or not below the rank of the job itself; so it
    fails when the referred job is unknown, is the job itself, stands later in
    the same stage or stands in a later stage, and it succeeds when the
    referred job stands earlier in the same stage or in an earlier stage. *)
Theorem LintJob_accepts_only_earlier_jobs
    (j : ImageDistributeJob) (s : ZadigDistributeImageJobSpec)
    (sg k : nat) (stage : WorkflowStage) :
  let stages := wf_Stages (dist_workflow j) in
  let ranks := getJobRankMap stages in
  let failure := Err (quoteError (dj_JobName s) (job_Name (dist_job j))) in
  let success := Ok (mkImageDistributeJob (dist_job j) (dist_workflow j) s) in
  job_Spec (dist_job j) = SpecDistribute s ->
  dj_Source s = SourceFromJob ->
  NoDup (map job_Name (jobsInOrder stages)) ->
  stages !! sg = Some stage ->
  stage_Jobs stage !! k = Some (dist_job j) ->
  (* by rank *)
  (ranks !! dj_JobName s = None -> LintJob SourceFromJob j = failure)
  /\ (forall referredRank,
        ranks !! dj_JobName s = Some referredRank ->
        (referredRank >= default 0 (ranks !! job_Name (dist_job j)))%Z ->
        LintJob SourceFromJob j = failure)
  (* by position *)
  /\ ((forall job, job ∈ jobsInOrder stages -> job_Name job <> dj_JobName s) ->
      LintJob SourceFromJob j = failure)
  /\ (forall (sg' k' : nat) (stage' : WorkflowStage) (referred : Job),
        stages !! sg' = Some stage' ->
        stage_Jobs stage' !! k' = Some referred ->
        job_Name referred = dj_JobName s ->
        (sg' < sg \/ (sg' = sg /\ k' < k) -> LintJob SourceFromJob j = success)
        /\ (sg < sg' \/ (sg' = sg /\ k <= k') -> LintJob SourceFromJob j = failure)).
Proof.
  intros stages ranks failure success Hspec Hsrc Hnd Hsg Hk.
  pose proof (LintJob_by_rank j s Hspec Hsrc) as Hlint. cbn zeta in Hlint.
  fold stages ranks in Hlint.
  assert (Hself : ranks !! job_Name (dist_job j) = Some (Z.of_nat (flatIndex stages sg k))).
  { apply getJobRankMap_present; [done|]. by eapply jobsInOrder_lookup. }
  split; [|split; [|split]].
  - intros Hnone. by rewrite Hlint, Hnone.
  - intros r Hr Hge. rewrite Hlint, Hr. case_decide; [lia|done].
  - intros Habs. rewrite Hlint. unfold ranks. by rewrite getJobRankMap_absent.
  - intros sg' k' stage' referred Hsg' Hk' Hname.
    assert (Href : ranks !! dj_JobName s = Some (Z.of_nat (flatIndex stages sg' k'))).
    { rewrite <- Hname. apply getJobRankMap_present; [done|]. by eapply jobsInOrder_lookup. }
    rewrite Hlint, Href, Hself. simpl.
    apply lookup_lt_Some in Hk as Hklen. apply lookup_lt_Some in Hk' as Hklen'.
    split.
    + intros [Hlt | [-> Hlt]].
      * pose proof (flatIndex_earlier_stage stages sg' sg k' k stage' Hsg' Hklen' Hlt).
        case_decide; [done|lia].
      * unfold flatIndex. case_decide; [done|lia].
    + intros [Hlt | [-> Hle]].
      * pose proof (flatIndex_earlier_stage stages sg sg' k k' stage Hsg Hklen Hlt).
        case_decide; [lia|done].
      * unfold flatIndex. case_decide; [lia|done].
Qed.

End LintJobFacts.

Definition lintBuildJob : Job :=
  mkJob "build1" "zadig-build" (SpecBuild (mkZadigBuildJobSpec "reg-a" [] [])) None.

Definition lintDistributeSpec : ZadigDistributeImageJobSpec :=
  mkZadigDistributeImageJobSpec "fromjob" "build1" "" "reg-b" [] [] 0%Z "" "" false "".

Definition lintDistributeJob : Job :=
  mkJob "distribute1" "zadig-distribute-image" (SpecDistribute lintDistributeSpec) None.

Definition lintWorkflow : WorkflowV4 :=
  mkWorkflowV4 "wf" "wf" "proj"
    [mkWorkflowStage "build" false [lintBuildJob];
     mkWorkflowStage "release" false [lintDistributeJob]].

Lemma LintJob_accepts_only_earlier_jobs_witness :
  LintJob "fromjob" (mkImageDistributeJob lintDistributeJob lintWorkflow lintDistributeSpec)
  = Ok (mkImageDistributeJob lintDistributeJob lintWorkflow lintDistributeSpec).
Proof.
  destruct (LintJob_accepts_only_earlier_jobs "fromjob"
              (mkImageDistributeJob lintDistributeJob lintWorkflow lintDistributeSpec)
              lintDistributeSpec 1 0 (mkWorkflowStage "release" false [lintDistributeJob]))
    as (_ & _ & _ & Hpos).
  - reflexivity.
  - reflexivity.
  - apply (bool_decide_unpack _). vm_compute. reflexivity.
  - reflexivity.
  - reflexivity.
  - destruct (Hpos 0 0 (mkWorkflowStage "build" false [lintBuildJob]) lintBuildJob)
      as [Hok _]; [reflexivity|reflexivity|reflexivity|].
    apply Hok. left. lia.
Defined.

(** ** Cronjob reconciliation *)

Section UpdateCronjobFacts.

Variable TestingCronjob : string.
Variable rangeKeys : gmap string bool -> list string.

(** [range] visits every key of the map once, in some order. *)
Hypothesis rangeKeys_perm : forall m : gmap string bool, rangeKeys m ≡ₚ (map_to_list m).*1.

Variables parentName parentType productName : string.

(** The record [UpdateCronjob] submits for a schedule item, and the call it
    makes with it. *)
Definition itemJob (tasks : Schedule) : Cronjob :=
  let job := cronjobOf parentName parentType tasks in
  forTesting TestingCronjob parentType productName
    (if IsZero (sch_ID tasks) then job else withID job (sch_ID tasks)).

Definition itemOp (tasks : Schedule) : CollOp :=
  if IsZero (sch_ID tasks) then OpCreate (itemJob tasks) else OpUpdate (itemJob tasks).

(** The ids of the listed records that no submitted item carries. *)
Definition unmatched (idMap : gmap string bool) (items : list Schedule) : gmap string bool :=
  fold_left (fun m tasks => if IsZero (sch_ID tasks) then m else delete (Hex (sch_ID tasks)) m)
            items idMap.

(** The ids the submitted items carry. *)
Definition submittedIDs (items : list Schedule) : list string :=
  map (fun tasks => Hex (sch_ID tasks))
      (filter (fun tasks => IsZero (sch_ID tasks) = false) items).

Lemma unmatched_lookup (items : list Schedule) (idMap : gmap string bool) (id : string) :
  unmatched idMap items !! id
  = if decide (id ∈ submittedIDs items) then None else idMap !! id.
Proof.
  unfold unmatched, submittedIDs. revert idMap.
  induction items as [|t items IH]; intros idMap; cbn [fold_left].
  - case_decide as Hin; [|done]. by apply not_elem_of_nil in Hin.
  - rewrite IH. destruct (IsZero (sch_ID t)) eqn:Ez.
    + rewrite filter_cons_False by congruence. done.
    + rewrite filter_cons_True by done. cbn [map]. unfold Hex.
      destruct (decide (sch_ID t = id)) as [<-|Hne].
      * rewrite lookup_delete_eq. repeat case_decide; try done; set_solver.
      * rewrite lookup_delete_ne by done.
        repeat case_decide; try done; set_solver.
Qed.

Lemma idMap_lookup (jobList : list Cronjob) (id : string) :
  fold_left (fun (m : gmap string bool) cron => <[Hex (cj_ID cron) := true]> m) jobList ∅ !! id
  = if decide (id ∈ map cj_ID jobList) then Some true else None.
Proof.
  rewrite (fold_insert_lookup (fun cron => Hex (cj_ID cron)) (fun _ => true)).
  destruct (last (filter _ jobList)) as [c|] eqn:El.
  - rewrite decide_True; [done|].
    assert (Hin : c ∈ filter (fun x => Hex (cj_ID x) = id) jobList).
    { apply last_Some in El as [l' ->]. set_solver. }
    apply list_elem_of_filter in Hin as [Hid Hin].
    apply list_elem_of_fmap. by exists c.
  - rewrite lookup_empty. rewrite decide_False; [done|].
    intros Hin. apply list_elem_of_fmap in Hin as (c & Hid & Hin).
    apply last_None in El.
    assert (Hf : c ∈ filter (fun x => Hex (cj_ID x) = id) jobList)
      by (apply list_elem_of_filter; done).
    rewrite El in Hf. by apply not_elem_of_nil in Hf.
Qed.

(** The loop over the submitted items on the in-memory collection, when the
    collection can hand out an id for every item to create. *)
Lemma reconcileItems_mem (items : list Schedule) :
  forall (st : MemColl) (idMap : gmap string bool) (visited : list Schedule),
    length (filter (fun tasks => IsZero (sch_ID tasks) = true) items) <= length (mc_fresh st) ->
    exists (st' : MemColl) (items' : list Schedule),
      reconcileItems TestingCronjob parentName parentType productName st idMap visited items
      = Ok (st', unmatched idMap items, visited ++ items')
      /\ mc_log st' = mc_log st ++ map itemOp items
      /\ length items' = length items
      /\ (forall i tasks, items !! i = Some tasks -> IsZero (sch_ID tasks) = false ->
                          items' !! i = Some tasks).
Proof.
  induction items as [|t items IH]; intros st idMap visited Hfresh.
  - exists st, []. simpl. rewrite !app_nil_r. done.
  - simpl. unfold itemOp at 1, itemJob at 1.
    destruct (IsZero (sch_ID t)) eqn:Ez; simpl.
    + rewrite filter_cons_True in Hfresh by done. simpl in Hfresh.
      unfold mem_Create. destruct (mc_fresh st) as [|id fresh] eqn:Ef; [simpl in Hfresh; lia|].
      set (st1 := mkMemColl _ fresh _).
      destruct (IH st1 idMap (visited ++ [withScheduleID t id])) as (st' & items' & Hrun & Hlog & Hlen & Hkeep).
      { simpl in *. lia. }
      exists st', (withScheduleID t id :: items'). rewrite Hrun.
      split; [by rewrite <- app_assoc|]. split; [rewrite Hlog; simpl; by rewrite <- app_assoc|].
      split; [simpl; lia|].
      intros [|i] tasks Hi Hnz; simpl in *; [congruence|by apply Hkeep].
    + rewrite filter_cons_False in Hfresh by congruence.
      set (st1 := mkMemColl _ (mc_fresh st) _).
      destruct (IH st1 (delete (Hex (sch_ID t)) idMap) (visited ++ [t]))
        as (st' & items' & Hrun & Hlog & Hlen & Hkeep); [done|].
      exists st', (t :: items'). rewrite Hrun.
      split; [by rewrite <- app_assoc|].
      split; [rewrite Hlog; unfold itemJob; rewrite Ez; simpl; by rewrite <- app_assoc|].
      split; [simpl; lia|].
      intros [|i] tasks Hi Hnz; simpl in *; [congruence|by apply Hkeep].
Qed.

Lemma NoDup_singleton_eq (l : list string) (b : string) :
  NoDup l -> (forall x, x ∈ l <-> x = b) -> l = [b].
Proof.
  intros Hnd Hiff. destruct l as [|x l].
  - exfalso. apply (not_elem_of_nil b). by apply Hiff.
  - assert (x = b) as -> by (apply Hiff; left).
    apply NoDup_cons in Hnd as [Hnotin _].
    destruct l as [|y l]; [done|]. exfalso.
    assert (y = b) as -> by (apply Hiff; right; left).
    apply Hnotin. left.
Qed.


End UpdateCronjobFacts.

(** The scenario of the specification: the workflow "nightly" has the stored
    cronjobs A and B; another workflow has one of its own.  The submitted
    schedule keeps A (with a new cron expression) and adds C. *)
Definition cronA : Cronjob :=
  mkCronjob "64a000000000000000000001" "nightly" "workflow" 0 "" "" "0 1 * * *" "" 3
    "" "args" "" "crontab" true.

Definition cronB : Cronjob :=
  mkCronjob "64a000000000000000000002" "nightly" "workflow" 0 "" "" "0 2 * * *" "" 3
    "" "args" "" "crontab" true.

Definition cronOther : Cronjob :=
  mkCronjob "64a000000000000000000003" "weekly" "workflow" 0 "" "" "0 3 * * 1" "" 3
    "" "args" "" "crontab" true.

Definition itemA : Schedule :=
  mkSchedule "64a000000000000000000001" 0 "" "" "30 1 * * *" 3 "" "args" "" "crontab".

Definition itemC : Schedule :=
  mkSchedule NilObjectID 0 "" "" "0 5 * * *" 3 "" "args" "" "crontab".

Definition scenarioStore : MemColl :=
  mkMemColl [cronA; cronB; cronOther] ["64a000000000000000000004"] [].

Lemma keysOf_perm (m : gmap string bool) : keysOf m ≡ₚ (map_to_list m).*1.
Proof. reflexivity. Qed.


(** The same scenario, evaluated: A is updated in place, C is created with
    the id the collection hands out, B is gone, and the record of the other
    workflow is untouched. *)
Example UpdateCronjob_scenario_store :
  UpdateCronjob "testing" keysOf "nightly" "workflow" ""
    (mkScheduleCtrl true [itemA; itemC]) scenarioStore
  = Ok (["64a000000000000000000002"],
        mkScheduleCtrl true
          [itemA;
           mkSchedule "64a000000000000000000004" 0 "" "" "0 5 * * *" 3 "" "args" "" "crontab"],
        mkMemColl
          [mkCronjob "64a000000000000000000001" "nightly" "workflow" 0 "" "" "30 1 * * *" ""
             3 "" "args" "" "crontab" true;
           cronOther;
           mkCronjob "64a000000000000000000004" "nightly" "workflow" 0 "" "" "0 5 * * *" ""
             3 "" "args" "" "crontab" true]
          []
          [OpUpdate (itemJob "testing" "nightly" "workflow" "" itemA);
           OpCreate (itemJob "testing" "nightly" "workflow" "" itemC);
           OpDelete ["64a000000000000000000002"]]).
Proof. vm_compute. reflexivity. Qed.

(** ** Keys of the tasks compiled by the build job *)

Fixpoint containsDot (s : string) : bool :=
  match s with
  | EmptyString => false
  | String c rest => bool_decide (c = "."%char) || containsDot rest
  end.

Lemma append_cancel_l (a b c : string) : a +:+ b = a +:+ c -> b = c.
Proof. induction a as [|x a IH]; simpl; intros H; [done|]. inversion H. by apply IH. Qed.

Lemma containsDot_app (a b : string) : containsDot (a +:+ String "." b) = true.
Proof.
  induction a as [|x a IH]; simpl; [done|].
  rewrite IH. apply orb_true_r.
Qed.

(** Cutting at the first dot. *)
Lemma split_first_dot (s1 s2 m1 m2 : string) :
  containsDot s1 = false -> containsDot s2 = false ->
  s1 +:+ String "." m1 = s2 +:+ String "." m2 -> s1 = s2 /\ m1 = m2.
Proof.
  revert s2. induction s1 as [|c s1 IH]; intros [|c' s2] H1 H2 Heq; simpl in *.
  - by inversion Heq.
  - inversion Heq; subst c'. done.
  - inversion Heq; subst c. done.
  - inversion Heq; subst c'. apply orb_false_elim in H1 as [_ H1].
    apply orb_false_elim in H2 as [_ H2].
    destruct (IH s2 H1 H2) as [-> ->]; done.
Qed.

(** Cutting at the last dot. *)
Lemma split_last_dot (s1 s2 m1 m2 : string) :
  containsDot m1 = false -> containsDot m2 = false ->
  s1 +:+ String "." m1 = s2 +:+ String "." m2 -> s1 = s2 /\ m1 = m2.
Proof.
  revert s2. induction s1 as [|c s1 IH]; intros [|c' s2] H1 H2 Heq; simpl in *.
  - by inversion Heq.
  - inversion Heq as [[Hc Hm]]. rewrite Hm, containsDot_app in H1. done.
  - inversion Heq as [[Hc Hm]]. rewrite <- Hm, containsDot_app in H2. done.
  - inversion Heq; subst c'. destruct (IH s2 H1 H2) as [-> ->]; done.
Qed.

Lemma strings_Join3 (a b c sep : string) :
  strings_Join [a; b; c] sep = a +:+ sep +:+ b +:+ sep +:+ c.
Proof. reflexivity. Qed.

(** Two job keys of the same job are equal only for the same service and
    module, provided a dot cannot hide in the service names, or cannot hide in
    the module names. *)
Lemma buildJobKey_inj (jobName_ : string) (b1 b2 : ServiceAndBuild) :
  (containsDot (sab_ServiceName b1) = false /\ containsDot (sab_ServiceName b2) = false)
  \/ (containsDot (sab_ServiceModule b1) = false /\ containsDot (sab_ServiceModule b2) = false) ->
  buildJobKey jobName_ b1 = buildJobKey jobName_ b2 ->
  sab_ServiceName b1 = sab_ServiceName b2 /\ sab_ServiceModule b1 = sab_ServiceModule b2.
Proof.
  intros Hdots Heq. unfold buildJobKey in Heq. rewrite !strings_Join3 in Heq.
  apply append_cancel_l in Heq. simpl in Heq. inversion Heq as [Heq'].
  destruct Hdots as [[H1 H2]|[H1 H2]].
  - by apply split_first_dot.
  - by apply split_last_dot.
Qed.

Section ToJobsFacts.

Variable cat : Catalog.
Variable cfg : Settings.
Variable MergeBuildEnvs : list KeyVal -> list KeyVal -> list KeyVal.
Variable jobNameFormat : string -> string.
Variable GetJobOutputKey : string -> string -> string.

Lemma ToJobs_body_key (j : Job) (project : string) (h h' : Heap)
    (build build' : ServiceAndBuild) (jobTask : JobTask) :
  ToJobs_body cat cfg MergeBuildEnvs jobNameFormat GetJobOutputKey j project h build
  = (build', Ok (h', jobTask)) ->
  jt_Key jobTask = buildJobKey (job_Name j) build.
Proof.
  unfold ToJobs_body.
  destruct (_ ≫= _) as [[[[[h3 b] pb] basicImage] [[cacheEnable cacheDirType] medium]]|e|];
    [|discriminate|discriminate].
  destruct (buildSteps cat cfg b (sab_ServiceName build) _ cacheEnable medium) as [steps|e|];
    simpl; intros H; inversion H; subst. done.
Qed.

(** The keys of the tasks the loop emits are the job keys of the selected
    builds it has visited; when it ends without error it has visited all of
    them. *)
Lemma ToJobs_loop_keys (j : Job) (project : string) (builds : list ServiceAndBuild) :
  forall (h : Heap) (done : list ServiceAndBuild) (resp : list JobTask)
         (done' : list ServiceAndBuild) (resp' : list JobTask) (r : Result unit),
    ToJobs_loop cat cfg MergeBuildEnvs jobNameFormat GetJobOutputKey j project h done resp builds
    = (done', resp', r) ->
    exists n,
      map jt_Key resp' = map jt_Key resp ++ map (buildJobKey (job_Name j)) (take n builds)
      /\ (r = Ok () -> n = length builds).
Proof.
  induction builds as [|build builds IH]; intros h done resp done' resp' r Hrun; simpl in Hrun.
  - inversion Hrun; subst. exists 0. simpl. by rewrite app_nil_r.
  - destruct (ToJobs_body _ _ _ _ _ j project h build) as [build' [[h' jobTask]|e|]] eqn:Eb.
    + apply ToJobs_body_key in Eb.
      destruct (IH _ _ _ _ _ _ Hrun) as (n & Hkeys & Hall).
      exists (S n). split.
      * rewrite Hkeys, List.map_app. simpl. rewrite Eb. by rewrite <- app_assoc.
      * intros Hok. by rewrite (Hall Hok).
    + inversion Hrun; subst. exists 0. simpl. by rewrite app_nil_r.
    + inversion Hrun; subst. exists 0. simpl. by rewrite app_nil_r.
Qed.

(** C1, amended.  For a build job: whenever [ToJobs] returns without error, it
    has emitted one task per selected build, in the order of the selection,
    whose Key is [jobName.serviceName.serviceModule]; if moreover the selected
    (service, module) pairs are pairwise distinct and no selected service name
    contains a dot (or no selected module name does), the keys are pairwise
    distinct.  When [ToJobs] returns an error the tasks emitted so far carry
    the keys of a prefix of the selection. *)
Theorem ToJobs_keys_distinct_without_dots
    (j j' : BuildJob) (s : ZadigBuildJobSpec) (taskID : Z) (tasks : list JobTask)
    (r : Result unit) :
  job_Spec (job j) = SpecBuild s ->
  ToJobs cat cfg MergeBuildEnvs jobNameFormat GetJobOutputKey j taskID = (j', tasks, r) ->
  (exists n, map jt_Key tasks
             = map (buildJobKey (job_Name (job j))) (take n (ServiceAndBuilds s)))
  /\ (r = Ok () ->
      map jt_Key tasks = map (buildJobKey (job_Name (job j))) (ServiceAndBuilds s)
      /\ length tasks = length (ServiceAndBuilds s)
      /\ (NoDup (map (fun b => (sab_ServiceName b, sab_ServiceModule b)) (ServiceAndBuilds s)) ->
          Forall (fun b => containsDot (sab_ServiceName b) = false) (ServiceAndBuilds s)
          \/ Forall (fun b => containsDot (sab_ServiceModule b) = false) (ServiceAndBuilds s) ->
          NoDup (map jt_Key tasks))).
Proof.
  intros Hspec Hrun. unfold ToJobs in Hrun. rewrite Hspec in Hrun. simpl in Hrun.
  assert (Hprefix : exists n,
            map jt_Key tasks
            = map (buildJobKey (job_Name (job j))) (take n (ServiceAndBuilds s))
            /\ (r = Ok () -> n = length (ServiceAndBuilds s))).
  { destruct (FindRegistryById cat (DockerRegistryID s)).
    2:{ inversion Hrun; subst. exists 0. by split. }
    destruct (S3StorageColl_FindDefault cat).
    2:{ inversion Hrun; subst. exists 0. by split. }
    destruct (ToJobs_loop _ _ _ _ _ _ _ _ _ _ _) as [[builds resp] r'] eqn:El.
    inversion Hrun; subst. apply ToJobs_loop_keys in El. exact El. }
  destruct Hprefix as (n & Hkeys & Hall). split; [by exists n|].
  intros Hok. specialize (Hall Hok). subst n. rewrite firstn_all in Hkeys.
  split; [exact Hkeys|]. split.
  { rewrite <- (length_map jt_Key tasks), Hkeys. by rewrite length_map. }
  intros Hnd Hdots. rewrite Hkeys.
  assert (Hall : forall b1 b2, b1 ∈ ServiceAndBuilds s -> b2 ∈ ServiceAndBuilds s ->
            buildJobKey (job_Name (job j)) b1 = buildJobKey (job_Name (job j)) b2 ->
            (sab_ServiceName b1, sab_ServiceModule b1)
            = (sab_ServiceName b2, sab_ServiceModule b2)).
  { intros b1 b2 H1 H2 Heq. destruct (buildJobKey_inj (job_Name (job j)) b1 b2) as [-> ->];
      [|done|done].
    destruct Hdots as [Hd|Hd]; rewrite Forall_forall in Hd; [left|right]; split; by apply Hd. }
  clear Hkeys Hdots Hrun. revert Hnd Hall.
  induction (ServiceAndBuilds s) as [|b builds IH]; intros Hnd Hall; simpl; [constructor|].
  simpl in Hnd. apply NoDup_cons in Hnd as [Hnotin Hnd].
  apply NoDup_cons. split.
  - intros Hin. apply list_elem_of_fmap in Hin as (b' & Hk & Hb').
    apply Hnotin. apply list_elem_of_fmap. exists b'. split; [|done].
    apply Hall; [left|by right|done].
  - apply IH; [done|]. intros b1 b2 H1 H2. apply Hall; by right.
Qed.

End ToJobsFacts.

(** A catalog for the build job scenarios: one registry, one object storage,
    one base image, one cluster without cache, the services [a.b], [a] and
    [svc], and the builds of the scenarios. *)
Definition upstreamSettings : Settings :=
  mkSettings "vm" "object" "shell" "batch_file" "powershell" "zadig-build" "job_name"
    "tools" "download_archive" "git" "debug_before" "shell" "batch_file" "powershell"
    "debug_after" "docker_build" "tar_archive" "archive".

Definition scenarioPreBuild : PreBuild :=
  mkPreBuild [mkKeyVal "GOFLAGS" "-mod=vendor" "string" false []] "image-1" "koderover"
    "cluster-1" "" [("go", "1.21")] false.

Definition dotsBuild : Build :=
  mkBuild "build-svc" "" 60
    [mkServiceModuleTarget "a.b" "c" [] []; mkServiceModuleTarget "a" "b.c" [] []]
    [] (Some scenarioPreBuild) "shell" "make build" None false "" "" [] "" [].

Definition mainRepo : Repository :=
  mkRepository "github" "koderover" "" "zadig" "origin" "main" "" 0%Z [] "" "" [].

Definition releaseRepo : Repository :=
  mkRepository "github" "koderover" "" "zadig" "origin" "release" "" 0%Z [] "" "release" [].

Definition twoCheckoutsBuild : Build :=
  mkBuild "build-twice" "" 60 [mkServiceModuleTarget "svc" "mod" [] []]
    [mainRepo; releaseRepo] (Some scenarioPreBuild) "shell" "make build" None false "" ""
    [] "" [].

Definition scenarioCatalog : Catalog :=
  mkCatalog
    (fun project =>
       Found (list_to_map
                [("a.b", mkService "a.b" [mkContainer "c" "c"]);
                 ("a", mkService "a" [mkContainer "b.c" "b.c"]);
                 ("svc", mkService "svc" [mkContainer "mod" "mod-image"])]))
    (fun name project =>
       if streq name "build-svc" then Found dotsBuild
       else if streq name "build-twice" then Found twoCheckoutsBuild
       else NotFound "mongo: no documents in result")
    (fun id => NotFound "mongo: no documents in result")
    (fun id => Found (mkRegistryNamespace "https://registry.example.com" "dev" "ak" "sk"))
    (Found [mkRegistryNamespace "https://registry.example.com" "dev" "ak" "sk"])
    (Found (mkS3Storage "s3.example.com" "artifacts"))
    (fun id => Found (mkS3Storage "s3.example.com" "artifacts"))
    (fun id => Found (mkBasicImage "focal"))
    (fun id => Found (mkK8SCluster "" "")).

(** Stand-ins for the helpers declared outside the sources at hand. *)
Definition keepTemplateEnvs (templateEnvs customEnvs : list KeyVal) : list KeyVal :=
  templateEnvs.

Definition plainJobName (name : string) : string := name.

Definition dotsSelection : list ServiceAndBuild :=
  [mkServiceAndBuild "a.b" "c" "build-svc" "" "" "" [] [] "";
   mkServiceAndBuild "a" "b.c" "build-svc" "" "" "" [] [] ""].

Definition dotsJob : BuildJob :=
  mkBuildJob
    (mkJob "build" "zadig-build" (SpecBuild (mkZadigBuildJobSpec "reg-1" dotsSelection [])) None)
    (mkWorkflowV4 "wf" "wf" "proj" [])
    emptyBuildSpec.

(** C1, counterexample.  The selected pairs (a.b, c) and (a, b.c) are
    distinct; [ToJobs] returns without error and emits two tasks, both with
    the key [build.a.b.c]. *)
Lemma ToJobs_dotted_names_share_a_key :
  NoDup (map (fun b => (sab_ServiceName b, sab_ServiceModule b)) dotsSelection)
  /\ (let '(_, tasks, r) :=
        ToJobs scenarioCatalog upstreamSettings keepTemplateEnvs plainJobName
          jobOutputKeyTemplate dotsJob 1 in
      r = Ok ()
      /\ map jt_Key tasks = ["build.a.b.c"; "build.a.b.c"]
      /\ ~ NoDup (map jt_Key tasks)).
Proof.
  split.
  - apply (bool_decide_unpack _). vm_compute. reflexivity.
  - vm_compute. split; [reflexivity|]. split; [reflexivity|].
    intros Hnd. apply NoDup_cons in Hnd as [Hnotin _]. apply Hnotin. left.
Qed.

Definition plainSelection : list ServiceAndBuild :=
  [mkServiceAndBuild "a" "c" "build-svc" "" "" "" [] [] "";
   mkServiceAndBuild "a" "b" "build-svc" "" "" "" [] [] ""].

Definition plainJob : BuildJob :=
  mkBuildJob
    (mkJob "build" "zadig-build" (SpecBuild (mkZadigBuildJobSpec "reg-1" plainSelection [])) None)
    (mkWorkflowV4 "wf" "wf" "proj" [])
    emptyBuildSpec.

Lemma ToJobs_keys_distinct_without_dots_witness :
  let '(_, tasks, r) :=
    ToJobs scenarioCatalog upstreamSettings keepTemplateEnvs plainJobName
      jobOutputKeyTemplate plainJob 1 in
  r = Ok () /\ map jt_Key tasks = ["build.a.c"; "build.a.b"] /\ NoDup (map jt_Key tasks).
Proof.
  destruct (ToJobs scenarioCatalog upstreamSettings keepTemplateEnvs plainJobName
              jobOutputKeyTemplate plainJob 1) as [[j' tasks] r] eqn:Hrun.
  assert (Hr : r = Ok ()).
  { vm_compute in Hrun. by inversion Hrun. }
  destruct (ToJobs_keys_distinct_without_dots scenarioCatalog upstreamSettings
              keepTemplateEnvs plainJobName jobOutputKeyTemplate plainJob j'
              (mkZadigBuildJobSpec "reg-1" plainSelection []) 1 tasks r eq_refl Hrun)
    as [_ Hok].
  destruct (Hok Hr) as (Hkeys & _ & Hnd).
  split; [exact Hr|]. split; [exact Hkeys|].
  apply Hnd.
  - apply (bool_decide_unpack _). vm_compute. reflexivity.
  - left. repeat constructor.
Defined.

(** ** SetPreset of the build job *)

Definition twiceSelection : list ServiceAndBuild :=
  [mkServiceAndBuild "svc" "mod" "build-twice" "" "" "" [] [] ""].

Definition twiceJob : BuildJob :=
  mkBuildJob
    (mkJob "build" "zadig-build" (SpecBuild (mkZadigBuildJobSpec "reg-1" twiceSelection [])) None)
    (mkWorkflowV4 "wf" "wf" "proj" [])
    emptyBuildSpec.

(** The branches of the repositories of the selected builds of a job. *)
Definition selectedBranches (j : BuildJob) : list (list string) :=
  map (fun b => map Branch (sab_Repos b)) (ServiceAndBuilds (spec j)).

(** C8, counterexample.  The build of the selected service checks the same
    repository out twice, on [main] and on [release].  The first [SetPreset]
    fills the selection with these two repositories; the second one merges
    them back by key, where the later entry replaces the earlier one, and
    both repositories end on [release]. *)
Lemma SetPreset_twice_differs_from_once :
  exists j1 j2,
    SetPreset scenarioCatalog keepTemplateEnvs twiceJob = Ok j1
    /\ SetPreset scenarioCatalog keepTemplateEnvs j1 = Ok j2
    /\ selectedBranches j1 = [["main"; "release"]]
    /\ selectedBranches j2 = [["release"; "release"]]
    /\ j2 <> j1.
Proof.
  destruct (SetPreset scenarioCatalog keepTemplateEnvs twiceJob) as [j1| |] eqn:E1;
    [|vm_compute in E1; discriminate|vm_compute in E1; discriminate].
  destruct (SetPreset scenarioCatalog keepTemplateEnvs j1) as [j2| |] eqn:E2.
  - exists j1, j2. vm_compute in E1. inversion E1; subst j1. clear E1.
    vm_compute in E2. inversion E2; subst j2. clear E2.
    split; [reflexivity|]. split; [reflexivity|]. split; [reflexivity|].
    split; [reflexivity|]. discriminate.
  - exfalso. vm_compute in E1. inversion E1; subst j1. vm_compute in E2. discriminate.
  - exfalso. vm_compute in E1. inversion E1; subst j1. vm_compute in E2. discriminate.
Qed.

Lemma filter_key_unique {A : Type} (key : A -> string) (l : list A) (x : A) :
  NoDup (map key l) -> x ∈ l -> filter (fun y => key y = key x) l = [x].
Proof.
  induction l as [|y l IH]; intros Hnd Hin; [by apply not_elem_of_nil in Hin|].
  simpl in Hnd. apply NoDup_cons in Hnd as [Hnotin Hnd].
  apply elem_of_cons in Hin as [->|Hin].
  - rewrite filter_cons_True by done. f_equal.
    destruct (filter _ l) as [|w l'] eqn:E; [done|]. exfalso.
    assert (Hw : w ∈ filter (fun y0 => key y0 = key y) l) by (rewrite E; left).
    apply list_elem_of_filter in Hw as [Hk Hw].
    apply Hnotin. rewrite <- Hk. apply list_elem_of_fmap. by exists w.
  - rewrite filter_cons_False; [by apply IH|].
    intros Hk. apply Hnotin. rewrite Hk. apply list_elem_of_fmap. by exists x.
Qed.

(** Rendering the rendered key-values again changes nothing when the keys of
    the origin are pairwise distinct. *)
Lemma renderKeyVals_idempotent (input origin : list KeyVal) :
  NoDup (map Key origin) ->
  renderKeyVals (renderKeyVals input origin) origin = renderKeyVals input origin.
Proof.
  intros Hnd. rewrite (renderKeyVals_map (renderKeyVals input origin) origin).
  rewrite (renderKeyVals_map input origin).
  set (g := fun originKV =>
              mkKeyVal (Key originKV) (renderedValue input originKV) (Type_ originKV)
                (IsCredential originKV) (ChoiceOption originKV)).
  apply map_ext_in. intros o Ho. apply list_elem_of_In in Ho.
  unfold g at 2. f_equal. unfold renderedValue at 1.
  assert (Hf : filter (fun inputKV => Key inputKV = Key o) (map g origin) = [g o]).
  { apply (filter_key_unique Key (map g origin) (g o)).
    - rewrite map_map. simpl. done.
    - apply list_elem_of_fmap. by exists o. }
  rewrite Hf. done.
Qed.

(** The metadata of a repository as [mergeRepos] leaves it: the namespace is
    read through [GetRepoNamespace]. *)
Definition meta (r : Repository)
    : string * string * string * string * string * string * list (string * string) :=
  (Source r, RepoOwner r, GetRepoNamespace r, RepoName r, RemoteName r, CheckoutPath r,
   OtherFields r).

(** [R] is [T] with some selection overlaid. *)
Definition overlaid (R T : list Repository) : Prop :=
  Forall2 (fun r t => meta r = meta t /\ RepoNamespace r = GetRepoNamespace r) R T.

Lemma GetRepoNamespace_normalize (t : Repository) :
  GetRepoNamespace (normalizeNamespace t) = GetRepoNamespace t
  /\ RepoNamespace (normalizeNamespace t) = GetRepoNamespace t.
Proof.
  unfold GetRepoNamespace, normalizeNamespace.
  destruct (streq (RepoNamespace t) "") eqn:E; simpl; rewrite ?E; [|done].
  destruct (streq (RepoOwner t) "") eqn:E'; [|done].
  by apply streq_true in E'.
Qed.

Lemma templateRepoKey_meta (r t : Repository) :
  meta r = meta t -> templateRepoKey r = templateRepoKey t.
Proof. unfold meta, templateRepoKey. intros H. inversion H. congruence. Qed.

Lemma customRepoKey_normalize (c : Repository) :
  customRepoKey (normalizeNamespace c) = templateRepoKey c.
Proof.
  unfold customRepoKey, templateRepoKey.
  destruct (GetRepoNamespace_normalize c) as [_ ->].
  by destruct (normalizeNamespace_fields c) as (-> & _ & -> & _).
Qed.

Lemma templateRepoKey_normalize (t : Repository) :
  templateRepoKey (normalizeNamespace t) = templateRepoKey t.
Proof.
  unfold templateRepoKey.
  destruct (GetRepoNamespace_normalize t) as [-> _].
  by destruct (normalizeNamespace_fields t) as (-> & _ & -> & _).
Qed.

Lemma mergeRepo_meta (m : gmap string Repository) (t : Repository) :
  meta (mergeRepo m t) = meta t
  /\ RepoNamespace (mergeRepo m t) = GetRepoNamespace (mergeRepo m t).
Proof.
  unfold mergeRepo.
  destruct (GetRepoNamespace_normalize t) as [HG Hns].
  pose proof (normalizeNamespace_fields t) as Hf. cbn zeta in Hf.
  destruct Hf as (Hs & Ho & Hn & Hr & _ & _ & _ & _ & _ & Hc & Hother & _).
  assert (Hmeta : meta (normalizeNamespace t) = meta t).
  { unfold meta. by rewrite Hs, Ho, HG, Hn, Hr, Hc, Hother. }
  destruct (m !! _) as [cv|].
  - split.
    + transitivity (meta (normalizeNamespace t)); [reflexivity|exact Hmeta].
    + change (RepoNamespace (normalizeNamespace t) = GetRepoNamespace (normalizeNamespace t)).
      by rewrite HG, Hns.
  - split; [done|]. by rewrite HG, Hns.
Qed.

Lemma mergeRepos_overlaid (T C : list Repository) : overlaid (mergeRepos T C) T.
Proof.
  unfold overlaid, mergeRepos. induction T as [|t T IH]; simpl; constructor; [|done].
  apply mergeRepo_meta.
Qed.

Lemma overlaid_trans (R1 R2 T : list Repository) :
  overlaid R2 R1 -> overlaid R1 T -> overlaid R2 T.
Proof.
  unfold overlaid. intros H21 H1T. revert R2 H21.
  induction H1T as [|r1 t R1 T [Hm1 _] _ IH]; intros R2 H21;
    inversion H21 as [|r2 ? R2' ? [Hm2 Hns] Hrest]; subst; constructor.
  - split; [congruence|done].
  - by apply IH.
Qed.

Lemma overlaid_keys (R T : list Repository) :
  overlaid R T -> map templateRepoKey R = map templateRepoKey T.
Proof.
  induction 1 as [|r t R T [Hm _] _ IH]; simpl; [done|].
  by rewrite IH, (templateRepoKey_meta r t Hm).
Qed.

Lemma overlaid_self (R T : list Repository) : overlaid R T -> overlaid R R.
Proof. induction 1 as [|r t R T [_ Hns] _ IH]; constructor; done. Qed.

(** Merging the merged repositories back into the template returns them, when
    the keys of the template are pairwise distinct. *)
Lemma mergeRepos_fixed (T R : list Repository) :
  overlaid R T -> NoDup (map templateRepoKey T) -> mergeRepos T R = R.
Proof.
  intros Hov Hnd. pose proof (overlaid_keys R T Hov) as Hkeys.
  unfold mergeRepos.
  assert (Hent : forall r t, r ∈ R -> meta r = meta t -> RepoNamespace r = GetRepoNamespace r ->
                             mergeRepo (customRepoMap R) t = r).
  { intros r t Hr Hm Hns. unfold mergeRepo. rewrite customRepoMap_lookup.
    rewrite templateRepoKey_normalize. unfold customFor.
    assert (Hf : filter (fun c => customRepoKey (normalizeNamespace c) = templateRepoKey t) R
                 = [r]).
    { rewrite <- (templateRepoKey_meta r t Hm).
      rewrite <- (filter_key_unique templateRepoKey R r); [|by rewrite Hkeys|done].
      apply list_filter_iff. intros c. by rewrite customRepoKey_normalize. }
    rewrite Hf. simpl. unfold overlaySelection.
    destruct (GetRepoNamespace_normalize t) as [_ HnsT].
    pose proof (normalizeNamespace_fields t) as Ht. cbn zeta in Ht.
    destruct Ht as (-> & -> & -> & -> & _ & _ & _ & _ & _ & -> & -> & _).
    pose proof (normalizeNamespace_fields r) as Hr'. cbn zeta in Hr'.
    destruct Hr' as (_ & _ & _ & _ & -> & -> & -> & -> & -> & _).
    rewrite HnsT. unfold meta in Hm. inversion Hm as [[H1 H2 H3 H4 H5 H6 H7]].
    rewrite <- Hns. by destruct r. }
  clear Hnd Hkeys.
  assert (Hgen : forall R' T', overlaid R' T' -> (forall r, r ∈ R' -> r ∈ R) ->
                               map (mergeRepo (customRepoMap R)) T' = R').
  { intros R' T' Hov'. induction Hov' as [|r t R' T' [Hm Hns] _ IH]; intros Hsub; [done|].
    simpl. f_equal.
    - apply Hent; [apply Hsub; left|done|done].
    - apply IH. intros r' Hr'. apply Hsub. by right. }
  by apply Hgen.
Qed.

Section SetPresetFacts.

Variable cat : Catalog.
Variable MergeBuildEnvs : list KeyVal -> list KeyVal -> list KeyVal.
Variable project : string.
Variable servicesMap : gmap string Service.

(** The build configuration the catalog holds for a build name. *)
Definition foundBuild (n : string) : option Build :=
  match BuildColl_Find cat n project with
  | Found B => Some B
  | NotFound _ => None
  end.

(** The selected build names a target of its build configuration. *)
Definition isMatched (b : ServiceAndBuild) : bool :=
  match foundBuild (sab_BuildName b) with
  | Some B =>
      bool_decide (is_Some (findTarget (b_Targets B) (sab_ServiceName b) (sab_ServiceModule b)))
  | None => false
  end.

(** Visiting [b] merges its repositories into the cached build [n]. *)
Definition mergesInto (n : string) (b : ServiceAndBuild) : bool :=
  streq (sab_BuildName b) n && isMatched b.

(** The repositories of the cached build [n] after the selected builds
    [visited], starting from [T0]. *)
Definition reposAfter (n : string) (visited : list ServiceAndBuild) (T0 : list Repository)
    : list Repository :=
  fold_left (fun T b => if mergesInto n b then mergeRepos T (sab_Repos b) else T) visited T0.

(** The cached object of build name [n] after [visited], when none of the
    build configurations comes from a template. *)
Definition curObj (visited : list ServiceAndBuild) (n : string) : option BuildObj :=
  (fun B => mkBuildObj (withRepos B (reposAfter n visited (b_Repos B))) OwnRepos OwnPreBuild)
    <$> foundBuild n.

Definition heapFor (visited : list ServiceAndBuild) (h : Heap) : Prop :=
  forall n, buildMap h !! n
            = if decide (n ∈ map sab_BuildName visited) then Some (curObj visited n) else None.

Definition heapLoaded (visited : list ServiceAndBuild) (name : string) (h : Heap) : Prop :=
  forall n, buildMap h !! n
            = if decide (n = name \/ n ∈ map sab_BuildName visited)
              then Some (curObj visited n) else None.

Definition nonTemplate (b : ServiceAndBuild) : Prop :=
  forall B, foundBuild (sab_BuildName b) = Some B -> b_TemplateID B = "".

Definition preBuildOk (b : ServiceAndBuild) : Prop :=
  forall B, foundBuild (sab_BuildName b) = Some B -> isMatched b = true ->
            is_Some (b_PreBuild B).

(** The selected build as one iteration leaves it; [None] when it is
    skipped. *)
Definition presetCell (b : ServiceAndBuild) : option BuildCell :=
  match foundBuild (sab_BuildName b) with
  | None => None
  | Some B =>
      let c :=
        if isMatched b
        then mkBuildCell
               (withSelection b
                  (renderKeyVals (sab_KeyVals b)
                     (pre_Envs (default emptyPreBuild (b_PreBuild B)))))
               (Some (sab_BuildName b, OwnRepos))
        else mkBuildCell b None in
      match servicesMap !! sab_ServiceName b with
      | None => None
      | Some service =>
          Some (mkBuildCell
                  (withImageName (cell_build c) (containerImageName service (cell_build c)))
                  (cell_Repos c))
      end
  end.

Lemma withRepos_eta (B : Build) : withRepos B (b_Repos B) = B.
Proof. by destruct B. Qed.

Lemma reposAfter_other (n : string) (visited : list ServiceAndBuild) (T0 : list Repository) :
  n ∉ map sab_BuildName visited -> reposAfter n visited T0 = T0.
Proof.
  unfold reposAfter. revert T0. induction visited as [|b visited IH]; intros T0 Hn; [done|].
  simpl. unfold mergesInto at 2.
  rewrite (proj2 (streq_false (sab_BuildName b) n)) by set_solver.
  simpl. apply IH. set_solver.
Qed.

Lemma reposAfter_snoc (n : string) (visited : list ServiceAndBuild) (b : ServiceAndBuild)
    (T0 : list Repository) :
  reposAfter n (visited ++ [b]) T0
  = if mergesInto n b then mergeRepos (reposAfter n visited T0) (sab_Repos b)
    else reposAfter n visited T0.
Proof. unfold reposAfter. by rewrite fold_left_app. Qed.

Lemma curObj_snoc_other (visited : list ServiceAndBuild) (b : ServiceAndBuild) (n : string) :
  n <> sab_BuildName b -> curObj (visited ++ [b]) n = curObj visited n.
Proof.
  intros Hne. unfold curObj. destruct (foundBuild n) as [B|]; [|done]. simpl.
  rewrite reposAfter_snoc. unfold mergesInto.
  by rewrite (proj2 (streq_false (sab_BuildName b) n)) by done.
Qed.

Lemma load_spec (visited : list ServiceAndBuild) (h : Heap) (name : string) :
  heapFor visited h ->
  exists h1,
    loadBuildOrSkip cat project h name = (h1, curObj visited name)
    /\ heapLoaded visited name h1.
Proof.
  intros Hh. unfold loadBuildOrSkip. rewrite (Hh name).
  destruct (decide (name ∈ map sab_BuildName visited)) as [Hin|Hnotin].
  - exists h. split.
    + by destruct (curObj visited name).
    + intros n. rewrite (Hh n).
      destruct (decide (n ∈ map sab_BuildName visited)) as [Hn|Hn].
      * by rewrite decide_True by (by right).
      * rewrite decide_False; [done|]. intros [->|?]; done.
  - assert (Hcur : curObj visited name = freshBuildObj <$> foundBuild name).
    { unfold curObj. destruct (foundBuild name) as [B|]; [|done]. simpl.
      by rewrite reposAfter_other, withRepos_eta. }
    exists (storeBuild h name (curObj visited name)). split.
    + rewrite Hcur. unfold foundBuild.
      by destruct (BuildColl_Find cat name project).
    + intros n. simpl. destruct (decide (n = name)) as [->|Hne].
      * rewrite lookup_insert_eq. by rewrite decide_True by (by left).
      * rewrite lookup_insert_ne by done. rewrite (Hh n).
        destruct (decide (n ∈ map sab_BuildName visited)) as [Hn|Hn].
        -- by rewrite decide_True by (by right).
        -- rewrite decide_False; [done|]. intros [?|?]; done.
Qed.

Lemma heap_step (visited : list ServiceAndBuild) (b : ServiceAndBuild) (h1 : Heap) :
  heapLoaded visited (sab_BuildName b) h1 ->
  heapFor (visited ++ [b])
          (storeBuild h1 (sab_BuildName b) (curObj (visited ++ [b]) (sab_BuildName b))).
Proof.
  intros Hl n. simpl. rewrite List.map_app. simpl.
  destruct (decide (n = sab_BuildName b)) as [->|Hne].
  - rewrite lookup_insert_eq. rewrite decide_True; [done|]. set_solver.
  - rewrite lookup_insert_ne by done. rewrite (Hl n).
    rewrite (curObj_snoc_other visited b n Hne).
    destruct (decide (n = sab_BuildName b \/ n ∈ map sab_BuildName visited)) as [Hn|Hn];
      [rewrite decide_True; [done|set_solver]|rewrite decide_False; [done|set_solver]].
Qed.

Lemma heap_step_same (visited : list ServiceAndBuild) (b : ServiceAndBuild) (h1 : Heap) :
  heapLoaded visited (sab_BuildName b) h1 ->
  curObj (visited ++ [b]) (sab_BuildName b) = curObj visited (sab_BuildName b) ->
  heapFor (visited ++ [b]) h1.
Proof.
  intros Hl Hsame n. rewrite List.map_app. simpl. rewrite (Hl n).
  destruct (decide (n = sab_BuildName b)) as [->|Hne].
  - rewrite Hsame. rewrite decide_True by (by left). rewrite decide_True; [done|set_solver].
  - rewrite (curObj_snoc_other visited b n Hne).
    destruct (decide (n = sab_BuildName b \/ n ∈ map sab_BuildName visited)) as [Hn|Hn];
      [rewrite decide_True; [done|set_solver]|rewrite decide_False; [done|set_solver]].
Qed.

Lemma isMatched_found (b : ServiceAndBuild) (B : Build) :
  foundBuild (sab_BuildName b) = Some B ->
  isMatched b
  = bool_decide (is_Some (findTarget (b_Targets B) (sab_ServiceName b) (sab_ServiceModule b))).
Proof. intros HB. unfold isMatched. by rewrite HB. Qed.

(** One iteration of the loop on a build configuration that does not come
    from a template: it panics when the matched configuration has no
    [PreBuild], and otherwise leaves the cell [presetCell]. *)
Lemma SetPreset_body_spec (visited : list ServiceAndBuild) (h : Heap) (b : ServiceAndBuild) :
  heapFor visited h -> nonTemplate b ->
  (preBuildOk b ->
   exists h', SetPreset_body cat MergeBuildEnvs project servicesMap h b = Ok (h', presetCell b)
              /\ heapFor (visited ++ [b]) h')
  /\ (forall r, SetPreset_body cat MergeBuildEnvs project servicesMap h b = Ok r ->
                preBuildOk b).
Proof.
  intros Hh Hnt.
  destruct (load_spec visited h (sab_BuildName b) Hh) as (h1 & Hload & Hl).
  unfold SetPreset_body. rewrite Hload.
  pose proof (heap_step visited b h1 Hl) as Hstep.
  pose proof (heap_step_same visited b h1 Hl) as Hsame.
  unfold preBuildOk, presetCell. unfold curObj in *.
  destruct (foundBuild (sab_BuildName b)) as [B|] eqn:EB; simpl in *.
  2:{ split; [|done]. intros _. exists h1. split; [done|]. by apply Hsame. }
  rewrite reposAfter_snoc in Hstep, Hsame. unfold mergesInto in Hstep, Hsame.
  rewrite streq_refl in Hstep, Hsame. simpl in Hstep, Hsame.
  rewrite (isMatched_found b B EB) in Hstep, Hsame |- *.
  unfold fillBuildDetail. simpl. rewrite (Hnt B EB), streq_refl. simpl.
  destruct (findTarget (b_Targets B) (sab_ServiceName b) (sab_ServiceModule b))
    as [jt|] eqn:Et; simpl.
  - simpl in Hstep. unfold curPreBuild, writeRepos, curRepos, reposAt. simpl.
    destruct (b_PreBuild B) as [pb|] eqn:Ep; simpl.
    + split.
      * intros _. eexists. split; [|exact Hstep].
        destruct (servicesMap !! sab_ServiceName b); reflexivity.
      * intros r _ B' HB' _. inversion HB'; subst B'. by rewrite Ep.
    + split; [|done]. intros Hok. destruct (Hok B eq_refl eq_refl) as [pb Hpb]. congruence.
  - simpl in Hsame.
    split.
    + intros _. eexists. split.
      * destruct (servicesMap !! sab_ServiceName b); reflexivity.
      * intros n. rewrite <- (Hsame eq_refl n). simpl.
        destruct (decide (n = sab_BuildName b)) as [->|Hne].
        -- rewrite lookup_insert_eq. rewrite (Hl (sab_BuildName b)).
           rewrite decide_True by (by left). unfold curObj. by rewrite EB.
        -- by rewrite lookup_insert_ne.
    + intros r _ B' HB' Hm. done.
Qed.

Lemma SetPreset_loop_spec (L : list ServiceAndBuild) :
  forall (h : Heap) (visited : list ServiceAndBuild) (acc : list BuildCell),
    heapFor visited h -> Forall nonTemplate L ->
    (Forall preBuildOk L ->
     exists h', SetPreset_loop cat MergeBuildEnvs project servicesMap h acc L
                = Ok (h', acc ++ omap presetCell L)
                /\ heapFor (visited ++ L) h')
    /\ (forall r, SetPreset_loop cat MergeBuildEnvs project servicesMap h acc L = Ok r ->
                  Forall preBuildOk L).
Proof.
  induction L as [|b L IH]; intros h visited acc Hh Hnt.
  - split; [|by constructor]. intros _. exists h. simpl. by rewrite !app_nil_r.
  - apply Forall_cons in Hnt as [Hntb Hnt].
    destruct (SetPreset_body_spec visited h b Hh Hntb) as [Hok Hinv].
    split.
    + intros Hpre. apply Forall_cons in Hpre as [Hpb Hpre].
      destruct (Hok Hpb) as (h' & Hbody & Hh').
      destruct (IH h' (visited ++ [b])
                  (match presetCell b with Some c => acc ++ [c] | None => acc end) Hh' Hnt)
        as [Hloop _].
      destruct (Hloop Hpre) as (h'' & Hrun & Hh'').
      exists h''. simpl. rewrite Hbody. simpl. rewrite Hrun.
      rewrite <- app_assoc in Hh''. split; [|exact Hh''].
      destruct (presetCell b); simpl; by rewrite <- ?app_assoc.
    + intros r Hrun. simpl in Hrun.
      destruct (SetPreset_body cat MergeBuildEnvs project servicesMap h b)
        as [[h' c]| |] eqn:Hbody; [|done|done].
      pose proof (Hinv _ eq_refl) as Hpb.
      destruct (Hok Hpb) as (h'' & Hbody' & Hh'). inversion Hbody'; subst h'' c.
      simpl in Hrun. constructor; [done|].
      destruct (IH h' (visited ++ [b])
                  (match presetCell b with Some c => acc ++ [c] | None => acc end) Hh' Hnt)
        as [_ Hinv']. by eapply Hinv'.
Qed.

(** The selected build as [SetPreset] returns it. *)
Definition presetOut (L : list ServiceAndBuild) (b : ServiceAndBuild)
    : option ServiceAndBuild :=
  match foundBuild (sab_BuildName b) with
  | None => None
  | Some B =>
      match servicesMap !! sab_ServiceName b with
      | None => None
      | Some service =>
          Some (if isMatched b
                then withReposValue
                       (withImageName
                          (withSelection b
                             (renderKeyVals (sab_KeyVals b)
                                (pre_Envs (default emptyPreBuild (b_PreBuild B)))))
                          (containerImageName service b))
                       (reposAfter (sab_BuildName b) L (b_Repos B))
                else withImageName b (containerImageName service b))
      end
  end.

Lemma readCell_presetCell (L : list ServiceAndBuild) (h : Heap) (b : ServiceAndBuild) :
  heapFor L h -> b ∈ L -> readCell h <$> presetCell b = presetOut L b.
Proof.
  intros Hh Hb. unfold presetCell, presetOut.
  destruct (foundBuild (sab_BuildName b)) as [B|] eqn:EB; [|done].
  destruct (servicesMap !! sab_ServiceName b) as [service|]; [|done].
  destruct (isMatched b); simpl; [|done].
  unfold readCell. simpl. rewrite (Hh (sab_BuildName b)).
  rewrite decide_True by (apply list_elem_of_fmap; by exists b).
  unfold curObj. rewrite EB. done.
Qed.

Lemma map_omap_ext {A B C : Type} (f : B -> C) (g : A -> option B) (k : A -> option C)
    (l : list A) :
  (forall x, x ∈ l -> f <$> g x = k x) -> map f (omap g l) = omap k l.
Proof.
  induction l as [|x l IH]; intros Hext; [done|].
  assert (IH' : map f (omap g l) = omap k l) by (apply IH; intros; apply Hext; by right).
  cbn [omap list_omap]. rewrite <- (Hext x) by left.
  destruct (g x) as [y|]; cbn [fmap option_fmap option_map map]; [by rewrite IH'|done].
Qed.

Lemma omap_fixed {A : Type} (f : A -> option A) (l : list A) :
  (forall x, x ∈ l -> f x = Some x) -> omap f l = l.
Proof.
  induction l as [|x l IH]; intros Hfix; [done|].
  cbn [omap list_omap]. rewrite (Hfix x) by left. f_equal.
  apply IH. intros; apply Hfix; by right.
Qed.

Lemma presetOut_names (L : list ServiceAndBuild) (b b' : ServiceAndBuild) :
  presetOut L b = Some b' ->
  sab_BuildName b' = sab_BuildName b /\ sab_ServiceName b' = sab_ServiceName b
  /\ sab_ServiceModule b' = sab_ServiceModule b.
Proof.
  unfold presetOut. destruct (foundBuild _); [|done]. destruct (servicesMap !! _); [|done].
  intros H. inversion H. by destruct (isMatched b).
Qed.

Lemma isMatched_names (b b' : ServiceAndBuild) :
  sab_BuildName b' = sab_BuildName b -> sab_ServiceName b' = sab_ServiceName b ->
  sab_ServiceModule b' = sab_ServiceModule b -> isMatched b' = isMatched b.
Proof. intros H1 H2 H3. unfold isMatched. by rewrite H1, H2, H3. Qed.

Lemma reposAfter_keeps_overlaid (n : string) (l : list ServiceAndBuild)
    (T T0 : list Repository) :
  overlaid T T0 -> overlaid (reposAfter n l T) T0.
Proof.
  unfold reposAfter. revert T. induction l as [|x l IH]; intros T HT; [done|].
  simpl. apply IH. destruct (mergesInto n x); [|done].
  eapply overlaid_trans; [apply mergeRepos_overlaid|done].
Qed.

Lemma reposAfter_overlaid (n : string) (l : list ServiceAndBuild) (T0 : list Repository)
    (b : ServiceAndBuild) :
  b ∈ l -> mergesInto n b = true -> overlaid (reposAfter n l T0) T0.
Proof.
  revert T0. induction l as [|x l IH]; intros T0 Hb Hm; [by apply not_elem_of_nil in Hb|].
  change (reposAfter n (x :: l) T0)
    with (reposAfter n l (if mergesInto n x then mergeRepos T0 (sab_Repos x) else T0)).
  destruct (mergesInto n x) eqn:Ex.
  - apply reposAfter_keeps_overlaid. apply mergeRepos_overlaid.
  - apply IH; [|done]. apply elem_of_cons in Hb as [->|Hb]; [congruence|done].
Qed.

Lemma reposAfter_all_same (n : string) (l : list ServiceAndBuild) (T R : list Repository)
    (b : ServiceAndBuild) :
  (forall x, x ∈ l -> mergesInto n x = true -> sab_Repos x = R) ->
  mergeRepos T R = R -> mergeRepos R R = R ->
  b ∈ l -> mergesInto n b = true ->
  reposAfter n l T = R.
Proof.
  revert T. induction l as [|x l IH]; intros T Hall HT HR Hb Hm;
    [by apply not_elem_of_nil in Hb|].
  change (reposAfter n (x :: l) T)
    with (reposAfter n l (if mergesInto n x then mergeRepos T (sab_Repos x) else T)).
  destruct (mergesInto n x) eqn:Ex.
  - rewrite (Hall x) by (done || left). rewrite HT.
    clear IH Hb. assert (Hall' : forall y, y ∈ l -> mergesInto n y = true -> sab_Repos y = R)
      by (intros; apply Hall; [by right|done]).
    clear Hall. unfold reposAfter. induction l as [|y l IHl]; [done|].
    simpl. destruct (mergesInto n y) eqn:Ey.
    + rewrite (Hall' y) by (done || left). rewrite HR.
      apply IHl. intros; apply Hall'; [by right|done].
    + apply IHl. intros; apply Hall'; [by right|done].
  - apply IH; try done.
    + intros; apply Hall; [by right|done].
    + apply elem_of_cons in Hb as [->|Hb]; [congruence|done].
Qed.

(** A build configuration for which [SetPreset] is idempotent: it does not
    come from a template, and neither its repositories nor its environment
    variables repeat a key. *)
Definition plainBuild (B : Build) : Prop :=
  b_TemplateID B = ""
  /\ NoDup (map templateRepoKey (b_Repos B))
  /\ (forall pb, b_PreBuild B = Some pb -> NoDup (map Key (pre_Envs pb))).

Lemma presetOut_fixed (L : list ServiceAndBuild) :
  (forall b B, b ∈ L -> foundBuild (sab_BuildName b) = Some B -> plainBuild B) ->
  Forall preBuildOk L ->
  forall b', b' ∈ omap (presetOut L) L -> presetOut (omap (presetOut L) L) b' = Some b'.
Proof.
  intros Hplain Hpre b' Hb'. set (L' := omap (presetOut L) L) in *.
  pose proof Hb' as Hb'in.
  apply list_elem_of_omap in Hb' as (b & Hb & Hout).
  destruct (presetOut_names L b b' Hout) as (Hn & Hs & Hm).
  pose proof (isMatched_names b b' Hn Hs Hm) as Hmatched.
  unfold presetOut in Hout |- *. rewrite Hn, Hs, Hmatched.
  destruct (foundBuild (sab_BuildName b)) as [B|] eqn:EB; [|done].
  destruct (servicesMap !! sab_ServiceName b) as [service|]; [|done].
  assert (Hcontainer : containerImageName service b' = containerImageName service b).
  { unfold containerImageName. by rewrite Hm. }
  rewrite Hcontainer. f_equal. inversion Hout as [Hb'eq]. clear Hout.
  destruct (isMatched b) eqn:Eb; [|by destruct b].
  destruct (Hplain b B Hb EB) as (Htid & Hkeys & Henvs).
  rewrite Forall_forall in Hpre.
  destruct (Hpre b Hb B EB Eb) as [pb Hpb]. rewrite Hpb. simpl.
  set (R := reposAfter (sab_BuildName b) L (b_Repos B)).
  assert (Hmerges : mergesInto (sab_BuildName b) b = true).
  { unfold mergesInto. by rewrite streq_refl, Eb. }
  assert (Hov : overlaid R (b_Repos B)) by (by eapply reposAfter_overlaid).
  assert (HR : reposAfter (sab_BuildName b) L' (b_Repos B) = R).
  { apply (reposAfter_all_same _ L' _ R b').
    - intros x Hx Hxm. apply list_elem_of_omap in Hx as (x0 & Hx0 & Hxout).
      destruct (presetOut_names L x0 x Hxout) as (Hxn & Hxs & Hxmod).
      unfold mergesInto in Hxm. apply andb_true_iff in Hxm as [Hname Hxmatched].
      apply streq_true in Hname.
      rewrite (isMatched_names x0 x Hxn Hxs Hxmod) in Hxmatched.
      unfold presetOut in Hxout. rewrite Hxmatched in Hxout.
      assert (Hx0n : sab_BuildName x0 = sab_BuildName b) by congruence.
      rewrite Hx0n, EB in Hxout.
      destruct (servicesMap !! sab_ServiceName x0); [|done].
      inversion Hxout. done.
    - by apply mergeRepos_fixed.
    - apply mergeRepos_fixed; [by eapply overlaid_self|].
      by rewrite (overlaid_keys R (b_Repos B) Hov).
    - exact Hb'in.
    - unfold mergesInto. by rewrite Hn, streq_refl, Hmatched. }
  rewrite HR. clear Hb'eq.
  rewrite (renderKeyVals_idempotent _ _ (Henvs pb Hpb)). by destruct b.
Qed.

Lemma heapFor_empty : heapFor [] emptyHeap.
Proof.
  intros n. change (buildMap emptyHeap) with (∅ : gmap string (option BuildObj)).
  rewrite lookup_empty. destruct (decide _) as [Hn|]; [|done].
  by apply not_elem_of_nil in Hn.
Qed.

(** The selection [SetPreset] leaves when no selected build configuration
    comes from a template. *)
Lemma SetPreset_loop_out (L : list ServiceAndBuild) (r : Heap * list BuildCell) :
  Forall nonTemplate L ->
  SetPreset_loop cat MergeBuildEnvs project servicesMap emptyHeap [] L = Ok r ->
  Forall preBuildOk L /\ map (readCell r.1) r.2 = omap (presetOut L) L.
Proof.
  intros Hnt Hrun.
  destruct (SetPreset_loop_spec L emptyHeap [] [] heapFor_empty Hnt) as [Hok Hinv].
  pose proof (Hinv r Hrun) as Hpre. split; [done|].
  destruct (Hok Hpre) as (h' & Hrun' & Hh'). rewrite Hrun in Hrun'.
  inversion Hrun'; subst r. simpl.
  apply map_omap_ext. intros b Hb. by apply readCell_presetCell.
Qed.

Lemma SetPreset_loop_total (L : list ServiceAndBuild) :
  Forall nonTemplate L -> Forall preBuildOk L ->
  exists r, SetPreset_loop cat MergeBuildEnvs project servicesMap emptyHeap [] L = Ok r.
Proof.
  intros Hnt Hpre.
  destruct (SetPreset_loop_spec L emptyHeap [] [] heapFor_empty Hnt) as [Hok _].
  destruct (Hok Hpre) as (h' & Hrun & _). eauto.
Qed.

Lemma presetOut_properties (L : list ServiceAndBuild) :
  Forall nonTemplate L -> Forall preBuildOk L ->
  Forall nonTemplate (omap (presetOut L) L) /\ Forall preBuildOk (omap (presetOut L) L).
Proof.
  intros Hnt Hpre. rewrite Forall_forall in Hnt, Hpre.
  split; apply Forall_forall; intros b' Hb';
    apply list_elem_of_omap in Hb' as (b & Hb & Hout);
    destruct (presetOut_names L b b' Hout) as (Hn & Hs & Hm).
  - intros B. rewrite Hn. apply (Hnt b Hb).
  - intros B. rewrite Hn, (isMatched_names b b' Hn Hs Hm). apply (Hpre b Hb).
Qed.

End SetPresetFacts.

(* ===================================================================== *)
(** * Part III.  Further properties                                       *)
(* ===================================================================== *)

(** ** Composition of renderings *)

Lemma last_filter_app {A : Type} (P : A -> Prop) `{forall x, Decision (P x)} (l1 l2 : list A) :
  last (filter P (l1 ++ l2))
  = match last (filter P l2) with
    | Some x => Some x
    | None => last (filter P l1)
    end.
Proof.
  rewrite filter_app.
  destruct (filter P l2) as [|y l] eqn:E using rev_ind.
  - by rewrite app_nil_r.
  - by rewrite app_assoc, !last_snoc.
Qed.

Lemma renderKeyVals_app (input1 input2 origin : list KeyVal) :
  renderKeyVals input2 (renderKeyVals input1 origin) = renderKeyVals (input1 ++ input2) origin.
Proof.
  rewrite (renderKeyVals_map input2), (renderKeyVals_map input1),
    (renderKeyVals_map (input1 ++ input2)). rewrite map_map. apply map_ext. intros o. simpl.
  f_equal. unfold renderedValue. simpl. rewrite last_filter_app.
  by destruct (last (filter _ input2)).
Qed.

Lemma renderKeyVals_same_input (input origin : list KeyVal) :
  renderKeyVals input (renderKeyVals input origin) = renderKeyVals input origin.
Proof.
  rewrite renderKeyVals_app.
  rewrite (renderKeyVals_map (input ++ input)), (renderKeyVals_map input).
  apply map_ext. intros o. f_equal. unfold renderedValue. rewrite last_filter_app.
  by destruct (last (filter _ input)).
Qed.

(** Rendering with one input and then with another is rendering with both,
    the second after the first: a later value replaces an earlier one.
    Rendering again with the same input changes nothing. *)
Theorem renderKeyVals_sequential (input1 input2 origin : list KeyVal) :
  renderKeyVals input2 (renderKeyVals input1 origin) = renderKeyVals (input1 ++ input2) origin
  /\ renderKeyVals input1 (renderKeyVals input1 origin) = renderKeyVals input1 origin.
Proof. split; [apply renderKeyVals_app|apply renderKeyVals_same_input]. Qed.

Lemma normalizeNamespace_idemp (r : Repository) :
  normalizeNamespace (normalizeNamespace r) = normalizeNamespace r.
Proof.
  unfold normalizeNamespace.
  destruct (streq (RepoNamespace r) "") eqn:E; simpl; [|by rewrite E].
  destruct (streq (RepoOwner r) ""); done.
Qed.

Lemma normalizeNamespace_overlay (cv r : Repository) :
  normalizeNamespace r = r -> normalizeNamespace (overlaySelection cv r) = overlaySelection cv r.
Proof.
  unfold normalizeNamespace. simpl. destruct (streq (RepoNamespace r) ""); [|done].
  intros Hr. apply (f_equal RepoNamespace) in Hr. simpl in Hr.
  unfold overlaySelection. by rewrite <- Hr.
Qed.

Lemma customFor_app (C1 C2 : list Repository) (key : string) :
  customFor (C1 ++ C2) key
  = match customFor C2 key with
    | Some c => Some c
    | None => customFor C1 key
    end.
Proof. unfold customFor. apply last_filter_app. Qed.

Lemma mergeRepo_sequential (C1 C2 : list Repository) (t : Repository) :
  mergeRepo (customRepoMap C2) (mergeRepo (customRepoMap C1) t)
  = mergeRepo (customRepoMap (C1 ++ C2)) t.
Proof.
  unfold mergeRepo at 1 3.
  assert (Hnorm : normalizeNamespace (mergeRepo (customRepoMap C1) t)
                  = mergeRepo (customRepoMap C1) t).
  { unfold mergeRepo. destruct (customRepoMap C1 !! _) as [cv|].
    - apply normalizeNamespace_overlay, normalizeNamespace_idemp.
    - apply normalizeNamespace_idemp. }
  rewrite Hnorm.
  assert (Hkey : templateRepoKey (mergeRepo (customRepoMap C1) t)
                 = templateRepoKey (normalizeNamespace t)).
  { apply templateRepoKey_meta.
    destruct (mergeRepo_meta (customRepoMap C1) t) as [-> _].
    symmetry. destruct (mergeRepo_meta ∅ t) as [Hm _].
    unfold mergeRepo in Hm. by rewrite lookup_empty in Hm. }
  rewrite Hkey. rewrite !customRepoMap_lookup, customFor_app.
  destruct (customFor C2 _) as [c2|]; simpl.
  - unfold mergeRepo. rewrite customRepoMap_lookup.
    by destruct (customFor C1 _).
  - unfold mergeRepo. by rewrite customRepoMap_lookup.
Qed.

Lemma mergeRepos_app (templateRepos custom1 custom2 : list Repository) :
  mergeRepos (mergeRepos templateRepos custom1) custom2
  = mergeRepos templateRepos (custom1 ++ custom2).
Proof.
  unfold mergeRepos. rewrite map_map. apply map_ext. intros t. apply mergeRepo_sequential.
Qed.

Lemma mergeRepos_same_custom (templateRepos custom : list Repository) :
  mergeRepos (mergeRepos templateRepos custom) custom = mergeRepos templateRepos custom.
Proof.
  rewrite mergeRepos_app. unfold mergeRepos. apply map_ext. intros t.
  unfold mergeRepo. rewrite !customRepoMap_lookup, customFor_app.
  by destruct (customFor custom _).
Qed.

(** Merging one custom list and then another into the template is merging
    their concatenation, a later custom repository replacing an earlier one
    with the same key; merging the same custom list again changes nothing. *)
Theorem mergeRepos_sequential (templateRepos custom1 custom2 : list Repository) :
  mergeRepos (mergeRepos templateRepos custom1) custom2
  = mergeRepos templateRepos (custom1 ++ custom2)
  /\ mergeRepos (mergeRepos templateRepos custom1) custom1 = mergeRepos templateRepos custom1.
Proof. split; [apply mergeRepos_app|apply mergeRepos_same_custom]. Qed.

(** ** The outputs every build task declares *)

Lemma elem_of_keyMap (k : string) (l : list Output) :
  k ∈ (list_to_set (map out_Name l) : gset string) <-> k ∈ map out_Name l.
Proof. apply elem_of_list_to_set. Qed.

Lemma ensureBuildInOutputs_shape (outputs : list Output) :
  exists extra,
    ensureBuildInOutputs outputs = outputs ++ extra
    /\ length extra <= 3
    /\ NoDup (map out_Name extra)
    /\ (forall o, o ∈ extra ->
          (out_Name o ∉ map out_Name outputs)
          /\ (out_Name o = IMAGEKEY \/ out_Name o = IMAGETAGKEY \/ out_Name o = PKGFILEKEY))
    /\ IMAGEKEY ∈ map out_Name (ensureBuildInOutputs outputs)
    /\ IMAGETAGKEY ∈ map out_Name (ensureBuildInOutputs outputs)
    /\ PKGFILEKEY ∈ map out_Name (ensureBuildInOutputs outputs).
Proof.
  unfold ensureBuildInOutputs. cbn zeta.
  set (keyMap := list_to_set (map out_Name outputs) : gset string).
  exists ((if decide (IMAGEKEY ∈ keyMap) then [] else [mkOutput IMAGEKEY])
          ++ (if decide (IMAGETAGKEY ∈ keyMap) then [] else [mkOutput IMAGETAGKEY])
          ++ (if decide (PKGFILEKEY ∈ keyMap) then [] else [mkOutput PKGFILEKEY])).
  unfold keyMap.
  destruct (decide (IMAGEKEY ∈ _)) as [H1|H1]; destruct (decide (IMAGETAGKEY ∈ _)) as [H2|H2];
    destruct (decide (PKGFILEKEY ∈ _)) as [H3|H3];
    rewrite elem_of_keyMap in H1, H2, H3; simpl; rewrite ?app_nil_r, <- ?app_assoc; simpl;
    (split; [reflexivity|]); (split; [lia|]);
    (split; [repeat constructor; set_solver|]);
    (split; [intros o Ho; set_solver|]);
    rewrite ?List.map_app; simpl; set_solver.
Qed.

(** [ensureBuildInOutputs] keeps the declared outputs, in order, and appends
    those of [IMAGE], [imageTag] and [PKG_FILE] that are not declared yet, each
    once: the result declares the three of them, repeats no name that the
    given outputs did not repeat, and is left unchanged by a second call. *)
Theorem ensureBuildInOutputs_declares_builtin_outputs (outputs : list Output) :
  let r := ensureBuildInOutputs outputs in
  (exists extra,
     r = outputs ++ extra
     /\ length extra <= 3
     /\ NoDup (map out_Name extra)
     /\ forall o, o ∈ extra ->
          (out_Name o ∉ map out_Name outputs)
          /\ (out_Name o = IMAGEKEY \/ out_Name o = IMAGETAGKEY \/ out_Name o = PKGFILEKEY))
  /\ IMAGEKEY ∈ map out_Name r /\ IMAGETAGKEY ∈ map out_Name r /\ PKGFILEKEY ∈ map out_Name r
  /\ (NoDup (map out_Name outputs) -> NoDup (map out_Name r))
  /\ ensureBuildInOutputs r = r.
Proof.
  intros r.
  destruct (ensureBuildInOutputs_shape outputs)
    as (extra & Hr & Hlen & Hnd & Hextra & HI & HT & HP).
  fold r in Hr, HI, HT, HP.
  split; [by exists extra|]. split; [done|]. split; [done|]. split; [done|]. split.
  - intros Hout. rewrite Hr, List.map_app. apply NoDup_app. split; [done|].
    split; [|done]. intros k Hk Hk'.
    apply list_elem_of_fmap in Hk' as (o & -> & Ho). by destruct (Hextra o Ho).
  - unfold ensureBuildInOutputs. cbn zeta.
    rewrite !decide_True by (by apply elem_of_keyMap). done.
Qed.

(** ** Idempotence of [SetPreset] on plain build configurations *)

(** [SetPreset] is idempotent on plain build configurations: when every
    build configuration the selection names is found without a template and
    repeats neither a repository key nor a variable key, running [SetPreset]
    on the job it returned returns that job again. *)
Theorem SetPreset_idempotent_on_plain_builds
    (cat : Catalog) (MergeBuildEnvs : list KeyVal -> list KeyVal -> list KeyVal)
    (j j1 : BuildJob) (s : ZadigBuildJobSpec) :
  job_Spec (job j) = SpecBuild s ->
  (forall b B, b ∈ ServiceAndBuilds s ->
     BuildColl_Find cat (sab_BuildName b) (wf_Project (workflow j)) = Found B ->
     plainBuild B) ->
  SetPreset cat MergeBuildEnvs j = Ok j1 ->
  SetPreset cat MergeBuildEnvs j1 = Ok j1.
Proof.
  intros Hspec Hplain Hrun. unfold SetPreset in Hrun. rewrite Hspec in Hrun. simpl in Hrun.
  set (project := wf_Project (workflow j)) in *.
  destruct (GetMaxRevisionsServicesMap cat project) as [m|] eqn:Hm; [|done].
  simpl in Hrun.
  set (L := ServiceAndBuilds s) in *.
  assert (Hfound : forall b B, foundBuild cat project (sab_BuildName b) = Some B ->
                               BuildColl_Find cat (sab_BuildName b) project = Found B).
  { intros b B. unfold foundBuild. destruct (BuildColl_Find _ _ _); [|done]. congruence. }
  assert (Hplain' : forall b B, b ∈ L -> foundBuild cat project (sab_BuildName b) = Some B ->
                                plainBuild B).
  { intros b B Hb HB. eapply Hplain; [exact Hb|]. by apply Hfound. }
  assert (Hnt : Forall (nonTemplate cat project) L).
  { apply Forall_forall. intros b Hb B HB. by destruct (Hplain' b B Hb HB). }
  destruct (SetPreset_loop cat MergeBuildEnvs project m emptyHeap [] L) as [r| |] eqn:Hloop;
    [|done|done].
  destruct (SetPreset_loop_out cat MergeBuildEnvs project m L r Hnt Hloop) as [Hpre Hout].
  destruct r as [h cells]. simpl in Hrun, Hout. rewrite Hout in Hrun.
  inversion Hrun as [Hj1]. clear Hrun.
  set (L' := omap (presetOut cat project m L) L) in *.
  destruct (presetOut_properties cat project m L Hnt Hpre) as [Hnt' Hpre'].
  fold L' in Hnt', Hpre'.
  destruct (SetPreset_loop_total cat MergeBuildEnvs project m L' Hnt' Hpre') as [r' Hloop'].
  destruct (SetPreset_loop_out cat MergeBuildEnvs project m L' r' Hnt' Hloop') as [_ Hout'].
  unfold SetPreset. simpl. fold project. rewrite Hm. simpl. fold L'. rewrite Hloop'. simpl.
  destruct r' as [h' cells']. simpl in Hout'. rewrite Hout'.
  rewrite (omap_fixed (presetOut cat project m L') L');
    [done|]. intros b' Hb'. by apply (presetOut_fixed cat project m L Hplain' Hpre).
Qed.

(** A catalog with one build of two repositories in different namespaces. *)
Definition upstreamRepo : Repository :=
  mkRepository "github" "koderover" "" "zadig" "origin" "main" "" 0%Z [] "" "" [].

Definition forkRepo : Repository :=
  mkRepository "github" "fork" "" "zadig" "fork" "main" "" 0%Z [] "" "fork" [].

Definition twoReposBuild : Build :=
  mkBuild "build-two" "" 60 [mkServiceModuleTarget "svc" "mod" [] []]
    [upstreamRepo; forkRepo] (Some scenarioPreBuild) "shell" "make build" None false "" ""
    [] "" [].

Definition presetCatalog : Catalog :=
  mkCatalog
    (GetMaxRevisionsServicesMap scenarioCatalog)
    (fun name project =>
       if streq name "build-two" then Found twoReposBuild
       else NotFound "mongo: no documents in result")
    (BuildTemplateColl_Find scenarioCatalog)
    (FindRegistryById scenarioCatalog)
    (ListRegistryNamespaces scenarioCatalog)
    (S3StorageColl_FindDefault scenarioCatalog)
    (S3StorageColl_Find scenarioCatalog)
    (BasicImageColl_Find scenarioCatalog)
    (K8SClusterColl_Get scenarioCatalog).

(** The user selects the branch [dev] of the fork and sets [GOFLAGS]. *)
Definition presetSelection : list ServiceAndBuild :=
  [mkServiceAndBuild "svc" "mod" "build-two" "" "" ""
     [mkKeyVal "GOFLAGS" "-mod=mod" "string" false []]
     [mkRepository "github" "fork" "" "zadig" "" "dev" "" 0%Z [] "" "" []] "";
   mkServiceAndBuild "svc" "mod" "build-gone" "" "" "" [] [] ""].

Definition presetJob : BuildJob :=
  mkBuildJob
    (mkJob "build" "zadig-build" (SpecBuild (mkZadigBuildJobSpec "reg-1" presetSelection [])) None)
    (mkWorkflowV4 "wf" "wf" "proj" [])
    emptyBuildSpec.

Lemma SetPreset_idempotent_on_plain_builds_witness :
  exists j1,
    SetPreset presetCatalog keepTemplateEnvs presetJob = Ok j1
    /\ selectedBranches j1 = [["main"; "dev"]]
    /\ SetPreset presetCatalog keepTemplateEnvs j1 = Ok j1.
Proof.
  destruct (SetPreset presetCatalog keepTemplateEnvs presetJob) as [j1| |] eqn:E1;
    [|vm_compute in E1; discriminate|vm_compute in E1; discriminate].
  exists j1. split; [reflexivity|]. split.
  - vm_compute in E1. inversion E1. reflexivity.
  - apply (SetPreset_idempotent_on_plain_builds presetCatalog keepTemplateEnvs presetJob j1
             (mkZadigBuildJobSpec "reg-1" presetSelection []) eq_refl); [|exact E1].
    intros b B Hb HB. simpl in HB.
    destruct (streq (sab_BuildName b) "build-two"); [|discriminate].
    inversion HB; subst B. split; [reflexivity|]. split.
    + apply (bool_decide_unpack _). vm_compute. reflexivity.
    + intros pb Hpb. inversion Hpb; subst pb. simpl. repeat constructor. set_solver.
Defined.

(** ** Merging submitted arguments into the build job *)

(** What identifies a selected build: build, service and module name. *)
Definition buildNames (b : ServiceAndBuild) : string * string * string :=
  (sab_BuildName b, sab_ServiceName b, sab_ServiceModule b).

Lemma MergeArgs_match_names (b b' a : ServiceAndBuild) :
  buildNames b' = buildNames b -> MergeArgs_match b' a = MergeArgs_match b a.
Proof. unfold buildNames, MergeArgs_match. intros H. inversion H. congruence. Qed.

Lemma MergeArgs_match_spec (b a : ServiceAndBuild) :
  MergeArgs_match b a = true <-> buildNames b = buildNames a.
Proof.
  unfold MergeArgs_match, buildNames. rewrite !andb_true_iff, !streq_true.
  split; [intros [[-> ->] ->]; done|intros H; inversion H; done].
Qed.

Lemma find_ext_fun {A : Type} (f g : A -> bool) (l : list A) :
  (forall x, f x = g x) -> List.find f l = List.find g l.
Proof. intros Hext. induction l as [|x l IH]; simpl; [done|]. by rewrite Hext, IH. Qed.

Lemma MergeArgs_build_names (A : list ServiceAndBuild) (b b' : ServiceAndBuild) :
  MergeArgs_build A b = Some b' ->
  buildNames b' = buildNames b
  /\ sab_Image b' = sab_Image b /\ sab_Package b' = sab_Package b
  /\ sab_ImageName b' = sab_ImageName b
  /\ sab_ShareStorageInfo b' = sab_ShareStorageInfo b
  /\ map Key (sab_KeyVals b') = map Key (sab_KeyVals b)
  /\ length (sab_Repos b') = length (sab_Repos b).
Proof.
  unfold MergeArgs_build. destruct (List.find _ A) as [a|]; [|done].
  intros H. inversion H. simpl. repeat split; try done.
  - rewrite renderKeyVals_map, map_map. simpl. done.
  - unfold mergeRepos. by rewrite length_map.
Qed.

Lemma MergeArgs_build_fixed (A : list ServiceAndBuild) (b b' : ServiceAndBuild) :
  MergeArgs_build A b = Some b' -> MergeArgs_build A b' = Some b'.
Proof.
  intros Hb. pose proof (MergeArgs_build_names A b b' Hb) as (Hn & _).
  unfold MergeArgs_build in *.
  rewrite (find_ext_fun (MergeArgs_match b') (MergeArgs_match b))
    by (intros a; by apply MergeArgs_match_names).
  destruct (List.find (MergeArgs_match b) A) as [a|]; [|done].
  inversion Hb as [Hb']. simpl. f_equal.
  by rewrite mergeRepos_same_custom, renderKeyVals_same_input.
Qed.

(** [MergeArgs] is idempotent: merging the same arguments into the job it
    returned returns that job again. *)
Theorem MergeArgs_idempotent (j j1 : BuildJob) (args : Job) :
  MergeArgs j args = Ok j1 -> MergeArgs j1 args = Ok j1.
Proof.
  unfold MergeArgs.
  destruct (streq (job_Name (job j)) (job_Name args)
            && streq (job_JobType (job j)) (job_JobType args)) eqn:Hcond.
  - destruct (IToi_build (job_Spec (job j))) as [s| |] eqn:Hs; simpl; [|intros; discriminate|intros; discriminate].
    destruct (IToi_build (job_Spec args)) as [a| |] eqn:Ha; simpl; [|intros; discriminate|intros; discriminate].
    intros H. inversion H as [Hj1]. clear H Hj1. simpl. rewrite Hcond. simpl.
    rewrite (omap_fixed (MergeArgs_build (ServiceAndBuilds a))
               (omap (MergeArgs_build (ServiceAndBuilds a)) (ServiceAndBuilds s))); [done|].
    intros b' Hb'. apply list_elem_of_omap in Hb' as (b & _ & Hb).
    by apply (MergeArgs_build_fixed _ b).
  - intros H. inversion H; subst j1. by rewrite Hcond.
Qed.

Lemma omap_names (A : list ServiceAndBuild) (L : list ServiceAndBuild) :
  map buildNames (omap (MergeArgs_build A) L)
  = filter (fun n => n ∈ map buildNames A) (map buildNames L).
Proof.
  induction L as [|b L IH]; [done|]. cbn [omap list_omap map].
  destruct (MergeArgs_build A b) as [b'|] eqn:Hb.
  - destruct (MergeArgs_build_names A b b' Hb) as (Hn & _).
    rewrite filter_cons_True.
    + cbn [map]. by rewrite Hn, IH.
    + unfold MergeArgs_build in Hb.
      destruct (List.find (MergeArgs_match b) A) as [a|] eqn:Hf; [|done].
      apply find_some in Hf as [Hin Hm]. apply MergeArgs_match_spec in Hm.
      rewrite Hm. apply list_elem_of_fmap. exists a. split; [done|].
      by apply list_elem_of_In.
  - rewrite filter_cons_False; [done|].
    intros Hin. apply list_elem_of_fmap in Hin as (a & Ha & Hin).
    unfold MergeArgs_build in Hb.
    destruct (List.find (MergeArgs_match b) A) as [a'|] eqn:Hf; [done|].
    apply list_elem_of_In in Hin.
    pose proof (find_none _ _ Hf a Hin) as Hm.
    assert (MergeArgs_match b a = true) by (by apply MergeArgs_match_spec).
    congruence.
Qed.

(** [MergeArgs] with arguments for the same job (same name and type): the
    selection becomes the builds of the job that the arguments name by build,
    service and module, in the job's order; no build is added; each kept build
    keeps its image, package and variable keys and the number of its
    repositories; the registry and the options stay.  Arguments for another
    job leave the job as it is. *)
Theorem MergeArgs_keeps_named_builds
    (j : BuildJob) (args : Job) (s a : ZadigBuildJobSpec) :
  job_Spec (job j) = SpecBuild s ->
  job_Spec args = SpecBuild a ->
  (job_Name (job j) <> job_Name args \/ job_JobType (job j) <> job_JobType args ->
   MergeArgs j args = Ok j)
  /\ (job_Name (job j) = job_Name args -> job_JobType (job j) = job_JobType args ->
      exists j1,
        MergeArgs j args = Ok j1
        /\ job_Spec (job j1) = SpecBuild (spec j1)
        /\ DockerRegistryID (spec j1) = DockerRegistryID s
        /\ ServiceAndBuildsOptions (spec j1) = ServiceAndBuildsOptions s
        /\ map buildNames (ServiceAndBuilds (spec j1))
           = filter (fun n => n ∈ map buildNames (ServiceAndBuilds a))
                    (map buildNames (ServiceAndBuilds s))
        /\ forall b', b' ∈ ServiceAndBuilds (spec j1) ->
             exists b, b ∈ ServiceAndBuilds s
               /\ buildNames b' = buildNames b
               /\ sab_Image b' = sab_Image b /\ sab_Package b' = sab_Package b
               /\ sab_ImageName b' = sab_ImageName b
               /\ sab_ShareStorageInfo b' = sab_ShareStorageInfo b
               /\ map Key (sab_KeyVals b') = map Key (sab_KeyVals b)
               /\ length (sab_Repos b') = length (sab_Repos b)).
Proof.
  intros Hs Ha. unfold MergeArgs. split.
  - intros [Hne|Hne].
    + by rewrite (proj2 (streq_false _ _) Hne).
    + rewrite (proj2 (streq_false (job_JobType (job j)) _) Hne). by rewrite andb_false_r.
  - intros Hn Ht. rewrite Hn, Ht, !streq_refl, Hs, Ha. simpl.
    eexists. split; [reflexivity|]. simpl. repeat split; try done.
    + apply omap_names.
    + intros b' Hb'. apply list_elem_of_omap in Hb' as (b & Hb & Hout).
      exists b. split; [done|]. by apply (MergeArgs_build_names (ServiceAndBuilds a)).
Qed.

(** ** Merging the repository of a webhook *)

Lemma mergeRepo_singleton (w r : Repository) :
  mergeRepo (customRepoMap [w]) r
  = if decide (templateRepoKey r = templateRepoKey w)
    then overlaySelection w (normalizeNamespace r)
    else normalizeNamespace r.
Proof.
  unfold mergeRepo. rewrite customRepoMap_lookup. unfold customFor.
  rewrite templateRepoKey_normalize.
  destruct (decide (templateRepoKey r = templateRepoKey w)) as [Hk|Hk].
  - rewrite filter_cons_True by (by rewrite customRepoKey_normalize). simpl.
    unfold overlaySelection.
    pose proof (normalizeNamespace_fields w) as Hw. cbn zeta in Hw.
    destruct Hw as (_ & _ & _ & _ & -> & -> & -> & -> & -> & _). done.
  - rewrite filter_cons_False by (by rewrite customRepoKey_normalize). done.
Qed.

(** [MergeWebhookRepo] touches the repositories only: in every selected
    build, a repository with the key (source, namespace, name) of the webhook
    repository takes its branch, tag, pull requests and filter, and every
    other repository keeps its own; nothing else of the job changes, and a
    second call with the same repository changes nothing. *)
Theorem MergeWebhookRepo_overrides_matching_repositories
    (j : BuildJob) (s : ZadigBuildJobSpec) (webhookRepo : Repository) :
  job_Spec (job j) = SpecBuild s ->
  exists j1,
    MergeWebhookRepo j webhookRepo = Ok j1
    /\ MergeWebhookRepo j1 webhookRepo = Ok j1
    /\ DockerRegistryID (spec j1) = DockerRegistryID s
    /\ ServiceAndBuildsOptions (spec j1) = ServiceAndBuildsOptions s
    /\ length (ServiceAndBuilds (spec j1)) = length (ServiceAndBuilds s)
    /\ forall i b, ServiceAndBuilds s !! i = Some b ->
         exists b',
           ServiceAndBuilds (spec j1) !! i = Some b'
           /\ b' = withReposValue b (sab_Repos b')
           /\ sab_Repos b'
              = map (fun r =>
                       if decide (templateRepoKey r = templateRepoKey webhookRepo)
                       then overlaySelection webhookRepo (normalizeNamespace r)
                       else normalizeNamespace r)
                    (sab_Repos b).
Proof.
  intros Hs. unfold MergeWebhookRepo. rewrite Hs. simpl.
  eexists. split; [reflexivity|]. simpl. split.
  - rewrite map_map.
    match goal with
    | |- context [map ?f (ServiceAndBuilds s)] =>
        lazymatch f with
        | context [withReposValue (withReposValue _ _) _] =>
            rewrite (map_ext f (fun build =>
                       withReposValue build (mergeRepos (sab_Repos build) [webhookRepo])))
        end
    end; [done|].
    intros b. simpl.
    by rewrite mergeRepos_same_custom.
  - repeat split; try done; [by rewrite length_map|].
    intros i b Hb. eexists. split; [by rewrite list_lookup_fmap, Hb|]. simpl.
    split; [done|]. unfold mergeRepos. apply map_ext. intros r.
    apply mergeRepo_singleton.
Qed.

(** A configured job with two selected builds, the arguments a user submits
    for the first of them, and a webhook event on the fork. *)
Definition configuredSelection : list ServiceAndBuild :=
  [mkServiceAndBuild "svc" "mod" "build-two" "" "" "mod-image"
     [mkKeyVal "GOFLAGS" "-mod=vendor" "string" false []] [upstreamRepo; forkRepo] "";
   mkServiceAndBuild "svc" "cli" "build-two" "" "" "cli"
     [mkKeyVal "GOFLAGS" "-mod=vendor" "string" false []] [upstreamRepo] ""].

Definition configuredJob : BuildJob :=
  mkBuildJob
    (mkJob "build" "zadig-build"
       (SpecBuild (mkZadigBuildJobSpec "reg-1" configuredSelection [])) None)
    (mkWorkflowV4 "wf" "wf" "proj" [])
    emptyBuildSpec.

Definition submittedArgs : Job :=
  mkJob "build" "zadig-build"
    (SpecBuild
       (mkZadigBuildJobSpec ""
          [mkServiceAndBuild "svc" "mod" "build-two" "" "" ""
             [mkKeyVal "GOFLAGS" "-mod=mod" "string" false [];
              mkKeyVal "DEBUG" "1" "string" false []]
             [mkRepository "github" "fork" "" "zadig" "" "dev" "" 0%Z [] "" "" []] ""]
          []))
    None.

Definition webhookEventRepo : Repository :=
  mkRepository "github" "" "koderover" "zadig" "" "hotfix" "" 42%Z [42%Z] "" "" [].

Lemma MergeArgs_idempotent_witness :
  exists j1,
    MergeArgs configuredJob submittedArgs = Ok j1
    /\ selectedBranches j1 = [["main"; "dev"]]
    /\ MergeArgs j1 submittedArgs = Ok j1.
Proof.
  eexists. split; [reflexivity|]. split; [vm_compute; reflexivity|].
  apply (MergeArgs_idempotent configuredJob). reflexivity.
Defined.

Lemma MergeArgs_keeps_named_builds_witness :
  exists j1,
    MergeArgs configuredJob submittedArgs = Ok j1
    /\ map buildNames (ServiceAndBuilds (spec j1)) = [("build-two", "svc", "mod")]
    /\ map (fun b => map Key (sab_KeyVals b)) (ServiceAndBuilds (spec j1)) = [["GOFLAGS"]].
Proof.
  destruct (MergeArgs_keeps_named_builds configuredJob submittedArgs
              (mkZadigBuildJobSpec "reg-1" configuredSelection [])
              (mkZadigBuildJobSpec ""
                 [mkServiceAndBuild "svc" "mod" "build-two" "" "" ""
                    [mkKeyVal "GOFLAGS" "-mod=mod" "string" false [];
                     mkKeyVal "DEBUG" "1" "string" false []]
                    [mkRepository "github" "fork" "" "zadig" "" "dev" "" 0%Z [] "" "" []] ""]
                 [])
              eq_refl eq_refl) as [_ Hsame].
  destruct (Hsame eq_refl eq_refl) as (j1 & Hrun & _ & _ & _ & Hnames & _).
  exists j1. split; [exact Hrun|]. split.
  - rewrite Hnames. vm_compute. reflexivity.
  - vm_compute in Hrun. inversion Hrun. vm_compute. reflexivity.
Defined.

Lemma MergeWebhookRepo_overrides_matching_repositories_witness :
  exists j1,
    MergeWebhookRepo configuredJob webhookEventRepo = Ok j1
    /\ MergeWebhookRepo j1 webhookEventRepo = Ok j1
    /\ selectedBranches j1 = [["hotfix"; "main"]; ["hotfix"]].
Proof.
  destruct (MergeWebhookRepo_overrides_matching_repositories configuredJob
              (mkZadigBuildJobSpec "reg-1" configuredSelection []) webhookEventRepo eq_refl)
    as (j1 & Hrun & Hagain & _).
  exists j1. split; [exact Hrun|]. split; [exact Hagain|].
  vm_compute in Hrun. inversion Hrun. vm_compute. reflexivity.
Defined.

(** ** Which selected builds [SetPreset] keeps *)

Section SetPresetSurvival.

Variable cat : Catalog.
Variable MergeBuildEnvs : list KeyVal -> list KeyVal -> list KeyVal.
Variable project : string.
Variable servicesMap : gmap string Service.

Definition isFound {A : Type} (l : Lookup A) : bool :=
  match l with Found _ => true | NotFound _ => false end.

(** A selected build that the loop of [SetPreset] keeps: its build
    configuration is found, the template of the configuration, when it names
    one, is found, and the latest revision of its service is known. *)
Definition resolvable (b : ServiceAndBuild) : bool :=
  match BuildColl_Find cat (sab_BuildName b) project with
  | Found B =>
      (streq (b_TemplateID B) "" || isFound (BuildTemplateColl_Find cat (b_TemplateID B)))
      && bool_decide (is_Some (servicesMap !! sab_ServiceName b))
  | NotFound _ => false
  end.

(** The image name [SetPreset] gives to a kept build. *)
Definition presetImageName (b : ServiceAndBuild) : string :=
  match servicesMap !! sab_ServiceName b with
  | Some service => containerImageName service b
  | None => sab_ServiceModule b
  end.

(** What [SetPreset] keeps of a selected build whatever the catalog holds. *)
Definition presetOf (b b' : ServiceAndBuild) : Prop :=
  buildNames b' = buildNames b
  /\ sab_Image b' = sab_Image b /\ sab_Package b' = sab_Package b
  /\ sab_ShareStorageInfo b' = sab_ShareStorageInfo b
  /\ sab_ImageName b' = presetImageName b.

(** The caches agree with the catalog. *)
Definition cachesAgree (h : Heap) : Prop :=
  (forall n, buildMap h !! n = Some None -> isFound (BuildColl_Find cat n project) = false)
  /\ (forall n obj, buildMap h !! n = Some (Some obj) ->
        exists B, BuildColl_Find cat n project = Found B
                  /\ b_TemplateID (bo_val obj) = b_TemplateID B)
  /\ (forall tid t, buildTemplateMap h !! tid = Some t ->
        isFound (BuildTemplateColl_Find cat tid) = true).

Lemma cachesAgree_empty : cachesAgree emptyHeap.
Proof.
  repeat split; intros *; change (buildMap emptyHeap) with (∅ : gmap string (option BuildObj));
    change (buildTemplateMap emptyHeap) with (∅ : gmap string BuildTemplate);
    by rewrite lookup_empty.
Qed.

Lemma cachesAgree_storeBuild (h : Heap) (n : string) (obj : BuildObj) (B : Build) :
  cachesAgree h -> BuildColl_Find cat n project = Found B ->
  b_TemplateID (bo_val obj) = b_TemplateID B ->
  cachesAgree (storeBuild h n (Some obj)).
Proof.
  intros (Hnone & Hsome & Htmpl) HB Htid. repeat split; simpl.
  - intros n' Hn'. destruct (decide (n' = n)) as [->|Hne].
    + by rewrite lookup_insert_eq in Hn'.
    + rewrite lookup_insert_ne in Hn' by done. by apply Hnone.
  - intros n' obj' Hn'. destruct (decide (n' = n)) as [->|Hne].
    + rewrite lookup_insert_eq in Hn'. inversion Hn'; subst. by exists B.
    + rewrite lookup_insert_ne in Hn' by done. by apply Hsome.
  - exact Htmpl.
Qed.

Lemma cachesAgree_storeTemplate (h : Heap) (tid : string) (t : BuildTemplate) :
  cachesAgree h -> isFound (BuildTemplateColl_Find cat tid) = true ->
  cachesAgree (storeTemplate h tid t).
Proof.
  intros (Hnone & Hsome & Htmpl) Ht. repeat split; simpl; [exact Hnone|exact Hsome|].
  intros tid' t' Ht'. destruct (decide (tid' = tid)) as [->|Hne]; [done|].
  rewrite lookup_insert_ne in Ht' by done. by eapply Htmpl.
Qed.

Lemma loadBuildOrSkip_agree (h h1 : Heap) (name : string) (o : option BuildObj) :
  cachesAgree h -> loadBuildOrSkip cat project h name = (h1, o) ->
  match o with
  | Some obj =>
      cachesAgree h1
      /\ exists B, BuildColl_Find cat name project = Found B
                   /\ b_TemplateID (bo_val obj) = b_TemplateID B
  | None => cachesAgree h1 /\ isFound (BuildColl_Find cat name project) = false
  end.
Proof.
  intros Hh. pose proof Hh as (Hnone & Hsome & Htmpl). unfold loadBuildOrSkip.
  destruct (buildMap h !! name) as [[obj|]|] eqn:Hn; intros H.
  - inversion H; subst. split; [done|]. by apply Hsome.
  - inversion H; subst. split; [done|]. by apply Hnone.
  - destruct (BuildColl_Find cat name project) as [B|e] eqn:HB; inversion H; subst.
    + split; [by eapply cachesAgree_storeBuild|]. by exists B.
    + split; [|done]. repeat split; simpl; [| |exact Htmpl].
      * intros n' Hn'. destruct (decide (n' = name)) as [->|Hne]; [by rewrite HB|].
        rewrite lookup_insert_ne in Hn' by done. by apply Hnone.
      * intros n' obj' Hn'. destruct (decide (n' = name)) as [->|Hne].
        -- by rewrite lookup_insert_eq in Hn'.
        -- rewrite lookup_insert_ne in Hn' by done. by apply Hsome.
Qed.

Lemma mergeEnvsInPlace_agree (h h' : Heap) (obj obj' : BuildObj) (envs : list KeyVal) :
  cachesAgree h -> mergeEnvsInPlace MergeBuildEnvs h obj envs = (h', obj') ->
  cachesAgree h' /\ b_TemplateID (bo_val obj') = b_TemplateID (bo_val obj)
  /\ buildMap h' = buildMap h.
Proof.
  intros Hh. unfold mergeEnvsInPlace. destruct (bo_PreBuild obj) as [|tid].
  - intros H. inversion H; subst. done.
  - destruct (buildTemplateMap h !! tid) as [t|] eqn:Ht; intros H; inversion H; subst;
      [|done].
    split; [|done]. apply cachesAgree_storeTemplate; [done|].
    destruct Hh as (_ & _ & Htmpl). by eapply Htmpl.
Qed.

Lemma fillBuildDetail_agree (h : Heap) (obj : BuildObj) (serviceName serviceModule : string) :
  cachesAgree h ->
  match fillBuildDetail cat MergeBuildEnvs h obj serviceName serviceModule with
  | Ok (h', obj') =>
      cachesAgree h' /\ b_TemplateID (bo_val obj') = b_TemplateID (bo_val obj)
      /\ buildMap h' = buildMap h
      /\ (streq (b_TemplateID (bo_val obj)) ""
          || isFound (BuildTemplateColl_Find cat (b_TemplateID (bo_val obj)))) = true
  | Err _ =>
      (streq (b_TemplateID (bo_val obj)) ""
       || isFound (BuildTemplateColl_Find cat (b_TemplateID (bo_val obj)))) = false
  | Panic => False
  end.
Proof.
  intros Hh. unfold fillBuildDetail.
  destruct (streq (b_TemplateID (bo_val obj)) "") eqn:Etid; [done|]. simpl.
  set (tid := b_TemplateID (bo_val obj)) in *.
  assert (Hload :
    match (match buildTemplateMap h !! tid with
           | Some t => Ok (h, t)
           | None =>
               match BuildTemplateColl_Find cat tid with
               | Found t => Ok (storeTemplate h tid t, t)
               | NotFound err =>
                   Err ("failed to find build template with id: " +:+ tid +:+ ", err: " +:+ err)
               end
           end : Result (Heap * BuildTemplate)) with
    | Ok (h1, t) =>
        cachesAgree h1 /\ buildMap h1 = buildMap h
        /\ isFound (BuildTemplateColl_Find cat tid) = true
    | Err _ => isFound (BuildTemplateColl_Find cat tid) = false
    | Panic => False
    end).
  { destruct (buildTemplateMap h !! tid) as [t|] eqn:Ht.
    - split; [done|]. split; [done|]. destruct Hh as (_ & _ & Htmpl). by eapply Htmpl.
    - destruct (BuildTemplateColl_Find cat tid) as [t|e] eqn:Hf; [|done].
      split; [|done]. apply cachesAgree_storeTemplate; [done|]. by rewrite Hf. }
  destruct (match buildTemplateMap h !! tid with Some t => _ | None => _ end)
    as [[h1 t]|e|]; simpl; [|done|done].
  destruct Hload as (Hh1 & Hmap & Hfound).
  destruct (findTarget _ serviceName serviceModule) as [[jt serviceConfig]|].
  - destruct (mergeEnvsInPlace MergeBuildEnvs h1 _ (smt_Envs serviceConfig)) as [h2 obj2] eqn:Hm.
    apply mergeEnvsInPlace_agree in Hm as (Hh2 & Htid2 & Hmap2); [|done].
    split; [done|]. split; [done|]. split; [congruence|done].
  - done.
Qed.

Lemma writeRepos_TemplateID (obj : BuildObj) (repos : list Repository) :
  b_TemplateID (bo_val (writeRepos obj repos)) = b_TemplateID (bo_val obj).
Proof. unfold writeRepos. by destruct (bo_Repos obj). Qed.

(** One iteration: a build is kept exactly when it is resolvable, and then
    with its names, image, package and storage info, and the preset image
    name. *)
Lemma SetPreset_body_keeps (h h' : Heap) (b : ServiceAndBuild) (c : option BuildCell) :
  cachesAgree h ->
  SetPreset_body cat MergeBuildEnvs project servicesMap h b = Ok (h', c) ->
  cachesAgree h'
  /\ match c with
     | Some cell => resolvable b = true /\ presetOf b (cell_build cell)
     | None => resolvable b = false
     end.
Proof.
  intros Hh. unfold SetPreset_body, resolvable.
  destruct (loadBuildOrSkip cat project h (sab_BuildName b)) as [h1 o] eqn:Hload.
  apply loadBuildOrSkip_agree in Hload; [|done].
  destruct o as [buildInfo|].
  2:{ destruct Hload as [Hh1 Hnot]. intros H. inversion H; subst. split; [done|].
      by destruct (BuildColl_Find cat (sab_BuildName b) project). }
  destruct Hload as (Hh1 & B & HB & Htid). rewrite HB.
  pose proof (fillBuildDetail_agree h1 buildInfo (sab_ServiceName b) (sab_ServiceModule b) Hh1)
    as Hfill.
  destruct (fillBuildDetail cat MergeBuildEnvs h1 buildInfo _ _) as [[h2 buildInfo2]|e|];
    [| |done].
  2:{ intros H. inversion H; subst. split; [done|]. by rewrite <- Htid, Hfill. }
  destruct Hfill as (Hh2 & Htid2 & Hmap2 & Htmpl). rewrite <- Htid, Htmpl. simpl.
  assert (Hstore : forall obj, b_TemplateID (bo_val obj) = b_TemplateID (bo_val buildInfo2) ->
                               cachesAgree (storeBuild h2 (sab_BuildName b) (Some obj))).
  { intros obj Hobj. eapply cachesAgree_storeBuild; [done|exact HB|]. congruence. }
  destruct (findTarget (b_Targets (bo_val buildInfo2)) _ _) as [target|].
  - match goal with
    | |- context [curPreBuild ?h3 ?o3] => destruct (curPreBuild h3 o3) as [pb|]
    end; simpl; [|intros; discriminate].
    destruct (servicesMap !! sab_ServiceName b) as [service|] eqn:Hsvc;
      intros H; inversion H; subst.
    + split; [apply Hstore, writeRepos_TemplateID|].
      split; [by rewrite bool_decide_eq_true_2 by done|].
      unfold presetOf, presetImageName, buildNames. simpl. by rewrite Hsvc.
    + split; [apply Hstore, writeRepos_TemplateID|].
      by rewrite bool_decide_eq_false_2 by (by intros [? ?]).
  - simpl. destruct (servicesMap !! sab_ServiceName b) as [service|] eqn:Hsvc;
      intros H; inversion H; subst.
    + split; [by apply Hstore|].
      split; [by rewrite bool_decide_eq_true_2 by done|].
      unfold presetOf, presetImageName, buildNames. simpl. by rewrite Hsvc.
    + split; [by apply Hstore|].
      by rewrite bool_decide_eq_false_2 by (by intros [? ?]).
Qed.

Lemma SetPreset_loop_keeps (L : list ServiceAndBuild) :
  forall (h h' : Heap) (acc out : list BuildCell),
    cachesAgree h ->
    SetPreset_loop cat MergeBuildEnvs project servicesMap h acc L = Ok (h', out) ->
    exists cells,
      out = acc ++ cells
      /\ Forall2 (fun b cell => presetOf b (cell_build cell)) (filter (fun b => resolvable b = true) L)
                 cells.
Proof.
  induction L as [|b L IH]; intros h h' acc out Hh Hrun; simpl in Hrun.
  - inversion Hrun; subst. exists []. rewrite app_nil_r. split; [done|]. constructor.
  - destruct (SetPreset_body cat MergeBuildEnvs project servicesMap h b) as [[h1 c]| |] eqn:Hb;
      [|discriminate|discriminate].
    simpl in Hrun. apply SetPreset_body_keeps in Hb as [Hh1 Hc]; [|done].
    destruct (IH _ _ _ _ Hh1 Hrun) as (cells & -> & Hall).
    destruct c as [cell|].
    + destruct Hc as [Hres Hcell]. exists (cell :: cells). rewrite <- app_assoc.
      split; [done|]. rewrite filter_cons_True by done. by constructor.
    + exists cells. split; [done|]. rewrite filter_cons_False; [done|]. by rewrite Hc.
Qed.

Lemma readCell_presetOf (h : Heap) (b : ServiceAndBuild) (cell : BuildCell) :
  presetOf b (cell_build cell) -> presetOf b (readCell h cell).
Proof.
  unfold readCell. destruct (cell_Repos cell) as [[n r]|]; [|done].
  by destruct (buildMap h !! n) as [[obj|]|].
Qed.

End SetPresetSurvival.

(** The builds [SetPreset] keeps.  When [SetPreset] of a build job returns
    without error, the new selection consists of exactly the selected builds
    that are resolvable, in their order: those whose build configuration is
    found, whose build template, if the configuration names one, is found, and
    whose service has a latest revision; no build is added.  A kept build
    keeps its build, service and module names, its image, package and storage
    info, and its image name is that of the container named like the module,
    else the module name.  The registry and the options are unchanged. *)
Theorem SetPreset_keeps_the_resolvable_builds
    (cat : Catalog) (MergeBuildEnvs : list KeyVal -> list KeyVal -> list KeyVal)
    (j j1 : BuildJob) (s : ZadigBuildJobSpec) (m : gmap string Service) :
  job_Spec (job j) = SpecBuild s ->
  GetMaxRevisionsServicesMap cat (wf_Project (workflow j)) = Found m ->
  SetPreset cat MergeBuildEnvs j = Ok j1 ->
  job_Spec (job j1) = SpecBuild (spec j1)
  /\ DockerRegistryID (spec j1) = DockerRegistryID s
  /\ ServiceAndBuildsOptions (spec j1) = ServiceAndBuildsOptions s
  /\ Forall2 (fun b b' =>
                buildNames b' = buildNames b
                /\ sab_Image b' = sab_Image b /\ sab_Package b' = sab_Package b
                /\ sab_ShareStorageInfo b' = sab_ShareStorageInfo b
                /\ sab_ImageName b' = presetImageName m b)
             (filter (fun b => resolvable cat (wf_Project (workflow j)) m b = true)
                     (ServiceAndBuilds s))
             (ServiceAndBuilds (spec j1)).
Proof.
  intros Hspec Hm Hrun. unfold SetPreset in Hrun. rewrite Hspec, Hm in Hrun. simpl in Hrun.
  destruct (SetPreset_loop _ _ _ _ _ _ _) as [[h cells]| |] eqn:Hloop; [|done|done].
  simpl in Hrun. inversion Hrun; subst j1. clear Hrun. simpl.
  split; [done|]. split; [done|]. split; [done|].
  apply SetPreset_loop_keeps in Hloop as (cells' & -> & Hall); [|apply cachesAgree_empty].
  simpl. clear Hspec. induction Hall as [|b cell L cells Hb _ IH]; simpl; constructor; [|done].
  by apply (readCell_presetOf m h b cell).
Qed.

(** Of the two builds selected in [presetJob], the second names a build
    configuration that does not exist. *)
Lemma SetPreset_keeps_the_resolvable_builds_witness :
  exists j1,
    SetPreset presetCatalog keepTemplateEnvs presetJob = Ok j1
    /\ map buildNames (ServiceAndBuilds (spec j1)) = [("build-two", "svc", "mod")]
    /\ map sab_ImageName (ServiceAndBuilds (spec j1)) = ["mod-image"].
Proof.
  destruct (SetPreset presetCatalog keepTemplateEnvs presetJob) as [j1| |] eqn:E1;
    [|vm_compute in E1; discriminate|vm_compute in E1; discriminate].
  exists j1. split; [reflexivity|].
  destruct (SetPreset_keeps_the_resolvable_builds presetCatalog keepTemplateEnvs presetJob j1
              (mkZadigBuildJobSpec "reg-1" presetSelection [])
              (list_to_map
                 [("a.b", mkService "a.b" [mkContainer "c" "c"]);
                  ("a", mkService "a" [mkContainer "b.c" "b.c"]);
                  ("svc", mkService "svc" [mkContainer "mod" "mod-image"])])
              eq_refl eq_refl E1) as (_ & _ & _ & Hall).
  apply Forall2_cons_inv_l in Hall as (b' & rest & (Hnames & _ & _ & _ & Himage) & Hrest & Heq).
  apply Forall2_nil_inv_l in Hrest. subst rest. rewrite Heq. simpl.
  rewrite Hnames, Himage. split; reflexivity.
Defined.

(** ** Options and latest settings of the build job *)

Section BuildJobLatestFacts.

Variable cat : Catalog.
Variable MergeBuildEnvs : list KeyVal -> list KeyVal -> list KeyVal.
Variable WorkflowV4Coll_Find : string -> option WorkflowV4 * option string.

(** [SetOptions] leaves the selection and the registry of the job as they
    are and lists as options the builds of the stored job of the same name and
    type that are resolvable (build configuration, template if any, and
    service found), in their order, each with its names, image, package and
    storage info and with the image name of its container. *)
Theorem SetOptions_lists_the_resolvable_builds
    (j j1 : BuildJob) (s : ZadigBuildJobSpec) :
  job_Spec (job j) = SpecBuild s ->
  SetOptions cat MergeBuildEnvs WorkflowV4Coll_Find j = Ok j1 ->
  exists originalWorkflow storedJob originalSpec m,
    fst (WorkflowV4Coll_Find (wf_Name (workflow j))) = Some originalWorkflow
    /\ findStoredJob (wf_Stages originalWorkflow) (job_Name (job j)) (job_JobType (job j))
       = Some storedJob
    /\ job_Spec storedJob = SpecBuild originalSpec
    /\ GetMaxRevisionsServicesMap cat (wf_Project (workflow j)) = Found m
    /\ job_Spec (job j1) = SpecBuild (spec j1)
    /\ DockerRegistryID (spec j1) = DockerRegistryID s
    /\ ServiceAndBuilds (spec j1) = ServiceAndBuilds s
    /\ Forall2 (fun b b' =>
                  buildNames b' = buildNames b
                  /\ sab_Image b' = sab_Image b /\ sab_Package b' = sab_Package b
                  /\ sab_ShareStorageInfo b' = sab_ShareStorageInfo b
                  /\ sab_ImageName b' = presetImageName m b)
               (filter (fun b => resolvable cat (wf_Project (workflow j)) m b = true)
                       (ServiceAndBuilds originalSpec))
               (ServiceAndBuildsOptions (spec j1)).
Proof.
  intros Hspec Hrun. unfold SetOptions in Hrun. rewrite Hspec in Hrun. simpl in Hrun.
  destruct (fst (WorkflowV4Coll_Find (wf_Name (workflow j)))) as [originalWorkflow|] eqn:Hw;
    [|discriminate].
  destruct (findStoredJob _ _ _) as [storedJob|] eqn:Hjob; [|discriminate].
  destruct (job_Spec storedJob) as [originalSpec| |] eqn:Hstored; simpl in Hrun;
    try discriminate.
  destruct (GetMaxRevisionsServicesMap cat (wf_Project (workflow j))) as [m|e] eqn:Hm;
    simpl in Hrun; [|discriminate].
  destruct (SetPreset_loop _ _ _ _ _ _ _) as [[h cells]| |] eqn:Hloop; simpl in Hrun;
    [|discriminate|discriminate].
  inversion Hrun; subst j1. clear Hrun. simpl.
  exists originalWorkflow, storedJob, originalSpec, m. repeat split; try done.
  apply SetPreset_loop_keeps in Hloop as (cells' & -> & Hall); [|apply cachesAgree_empty].
  simpl. induction Hall as [|b cell L cells Hb _ IH]; simpl; constructor; [|done].
  by apply (readCell_presetOf m h b cell).
Qed.

(** A build of the stored job that [UpdateWithLatestSetting] keeps: the user
    has selected its service and module, its build configuration is found,
    and so is the template of the configuration when it names one. *)
Definition stillConfigured (project : string) (selection : list ServiceAndBuild)
    (b : ServiceAndBuild) : bool :=
  bool_decide (userServiceKey b ∈ map userServiceKey selection)
  && match BuildColl_Find cat (sab_BuildName b) project with
     | Found B =>
         streq (b_TemplateID B) "" || isFound (BuildTemplateColl_Find cat (b_TemplateID B))
     | NotFound _ => false
     end.

Lemma userConfiguredService_lookup (selection : list ServiceAndBuild) (key : string) :
  is_Some (userConfiguredService selection !! key) <-> key ∈ map userServiceKey selection.
Proof.
  unfold userConfiguredService.
  rewrite (fold_insert_lookup userServiceKey (fun service => service)).
  destruct (last (filter _ selection)) as [x|] eqn:El.
  - split; [|by eexists]. intros _.
    assert (Hin : x ∈ filter (fun x => userServiceKey x = key) selection).
    { apply last_Some in El as [l' ->]. set_solver. }
    apply list_elem_of_filter in Hin as [Hk Hin]. apply list_elem_of_fmap. by exists x.
  - rewrite lookup_empty. split; [by intros [? ?]|].
    intros Hin. apply list_elem_of_fmap in Hin as (x & Hk & Hin).
    apply last_None in El.
    assert (Hf : x ∈ filter (fun x => userServiceKey x = key) selection)
      by (apply list_elem_of_filter; done).
    rewrite El in Hf. by apply not_elem_of_nil in Hf.
Qed.

(** The templates cached so far are templates of the catalog. *)
Definition templatesAgree (h : Heap) : Prop :=
  forall tid t, buildTemplateMap h !! tid = Some t ->
                isFound (BuildTemplateColl_Find cat tid) = true.

Lemma templatesAgree_cachesAgree (project : string) (h : Heap) :
  templatesAgree h -> buildMap h = ∅ -> cachesAgree cat project h.
Proof.
  intros Ht Hb. repeat split; [| |exact Ht]; intros *; rewrite Hb, lookup_empty; done.
Qed.

Lemma UpdateWithLatestSetting_body_keeps (project : string)
    (selection : list ServiceAndBuild) (h h' : Heap) (b : ServiceAndBuild)
    (o : option ServiceAndBuild) :
  templatesAgree h -> buildMap h = ∅ ->
  UpdateWithLatestSetting_body cat MergeBuildEnvs project (userConfiguredService selection) h b
  = Ok (h', o) ->
  templatesAgree h' /\ buildMap h' = ∅
  /\ match o with
     | Some b' =>
         stillConfigured project selection b = true
         /\ buildNames b' = buildNames b
         /\ sab_Image b' = sab_Image b /\ sab_Package b' = sab_Package b
         /\ sab_ImageName b' = sab_ImageName b
         /\ sab_ShareStorageInfo b' = sab_ShareStorageInfo b
     | None => stillConfigured project selection b = false
     end.
Proof.
  intros Ht Hb. unfold UpdateWithLatestSetting_body, stillConfigured.
  destruct (userConfiguredService selection !! userServiceKey b) as [userDefinedArgs|] eqn:Hu.
  2:{ intros H. inversion H; subst. split; [done|]. split; [done|].
      rewrite bool_decide_eq_false_2; [done|]. rewrite <- userConfiguredService_lookup, Hu.
      by intros [? ?]. }
  rewrite bool_decide_eq_true_2 by (rewrite <- userConfiguredService_lookup, Hu; by eexists).
  simpl.
  destruct (BuildColl_Find cat (sab_BuildName b) project) as [latestBuild|e];
    [|intros H; inversion H; subst; done].
  pose proof (fillBuildDetail_agree cat MergeBuildEnvs project h (freshBuildObj latestBuild)
                (sab_ServiceName b) (sab_ServiceModule b)
                (templatesAgree_cachesAgree project h Ht Hb)) as Hfill.
  destruct (fillBuildDetail cat MergeBuildEnvs h (freshBuildObj latestBuild) _ _)
    as [[h2 latestBuild2]|e|]; [| |done].
  2:{ intros H. inversion H; subst. simpl in Hfill. by rewrite Hfill. }
  destruct Hfill as ((_ & _ & Ht2) & _ & Hmap2 & Htmpl). simpl in Htmpl. rewrite Htmpl.
  match goal with
  | |- (?m ≫= _) = _ -> _ => destruct m as [[repos keyVals]| |]
  end; simpl; [|intros; discriminate|intros; discriminate].
  intros H. inversion H; subst. split; [exact Ht2|]. split; [congruence|]. done.
Qed.

Lemma UpdateWithLatestSetting_loop_keeps (project : string)
    (selection : list ServiceAndBuild) (L : list ServiceAndBuild) :
  forall (h : Heap) (acc out : list ServiceAndBuild),
    templatesAgree h -> buildMap h = ∅ ->
    UpdateWithLatestSetting_loop cat MergeBuildEnvs project (userConfiguredService selection)
      h acc L = Ok out ->
    exists kept,
      out = acc ++ kept
      /\ Forall2 (fun b b' =>
                    buildNames b' = buildNames b
                    /\ sab_Image b' = sab_Image b /\ sab_Package b' = sab_Package b
                    /\ sab_ImageName b' = sab_ImageName b
                    /\ sab_ShareStorageInfo b' = sab_ShareStorageInfo b)
                 (filter (fun b => stillConfigured project selection b = true) L) kept.
Proof.
  induction L as [|b L IH]; intros h acc out Ht Hb Hrun; simpl in Hrun.
  - inversion Hrun; subst. exists []. rewrite app_nil_r. split; [done|]. constructor.
  - destruct (UpdateWithLatestSetting_body _ _ _ _ h b) as [[h1 o]| |] eqn:Hbody;
      [|discriminate|discriminate].
    simpl in Hrun. apply UpdateWithLatestSetting_body_keeps in Hbody as (Ht1 & Hb1 & Ho);
      [|done|done].
    destruct (IH _ _ _ Ht1 Hb1 Hrun) as (kept & -> & Hall).
    destruct o as [b'|].
    + destruct Ho as [Hkeep Hfields]. exists (b' :: kept). rewrite <- app_assoc.
      split; [done|]. rewrite filter_cons_True by done. by constructor.
    + exists kept. split; [done|]. rewrite filter_cons_False; [done|]. by rewrite Ho.
Qed.

(** [UpdateWithLatestSetting] of a build job follows the stored job of the
    same name and type: the registry becomes the stored one, and the
    selection becomes the builds of the stored job, in their order, whose
    service and module the user had selected and whose build configuration
    (and template, if any) is found.  No build outside the stored job is ever
    selected; a kept build has the names, image, package, image name and
    storage info of the stored build.  The options are unchanged. *)
Theorem UpdateWithLatestSetting_selects_from_the_stored_job
    (j j1 : BuildJob) (s : ZadigBuildJobSpec) :
  job_Spec (job j) = SpecBuild s ->
  UpdateWithLatestSetting cat MergeBuildEnvs WorkflowV4Coll_Find j = Ok j1 ->
  exists latestWorkflow storedJob latestSpec,
    fst (WorkflowV4Coll_Find (wf_Name (workflow j))) = Some latestWorkflow
    /\ findStoredJob (wf_Stages latestWorkflow) (job_Name (job j)) (job_JobType (job j))
       = Some storedJob
    /\ job_Spec storedJob = SpecBuild latestSpec
    /\ job_Spec (job j1) = SpecBuild (spec j1)
    /\ DockerRegistryID (spec j1) = DockerRegistryID latestSpec
    /\ ServiceAndBuildsOptions (spec j1) = ServiceAndBuildsOptions s
    /\ Forall2 (fun b b' =>
                  buildNames b' = buildNames b
                  /\ sab_Image b' = sab_Image b /\ sab_Package b' = sab_Package b
                  /\ sab_ImageName b' = sab_ImageName b
                  /\ sab_ShareStorageInfo b' = sab_ShareStorageInfo b)
               (filter (fun b => stillConfigured (wf_Project (workflow j))
                                   (ServiceAndBuilds s) b = true)
                       (ServiceAndBuilds latestSpec))
               (ServiceAndBuilds (spec j1)).
Proof.
  intros Hspec Hrun. unfold UpdateWithLatestSetting in Hrun. rewrite Hspec in Hrun.
  simpl in Hrun.
  destruct (fst (WorkflowV4Coll_Find (wf_Name (workflow j)))) as [latestWorkflow|] eqn:Hw;
    [|discriminate].
  destruct (findStoredJob _ _ _) as [storedJob|] eqn:Hjob; [|discriminate].
  destruct (job_Spec storedJob) as [latestSpec| |] eqn:Hstored; simpl in Hrun;
    try discriminate.
  destruct (UpdateWithLatestSetting_loop _ _ _ _ _ _ _) as [merged| |] eqn:Hloop;
    simpl in Hrun; [|discriminate|discriminate].
  inversion Hrun; subst j1. clear Hrun. simpl.
  exists latestWorkflow, storedJob, latestSpec. repeat split; try done.
  apply UpdateWithLatestSetting_loop_keeps in Hloop as (kept & -> & Hall); [done| |done].
  intros tid t Ht. change (buildTemplateMap emptyHeap) with (∅ : gmap string BuildTemplate) in Ht.
  by rewrite lookup_empty in Ht.
Qed.

End BuildJobLatestFacts.

(** The stored workflow of the scenarios: its build job selects the two
    modules of [svc] and a service whose build configuration is gone. *)
Definition storedSelection : list ServiceAndBuild :=
  [mkServiceAndBuild "svc" "mod" "build-two" "" "" "" [] [] "";
   mkServiceAndBuild "svc" "api" "build-two" "" "" "" [] [] "";
   mkServiceAndBuild "svc" "cli" "build-gone" "" "" "" [] [] ""].

Definition storedBuildWorkflows (name : string) : option WorkflowV4 * option string :=
  if streq name "wf"
  then (Some (mkWorkflowV4 "wf" "wf" "proj"
                [mkWorkflowStage "build" false
                   [mkJob "build" "zadig-build"
                      (SpecBuild (mkZadigBuildJobSpec "reg-2" storedSelection [])) None]]),
        None)
  else (None, Some "mongo: no documents in result").

Lemma SetOptions_lists_the_resolvable_builds_witness :
  exists j1,
    SetOptions presetCatalog keepTemplateEnvs storedBuildWorkflows configuredJob = Ok j1
    /\ ServiceAndBuilds (spec j1) = configuredSelection
    /\ map buildNames (ServiceAndBuildsOptions (spec j1))
       = [("build-two", "svc", "mod"); ("build-two", "svc", "api")]
    /\ map sab_ImageName (ServiceAndBuildsOptions (spec j1)) = ["mod-image"; "api"].
Proof.
  destruct (SetOptions presetCatalog keepTemplateEnvs storedBuildWorkflows configuredJob)
    as [j1| |] eqn:E1; [|vm_compute in E1; discriminate|vm_compute in E1; discriminate].
  exists j1. split; [reflexivity|].
  destruct (SetOptions_lists_the_resolvable_builds presetCatalog keepTemplateEnvs
              storedBuildWorkflows configuredJob j1
              (mkZadigBuildJobSpec "reg-1" configuredSelection []) eq_refl E1)
    as (_ & _ & _ & _ & _ & _ & _ & _ & _ & _ & Hsel & _).
  split; [exact Hsel|].
  vm_compute in E1. inversion E1. split; reflexivity.
Defined.

Lemma UpdateWithLatestSetting_selects_from_the_stored_job_witness :
  exists j1,
    UpdateWithLatestSetting presetCatalog keepTemplateEnvs storedBuildWorkflows configuredJob
    = Ok j1
    /\ DockerRegistryID (spec j1) = "reg-2"
    /\ map buildNames (ServiceAndBuilds (spec j1)) = [("build-two", "svc", "mod")].
Proof.
  destruct (UpdateWithLatestSetting presetCatalog keepTemplateEnvs storedBuildWorkflows
              configuredJob)
    as [j1| |] eqn:E1; [|vm_compute in E1; discriminate|vm_compute in E1; discriminate].
  exists j1. split; [reflexivity|].
  destruct (UpdateWithLatestSetting_selects_from_the_stored_job presetCatalog keepTemplateEnvs
              storedBuildWorkflows configuredJob j1
              (mkZadigBuildJobSpec "reg-1" configuredSelection []) eq_refl E1)
    as (latestWorkflow & storedJob & latestSpec & Hw & Hjob & Hstored & _ & Hreg & _).
  vm_compute in Hw. inversion Hw; subst latestWorkflow.
  vm_compute in Hjob. inversion Hjob; subst storedJob.
  inversion Hstored; subst latestSpec.
  split; [exact Hreg|].
  vm_compute in E1. inversion E1. reflexivity.
Defined.

(** ** The repositories [GetRepos] returns *)

Section GetReposFacts.

Variable cat : Catalog.
Variable MergeBuildEnvs : list KeyVal -> list KeyVal -> list KeyVal.
Variable project : string.

(** The slice a selected build contributes to [resp]. *)
Definition reposSlice (b : ServiceAndBuild) : option (string * ReposRef) :=
  if isMatched cat project b then Some (sab_BuildName b, OwnRepos) else None.

(** The selected build as [GetRepos] leaves it in [j.spec]. *)
Definition normalizedSelection (b : ServiceAndBuild) : ServiceAndBuild :=
  if isMatched cat project b
  then withReposValue b (map normalizeNamespace (sab_Repos b))
  else b.

Lemma GetRepos_body_spec (visited : list ServiceAndBuild) (h : Heap) (b : ServiceAndBuild) :
  heapFor cat project visited h -> nonTemplate cat project b ->
  exists h',
    GetRepos_body cat MergeBuildEnvs project h b
    = Ok (h', normalizedSelection b, reposSlice b)
    /\ heapFor cat project (visited ++ [b]) h'.
Proof.
  intros Hh Hnt.
  destruct (load_spec cat project visited h (sab_BuildName b) Hh) as (h1 & Hload & Hl).
  unfold GetRepos_body. rewrite Hload.
  pose proof (heap_step cat project visited b h1 Hl) as Hstep.
  pose proof (heap_step_same cat project visited b h1 Hl) as Hsame.
  unfold normalizedSelection, reposSlice. unfold curObj in *.
  destruct (foundBuild cat project (sab_BuildName b)) as [B|] eqn:EB; simpl in *.
  2:{ exists h1. unfold isMatched. rewrite EB. split; [done|]. by apply Hsame. }
  rewrite reposAfter_snoc in Hstep, Hsame. unfold mergesInto in Hstep, Hsame.
  rewrite streq_refl in Hstep, Hsame. simpl in Hstep, Hsame.
  rewrite (isMatched_found cat project b B EB) in Hstep, Hsame |- *.
  unfold fillBuildDetail. simpl. rewrite (Hnt B EB), streq_refl. simpl.
  destruct (findTarget (b_Targets B) (sab_ServiceName b) (sab_ServiceModule b))
    as [jt|] eqn:Et; simpl.
  - simpl in Hstep. unfold writeRepos, curRepos, reposAt. simpl.
    eexists. split; [reflexivity|exact Hstep].
  - simpl in Hsame. eexists. split; [reflexivity|].
    intros n. rewrite <- (Hsame eq_refl n). simpl.
    destruct (decide (n = sab_BuildName b)) as [->|Hne].
    + rewrite lookup_insert_eq. rewrite (Hl (sab_BuildName b)).
      rewrite decide_True by (by left). unfold curObj. by rewrite EB.
    + by rewrite lookup_insert_ne.
Qed.

Lemma GetRepos_loop_spec (L : list ServiceAndBuild) :
  forall (h : Heap) (visited seen : list ServiceAndBuild) (resp : list (string * ReposRef)),
    heapFor cat project visited h -> Forall (nonTemplate cat project) L ->
    exists h',
      GetRepos_loop cat MergeBuildEnvs project h seen resp L
      = Ok (h', seen ++ map normalizedSelection L, resp ++ omap reposSlice L)
      /\ heapFor cat project (visited ++ L) h'.
Proof.
  induction L as [|b L IH]; intros h visited seen resp Hh Hnt.
  - exists h. simpl. by rewrite !app_nil_r.
  - apply Forall_cons in Hnt as [Hntb Hnt].
    destruct (GetRepos_body_spec visited h b Hh Hntb) as (h1 & Hbody & Hh1).
    destruct (IH h1 (visited ++ [b]) (seen ++ [normalizedSelection b])
                (match reposSlice b with Some c => resp ++ [c] | None => resp end) Hh1 Hnt)
      as (h' & Hloop & Hh').
    exists h'. simpl. rewrite Hbody. simpl. rewrite Hloop.
    rewrite <- !app_assoc in *. split; [|exact Hh'].
    destruct (reposSlice b); simpl; by rewrite <- ?app_assoc.
Qed.

(** The repositories of the build configuration of a selected build, with
    the selections of all selected builds of that build name merged in. *)
Definition sharedRepos (L : list ServiceAndBuild) (b : ServiceAndBuild) : list Repository :=
  match foundBuild cat project (sab_BuildName b) with
  | Some B => reposAfter cat project (sab_BuildName b) L (b_Repos B)
  | None => []
  end.

Lemma readRepos_slice (L : list ServiceAndBuild) (h : Heap) (b : ServiceAndBuild) :
  heapFor cat project L h -> b ∈ L -> isMatched cat project b = true ->
  readRepos h (sab_BuildName b, OwnRepos) = sharedRepos L b.
Proof.
  intros Hh Hb Hm.
  unfold readRepos, sharedRepos. simpl. rewrite (Hh (sab_BuildName b)).
  rewrite decide_True by (apply list_elem_of_fmap; by exists b).
  unfold curObj. by destruct (foundBuild cat project (sab_BuildName b)).
Qed.

Lemma readRepos_slices (L : list ServiceAndBuild) (h : Heap) :
  heapFor cat project L h ->
  forall K, (forall b, b ∈ K -> b ∈ L) ->
    concat (map (readRepos h) (omap reposSlice K))
    = concat (map (sharedRepos L)
                  (filter (fun b => isMatched cat project b = true) K)).
Proof.
  intros Hh K. induction K as [|b K IH]; intros Hsub; [done|].
  assert (Hb : b ∈ L) by (apply Hsub; left).
  assert (HK : forall b', b' ∈ K -> b' ∈ L) by (intros b' Hb'; apply Hsub; by right).
  change (omap reposSlice (b :: K))
    with (match reposSlice b with
          | Some c => c :: omap reposSlice K
          | None => omap reposSlice K
          end).
  unfold reposSlice at 1.
  destruct (isMatched cat project b) eqn:Hm.
  - rewrite filter_cons_True by done. cbn [map concat].
    by rewrite (readRepos_slice L h b Hh Hb Hm), (IH HK).
  - rewrite filter_cons_False; [by apply IH|]. by rewrite Hm.
Qed.

(** Selected builds of another build name leave the repositories of a cached
    build alone. *)
Lemma reposAfter_only (n : string) (L : list ServiceAndBuild) (T0 : list Repository) :
  reposAfter cat project n L T0
  = reposAfter cat project n (filter (fun b => sab_BuildName b = n) L) T0.
Proof.
  unfold reposAfter. revert T0. induction L as [|b L IH]; intros T0; [done|].
  destruct (decide (sab_BuildName b = n)) as [Hn|Hn].
  - rewrite filter_cons_True by done. simpl. apply IH.
  - rewrite filter_cons_False by done. simpl. unfold mergesInto at 2.
    rewrite (proj2 (streq_false (sab_BuildName b) n)) by done. simpl. apply IH.
Qed.

End GetReposFacts.

(** [GetRepos] on build configurations without a template: it cannot fail
    once the spec is decoded, it leaves [j.job.Spec] as it is, and it returns,
    for each selected build whose build configuration is found and lists its
    service module, in selection order, the repositories of that build
    configuration with the selections of all the selected builds of the same
    build name merged into them.  A build whose build name is selected once
    contributes the repositories of its configuration merged with its own
    selection. *)
Theorem GetRepos_merges_the_selections_of_a_build
    (cat : Catalog) (MergeBuildEnvs : list KeyVal -> list KeyVal -> list KeyVal)
    (j : BuildJob) (s : ZadigBuildJobSpec) :
  job_Spec (job j) = SpecBuild s ->
  (forall b B, b ∈ ServiceAndBuilds s ->
     BuildColl_Find cat (sab_BuildName b) (wf_Project (workflow j)) = Found B ->
     b_TemplateID B = "") ->
  exists j',
    GetRepos cat MergeBuildEnvs j
    = Ok (j',
          concat (map (sharedRepos cat (wf_Project (workflow j)) (ServiceAndBuilds s))
                      (filter (fun b => isMatched cat (wf_Project (workflow j)) b = true)
                              (ServiceAndBuilds s))))
    /\ job j' = job j /\ workflow j' = workflow j
    /\ (forall b B,
          BuildColl_Find cat (sab_BuildName b) (wf_Project (workflow j)) = Found B ->
          filter (fun b' => sab_BuildName b' = sab_BuildName b) (ServiceAndBuilds s) = [b] ->
          isMatched cat (wf_Project (workflow j)) b = true ->
          sharedRepos cat (wf_Project (workflow j)) (ServiceAndBuilds s) b
          = mergeRepos (b_Repos B) (sab_Repos b)).
Proof.
  intros Hspec Hplain. set (project := wf_Project (workflow j)) in *.
  set (L := ServiceAndBuilds s) in *.
  assert (Hnt : Forall (nonTemplate cat project) L).
  { apply Forall_forall. intros b Hb B HB. apply (Hplain b B Hb).
    unfold foundBuild in HB. destruct (BuildColl_Find _ _ _); [|done]. congruence. }
  destruct (GetRepos_loop_spec cat MergeBuildEnvs project L emptyHeap [] [] []
              (heapFor_empty cat project) Hnt) as (h' & Hloop & Hh').
  simpl in Hh', Hloop.
  exists (mkBuildJob (job j) (workflow j)
            (mkZadigBuildJobSpec (DockerRegistryID s)
               (map (normalizedSelection cat project) L) (ServiceAndBuildsOptions s))).
  split; [|split; [reflexivity|split; [reflexivity|]]].
  - unfold GetRepos. rewrite Hspec. simpl. fold project L. rewrite Hloop. simpl.
    do 2 f_equal. by apply (readRepos_slices cat project L h' Hh' L).
  - intros b B HB Honly Hm. unfold sharedRepos, foundBuild. rewrite HB.
    rewrite reposAfter_only, Honly. unfold reposAfter. simpl.
    unfold mergesInto. by rewrite streq_refl, Hm.
Qed.

(** Two selected builds share the build configuration [build-two]: the
    first selects the branch [dev] of the fork, the second the branch
    [hotfix] of the upstream repository; a third names a build configuration
    that does not exist.  Both contributions show both selections. *)
Definition sharedSelection : list ServiceAndBuild :=
  [mkServiceAndBuild "svc" "mod" "build-two" "" "" "" []
     [mkRepository "github" "fork" "" "zadig" "" "dev" "" 0%Z [] "" "" []] "";
   mkServiceAndBuild "svc" "mod" "build-two" "" "" "" []
     [mkRepository "github" "koderover" "" "zadig" "" "hotfix" "" 0%Z [] "" "" []] "";
   mkServiceAndBuild "svc" "mod" "build-gone" "" "" "" [] [] ""].

Definition sharedJob : BuildJob :=
  mkBuildJob
    (mkJob "build" "zadig-build" (SpecBuild (mkZadigBuildJobSpec "reg-1" sharedSelection [])) None)
    (mkWorkflowV4 "wf" "wf" "proj" [])
    emptyBuildSpec.

Lemma GetRepos_merges_the_selections_of_a_build_witness :
  exists j' resp,
    GetRepos presetCatalog keepTemplateEnvs sharedJob = Ok (j', resp)
    /\ map Branch resp = ["hotfix"; "dev"; "hotfix"; "dev"].
Proof.
  destruct (GetRepos_merges_the_selections_of_a_build presetCatalog keepTemplateEnvs sharedJob
              (mkZadigBuildJobSpec "reg-1" sharedSelection []) eq_refl)
    as (j' & Hrun & _).
  - intros b B Hb HB. simpl in HB.
    destruct (streq (sab_BuildName b) "build-two"); [|discriminate].
    by inversion HB.
  - exists j'. eexists. split; [exact Hrun|]. vm_compute. reflexivity.
Defined.

(** ** Line endings of build scripts *)

Definition CRLF : string := String CR (String LF EmptyString).

(** The bytes of a string. *)
Definition bytes (s : string) : list Ascii.ascii := String.list_ascii_of_string s.

Lemma bytes_app (a b : string) : bytes (a +:+ b) = bytes a ++ bytes b.
Proof. induction a as [|c a IH]; simpl; [done|]. by rewrite IH. Qed.

Lemma replaceFrom_nil (fuel : nat) (old new : string) : replaceFrom fuel "" old new = "".
Proof. by destruct fuel. Qed.

(** Replacing the one-byte string [CR]: every byte is mapped on its own. *)
Lemma replaceFrom_CR (s : string) :
  forall fuel, String.length s <= fuel ->
    replaceFrom fuel s (String CR "") (String LF "")
    = String.string_of_list_ascii (map (fun c => if bool_decide (c = CR) then LF else c) (bytes s)).
Proof.
  induction s as [|c s IH]; intros fuel Hfuel; [by rewrite replaceFrom_nil|].
  destruct fuel as [|fuel]; [simpl in Hfuel; lia|]. simpl in Hfuel.
  cbn [replaceFrom String.prefix dropBytes String.length bytes String.list_ascii_of_string map
       String.string_of_list_ascii].
  rewrite (IH fuel) by lia. unfold bytes.
  destruct (Ascii.ascii_dec CR c) as [<-|Hne].
  - rewrite bool_decide_eq_true_2 by done. by destruct s.
  - rewrite bool_decide_eq_false_2 by congruence. done.
Qed.

(** The first pass of [replaceWrapLine], read byte by byte. *)
Fixpoint crlfToLf (s : string) : string :=
  match s with
  | EmptyString => EmptyString
  | String c rest =>
      match rest with
      | String d rest' =>
          if bool_decide (c = CR) && bool_decide (d = LF)
          then String LF (crlfToLf rest')
          else String c (crlfToLf rest)
      | EmptyString => String c EmptyString
      end
  end.

Lemma crlfToLf_cons (c d : Ascii.ascii) (rest : string) :
  crlfToLf (String c (String d rest))
  = if bool_decide (c = CR) && bool_decide (d = LF)
    then String LF (crlfToLf rest)
    else String c (crlfToLf (String d rest)).
Proof. reflexivity. Qed.

Definition crToLf (c : Ascii.ascii) : Ascii.ascii := if bool_decide (c = CR) then LF else c.

Lemma replaceFrom_CRLF (fuel : nat) :
  forall s, String.length s <= fuel -> replaceFrom fuel s CRLF (String LF "") = crlfToLf s.
Proof.
  induction fuel as [|fuel IH]; intros s Hfuel.
  - destruct s; [done|simpl in Hfuel; lia].
  - destruct s as [|c [|d rest]]; [done| |].
    + cbn [replaceFrom String.prefix CRLF]. destruct (Ascii.ascii_dec CR c); simpl;
        by rewrite replaceFrom_nil.
    + simpl in Hfuel. rewrite crlfToLf_cons. cbn [replaceFrom String.prefix CRLF].
      destruct (Ascii.ascii_dec CR c) as [<-|Hc].
      * rewrite (bool_decide_eq_true_2 (CR = CR)) by done.
        destruct (Ascii.ascii_dec LF d) as [<-|Hd].
        -- rewrite (bool_decide_eq_true_2 (LF = LF)) by done. simpl.
           replace (String.prefix "" rest) with true by (by destruct rest).
           rewrite IH by lia. done.
        -- rewrite (bool_decide_eq_false_2 (d = LF)) by congruence. simpl.
           rewrite IH by (simpl; lia). done.
      * rewrite (bool_decide_eq_false_2 (c = CR)) by congruence. simpl.
        rewrite IH by (simpl; lia). done.
Qed.

Lemma string_bytes (s : string) : String.string_of_list_ascii (bytes s) = s.
Proof. apply String.string_of_list_ascii_of_string. Qed.

Lemma length_bytes (s : string) : length (bytes s) = String.length s.
Proof. induction s as [|c s IH]; simpl; [done|]. by rewrite IH. Qed.

Lemma length_crlfToLf_aux (n : nat) :
  forall s, String.length s <= n -> String.length (crlfToLf s) <= String.length s.
Proof.
  induction n as [|n IH]; intros s Hn; [destruct s; [done|simpl in Hn; lia]|].
  destruct s as [|c [|d rest]]; [done|done|]. simpl in Hn.
  rewrite crlfToLf_cons. destruct (bool_decide (c = CR) && bool_decide (d = LF)).
  - cbn [String.length]. pose proof (IH rest). lia.
  - cbn [String.length]. pose proof (IH (String d rest)) as IH'.
    cbn [String.length] in IH'. lia.
Qed.

(** What [replaceWrapLine] computes: carriage return, line feed pairs become
    a line feed, then every remaining carriage return becomes one. *)
Lemma replaceWrapLine_bytes (s : string) :
  replaceWrapLine s = String.string_of_list_ascii (map crToLf (bytes (crlfToLf s))).
Proof.
  unfold replaceWrapLine, strings_ReplaceAll. fold CRLF.
  rewrite (replaceFrom_CRLF (String.length s) s) by done.
  by rewrite replaceFrom_CR.
Qed.

Lemma bytes_string (l : list Ascii.ascii) : bytes (String.string_of_list_ascii l) = l.
Proof. apply String.list_ascii_of_string_of_list_ascii. Qed.

Lemma crlfToLf_no_CR_aux (n : nat) :
  forall s, String.length s <= n -> CR ∉ bytes s -> crlfToLf s = s.
Proof.
  induction n as [|n IH]; intros s Hn Hs; [destruct s; [done|simpl in Hn; lia]|].
  destruct s as [|c [|d rest]]; [done|done|]. simpl in Hn.
  rewrite crlfToLf_cons. rewrite (bool_decide_eq_false_2 (c = CR)).
  - cbn [andb]. f_equal. apply IH; [simpl; lia|].
    intros Hin. apply Hs. unfold bytes in *. simpl in *. by right.
  - intros ->. apply Hs. left.
Qed.

Lemma append_cons (c : Ascii.ascii) (a b : string) : String c a +:+ b = String c (a +:+ b).
Proof. reflexivity. Qed.

Lemma append_nil_l (b : string) : "" +:+ b = b.
Proof. reflexivity. Qed.

Lemma crlfToLf_after_CR_aux (n : nat) :
  forall a b, String.length a <= n ->
    crlfToLf (a +:+ String CR b)
    = crlfToLf a +:+ crlfToLf (String CR b).
Proof.
  induction n as [|n IH]; intros a b Hn; [destruct a; [done|simpl in Hn; lia]|].
  destruct a as [|c [|d rest]]; [done| |].
  - rewrite append_cons, append_nil_l, crlfToLf_cons.
    rewrite (bool_decide_eq_false_2 (CR = LF)) by discriminate.
    rewrite andb_false_r. done.
  - simpl in Hn. rewrite !append_cons, !crlfToLf_cons.
    destruct (bool_decide (c = CR) && bool_decide (d = LF)).
    + rewrite append_cons. f_equal. apply IH. lia.
    + rewrite append_cons. f_equal. rewrite <- append_cons.
      apply (IH (String d rest) b). simpl. lia.
Qed.

(** [replaceWrapLine] leaves no carriage return, does not lengthen the
    script, returns a script without carriage return as it is, and returns
    its own result unchanged. *)
Theorem replaceWrapLine_leaves_no_carriage_return (script : string) :
  (CR ∉ bytes (replaceWrapLine script))
  /\ String.length (replaceWrapLine script) <= String.length script
  /\ (CR ∉ bytes script -> replaceWrapLine script = script)
  /\ replaceWrapLine (replaceWrapLine script) = replaceWrapLine script.
Proof.
  assert (Hno : forall s, CR ∉ bytes (replaceWrapLine s)).
  { intros s. rewrite replaceWrapLine_bytes, bytes_string.
    intros Hin. apply list_elem_of_fmap in Hin as (c & Hc & _).
    unfold crToLf in Hc. destruct (bool_decide (c = CR)) eqn:E; [discriminate|].
    apply bool_decide_eq_false in E. congruence. }
  assert (Hfix : forall s, CR ∉ bytes s -> replaceWrapLine s = s).
  { intros s Hs. rewrite replaceWrapLine_bytes.
    rewrite (crlfToLf_no_CR_aux (String.length s) s) by done.
    rewrite <- (string_bytes s) at 2. f_equal.
    rewrite <- (map_id (bytes s)) at 2. apply map_ext_in. intros c Hc.
    apply list_elem_of_In in Hc. unfold crToLf.
    rewrite bool_decide_eq_false_2; [done|]. intros ->. done. }
  split; [apply Hno|]. split.
  - rewrite replaceWrapLine_bytes. rewrite <- length_bytes, bytes_string, length_map, length_bytes.
    by apply (length_crlfToLf_aux (String.length script)).
  - split; [apply Hfix|]. apply Hfix, Hno.
Qed.

(** A carriage return, with the line feed that follows it when there is
    one, becomes exactly one line feed, whatever surrounds it: the script is
    normalised line break by line break. *)
Theorem replaceWrapLine_line_breaks (before after : string) :
  replaceWrapLine (before +:+ String CR after)
  = replaceWrapLine before
    +:+ String LF (replaceWrapLine (strings_TrimPrefix after (String LF EmptyString))).
Proof.
  rewrite !replaceWrapLine_bytes.
  rewrite (crlfToLf_after_CR_aux (String.length before)) by done.
  rewrite bytes_app, List.map_app.
  assert (Happ : forall l1 l2, String.string_of_list_ascii (l1 ++ l2)
                               = String.string_of_list_ascii l1 +:+ String.string_of_list_ascii l2).
  { intros l1 l2. induction l1 as [|x l1 IH]; simpl; [done|]. by rewrite IH. }
  rewrite Happ. f_equal.
  unfold strings_TrimPrefix. destruct after as [|d rest].
  - done.
  - cbn [String.prefix]. destruct (Ascii.ascii_dec LF d) as [<-|Hd].
    + cbn [crlfToLf]. rewrite !bool_decide_eq_true_2 by done. simpl.
      unfold crToLf at 1. rewrite bool_decide_eq_false_2 by discriminate.
      by destruct rest.
    + cbn [crlfToLf]. rewrite (bool_decide_eq_false_2 (d = LF)) by congruence.
      rewrite andb_false_r. simpl. unfold crToLf at 1.
      rewrite bool_decide_eq_true_2 by done. done.
Qed.

(** ** The references a build job leaves in its selection *)

Section ToJobsReferences.

Variable cat : Catalog.
Variable cfg : Settings.
Variable MergeBuildEnvs : list KeyVal -> list KeyVal -> list KeyVal.
Variable jobNameFormat : string -> string.
Variable GetJobOutputKey : string -> string -> string.

(** The selected build as a successful iteration of [ToJobs] leaves it. *)
Definition referring (jobName_ : string) (build : ServiceAndBuild) : ServiceAndBuild :=
  withImageAndPackage build
    (GetJobOutputKey (buildJobKey jobName_ build) "IMAGE")
    (GetJobOutputKey (buildJobKey jobName_ build) "PKG_FILE").

(** A selected build and the task compiled for it. *)
Definition refersTo (build : ServiceAndBuild) (task : JobTask) : Prop :=
  sab_Image build = GetJobOutputKey (jt_Key task) "IMAGE"
  /\ sab_Package build = GetJobOutputKey (jt_Key task) "PKG_FILE"
  /\ "IMAGE" ∈ map out_Name (jt_Outputs task)
  /\ "PKG_FILE" ∈ map out_Name (jt_Outputs task)
  /\ "imageTag" ∈ map out_Name (jt_Outputs task).

Lemma ToJobs_body_reference (j : Job) (project : string) (h h' : Heap)
    (build build' : ServiceAndBuild) (jobTask : JobTask) :
  ToJobs_body cat cfg MergeBuildEnvs jobNameFormat GetJobOutputKey j project h build
  = (build', Ok (h', jobTask)) ->
  build' = referring (job_Name j) build /\ refersTo build' jobTask.
Proof.
  unfold ToJobs_body.
  destruct (_ ≫= _) as [[[[[h3 b] pb] basicImage] [[cacheEnable cacheDirType] medium]]|e|];
    [|discriminate|discriminate].
  destruct (buildSteps cat cfg b (sab_ServiceName build) _ cacheEnable medium) as [steps|e|];
    simpl; intros H; inversion H; subst. split; [done|].
  destruct (ensureBuildInOutputs_shape (b_Outputs b)) as (_ & _ & _ & _ & _ & HI & HT & HP).
  unfold refersTo. simpl. done.
Qed.

Lemma ToJobs_loop_references (j : Job) (project : string) (builds : list ServiceAndBuild) :
  forall (h : Heap) (done : list ServiceAndBuild) (resp : list JobTask)
         (done' : list ServiceAndBuild) (resp' : list JobTask),
    ToJobs_loop cat cfg MergeBuildEnvs jobNameFormat GetJobOutputKey j project h done resp builds
    = (done', resp', Ok ()) ->
    exists tasks,
      done' = done ++ map (referring (job_Name j)) builds
      /\ resp' = resp ++ tasks
      /\ Forall2 refersTo (map (referring (job_Name j)) builds) tasks.
Proof.
  induction builds as [|build builds IH]; intros h done resp done' resp' Hrun; simpl in Hrun.
  - inversion Hrun; subst. exists []. rewrite !app_nil_r. repeat split. constructor.
  - destruct (ToJobs_body _ _ _ _ _ j project h build) as [build' [[h' jobTask]|e|]] eqn:Eb;
      [|discriminate|discriminate].
    apply ToJobs_body_reference in Eb as [-> Href].
    destruct (IH _ _ _ _ _ Hrun) as (tasks & -> & -> & Hall).
    exists (jobTask :: tasks). rewrite <- !app_assoc. simpl. repeat split.
    by constructor.
Qed.


End ToJobsReferences.


(** ** More on the SQL job *)

Section SQLJobMoreFacts.

Variable driver : SQLDriver.
Variable strings_TrimSpace : string -> string.

Lemma length_replies (db : DB driver) (stmts : list string) :
  length (replies driver db stmts) = length stmts.
Proof.
  revert db. induction stmts as [|stmt stmts IH]; intros db; simpl; [done|].
  destruct (db_Exec driver db stmt) as [db' reply]. simpl. by rewrite IH.
Qed.

(** [ExecMySQLStatement] when the connection opens and every statement
    succeeds: the entries the job held before the call are executed first,
    then one entry per non-empty piece of the SQL text, each statement once
    and in order; every entry ends marked success, with the elapsed time and
    the affected rows of its statement, and no error is returned. *)
Theorem ExecMySQLStatement_all_succeed
    (info : DBInstance) (sp : JobTaskSQLSpec) (trace : list Event) (db : DB driver)
    (oks : list (Z * Z)) :
  let stmts :=
    map res_SQL (sql_Results sp) ++ map strings_TrimSpace (segments (sql_SQL sp)) in
  sql_Open driver (dataSourceName info) = Found db ->
  replies driver db stmts = map okReply oks ->
  exists results',
    ExecMySQLStatement driver strings_TrimSpace info sp trace
    = (mkJobTaskSQLSpec (sql_ID sp) (sql_SQL sp) results', trace ++ map EvExec stmts, None)
    /\ map res_SQL results' = stmts
    /\ length results' = length (sql_Results sp) + length (segments (sql_SQL sp))
    /\ (forall k r, results' !! k = Some r ->
          res_Status r = SQLExecStatusSuccess
          /\ exists ok, oks !! k = Some ok
                        /\ res_ElapsedTime r = ok.1 /\ res_RowsAffected r = ok.2).
Proof.
  intros stmts Hopen Hok.
  set (results := sql_Results sp
                  ++ map (newExecResult strings_TrimSpace) (segments (sql_SQL sp))).
  assert (Hsql : map res_SQL results = stmts).
  { unfold results, stmts. rewrite List.map_app, map_map. done. }
  assert (Hlen : length oks = length results).
  { apply (f_equal length) in Hok. rewrite length_replies, length_map in Hok.
    rewrite <- Hsql, length_map in Hok. done. }
  exists (zip_with succeeded results oks). split.
  { unfold ExecMySQLStatement. rewrite Hopen, appendNotExec_eq.
    fold (segments (sql_SQL sp)). fold results.
    rewrite <- Hsql in Hok.
    rewrite (execResults_all_ok driver results db [] trace oks Hok). by rewrite Hsql. }
  split; [rewrite zip_succeeded_sql by done; exact Hsql|].
  split.
  { rewrite length_zip_with, <- Hlen, Nat.min_id, Hlen. unfold results.
    by rewrite length_app, length_map. }
  intros k r Hk. rewrite lookup_zip_with in Hk.
  destruct (results !! k) as [x|]; [|done]. simpl in Hk.
  destruct (oks !! k) as [ok|]; [|done]. inversion Hk. simpl. eauto.
Qed.

(** The execution loop when the first [length oks] statements succeed and the
    number of rows the next one affected cannot be read. *)
Lemma execResults_rows_unknown (results : list SQLExecResult) :
  forall (db : DB driver) (visited : list SQLExecResult) (trace : list Event)
         (oks : list (Z * Z)) (r : SQLExecResult) (elapsed : Z) (err : string),
    results !! length oks = Some r ->
    take (length oks) (replies driver db (map res_SQL results)) = map okReply oks ->
    replies driver db (map res_SQL results) !! length oks
    = Some (ExecDone elapsed (NotFound err)) ->
    execResults driver db visited results trace
    = (visited ++ zip_with succeeded (take (length oks) results) oks
         ++ mkSQLExecResult (res_SQL r) elapsed (res_RowsAffected r) SQLExecStatusSuccess
            :: drop (S (length oks)) results,
       trace ++ map EvExec (map res_SQL (take (S (length oks)) results)),
       Some ("get affect rows error: " +:+ err)).
Proof.
  induction results as [|x results IH]; intros db visited trace oks r elapsed err Hr Hok Herr;
    [done|].
  simpl in *. destruct (db_Exec driver db (res_SQL x)) as [db' reply] eqn:Ex.
  destruct oks as [|[el rows] oks]; simpl in *.
  - inversion Hr; subst x. inversion Herr; subst reply.
    by rewrite drop_0.
  - inversion Hok as [[Hreply Hrest]]. subst reply. unfold okReply at 1. simpl.
    rewrite (IH db' _ _ oks r elapsed err Hr Hrest Herr).
    rewrite <- !app_assoc. simpl. done.
Qed.

(** A statement that was executed but whose number of affected rows cannot
    be read ends the job with an error although its entry is marked success:
    the entry keeps the elapsed time, its affected rows stay as they were,
    the statements after it are not sent to the database and their entries
    stay not-executed. *)
Theorem ExecMySQLStatement_rows_affected_unreadable
    (info : DBInstance) (sp : JobTaskSQLSpec) (trace : list Event) (db : DB driver)
    (oks : list (Z * Z)) (piece : string) (elapsed : Z) (err : string) :
  let stmts := map strings_TrimSpace (segments (sql_SQL sp)) in
  sql_Results sp = [] ->
  sql_Open driver (dataSourceName info) = Found db ->
  segments (sql_SQL sp) !! length oks = Some piece ->
  take (length oks) (replies driver db stmts) = map okReply oks ->
  replies driver db stmts !! length oks = Some (ExecDone elapsed (NotFound err)) ->
  exists results',
    ExecMySQLStatement driver strings_TrimSpace info sp trace
    = (mkJobTaskSQLSpec (sql_ID sp) (sql_SQL sp) results',
       trace ++ map EvExec (take (S (length oks)) stmts),
       Some ("get affect rows error: " +:+ err))
    /\ length results' = length (segments (sql_SQL sp))
    /\ results' !! length oks
       = Some (mkSQLExecResult (strings_TrimSpace piece) elapsed 0 SQLExecStatusSuccess)
    /\ (forall k, length oks < k ->
          results' !! k = newExecResult strings_TrimSpace <$> segments (sql_SQL sp) !! k).
Proof.
  intros stmts Hfresh Hopen Hpiece Hok Herr.
  set (results := map (newExecResult strings_TrimSpace) (segments (sql_SQL sp))).
  assert (Hsql : map res_SQL results = stmts).
  { unfold results, stmts. rewrite map_map. done. }
  assert (Hr : results !! length oks = Some (newExecResult strings_TrimSpace piece)).
  { unfold results. by rewrite list_lookup_fmap, Hpiece. }
  assert (Hlen : length oks < length results).
  { apply lookup_lt_Some in Hr. done. }
  assert (Htake : length (take (length oks) results) = length oks).
  { rewrite length_take. lia. }
  rewrite <- Hsql in Hok, Herr.
  eexists. split.
  { unfold ExecMySQLStatement. rewrite Hopen, appendNotExec_eq, Hfresh.
    fold (segments (sql_SQL sp)). simpl. fold results.
    rewrite (execResults_rows_unknown results db [] trace oks _ elapsed err Hr Hok Herr).
    simpl. rewrite <- Hsql. by rewrite fmap_take. }
  split.
  { rewrite length_app, length_zip_with, Htake. simpl. rewrite length_drop.
    unfold results in *. rewrite length_map in *. lia. }
  split.
  { rewrite lookup_app_r by (rewrite length_zip_with, Htake; lia).
    rewrite length_zip_with, Htake, Nat.min_id, Nat.sub_diag. done. }
  intros k Hk.
  rewrite lookup_app_r by (rewrite length_zip_with, Htake; lia).
  rewrite length_zip_with, Htake, Nat.min_id.
  destruct (k - length oks) as [|d] eqn:Ed; [lia|]. simpl.
  rewrite lookup_drop. unfold results. rewrite list_lookup_fmap.
  replace (S (length oks) + d) with k by lia. done.
Qed.

End SQLJobMoreFacts.

(** A database that accepts every statement, and one that accepts every
    statement but cannot tell how many rows [DELETE] statements affected. *)
Definition acceptingDriver : SQLDriver :=
  mkSQLDriver nat (fun _ => Found 0)
    (fun received stmt => (S received, ExecDone 7 (Found (Z.of_nat (S received))))).

Definition noRowCountDriver : SQLDriver :=
  mkSQLDriver nat (fun _ => Found 0)
    (fun received stmt =>
       (S received,
        if String.prefix "DELETE" stmt
        then ExecDone 9 (NotFound "no RowsAffected available")
        else ExecDone 7 (Found 1%Z))).

Lemma ExecMySQLStatement_all_succeed_witness :
  exists results',
    ExecMySQLStatement acceptingDriver asciiTrimSpace scenarioInstance
      (mkJobTaskSQLSpec "db-1" "UPDATE t SET x=1; UPDATE t SET y=2;"
         [mkSQLExecResult "SELECT 1;" 0 0 SQLExecStatusNotExec])
      []
    = (mkJobTaskSQLSpec "db-1" "UPDATE t SET x=1; UPDATE t SET y=2;" results',
       [EvExec "SELECT 1;"; EvExec "UPDATE t SET x=1;"; EvExec "UPDATE t SET y=2;"],
       None)
    /\ map res_SQL results' = ["SELECT 1;"; "UPDATE t SET x=1;"; "UPDATE t SET y=2;"]
    /\ length results' = 3.
Proof.
  destruct (ExecMySQLStatement_all_succeed acceptingDriver asciiTrimSpace scenarioInstance
              (mkJobTaskSQLSpec "db-1" "UPDATE t SET x=1; UPDATE t SET y=2;"
                 [mkSQLExecResult "SELECT 1;" 0 0 SQLExecStatusNotExec])
              [] 0 [(7%Z, 1%Z); (7%Z, 2%Z); (7%Z, 3%Z)])
    as (results' & Hrun & Hsql & Hlen & _).
  - reflexivity.
  - vm_compute. reflexivity.
  - exists results'. split; [exact Hrun|]. split; [exact Hsql|exact Hlen].
Defined.

Lemma ExecMySQLStatement_rows_affected_unreadable_witness :
  exists results',
    ExecMySQLStatement noRowCountDriver asciiTrimSpace scenarioInstance
      (mkJobTaskSQLSpec "db-1" "UPDATE t SET x=1; DELETE FROM t; UPDATE t SET z=3;" []) []
    = (mkJobTaskSQLSpec "db-1" "UPDATE t SET x=1; DELETE FROM t; UPDATE t SET z=3;" results',
       [EvExec "UPDATE t SET x=1;"; EvExec "DELETE FROM t;"],
       Some "get affect rows error: no RowsAffected available")
    /\ results' !! 1 = Some (mkSQLExecResult "DELETE FROM t;" 9 0 SQLExecStatusSuccess)
    /\ results' !! 2 = Some (mkSQLExecResult "UPDATE t SET z=3;" 0 0 SQLExecStatusNotExec).
Proof.
  destruct (ExecMySQLStatement_rows_affected_unreadable noRowCountDriver asciiTrimSpace
              scenarioInstance
              (mkJobTaskSQLSpec "db-1" "UPDATE t SET x=1; DELETE FROM t; UPDATE t SET z=3;" [])
              [] 0 [(7%Z, 1%Z)] " DELETE FROM t;" 9%Z "no RowsAffected available")
    as (results' & Hrun & _ & Hmid & Hrest).
  - reflexivity.
  - reflexivity.
  - vm_compute. reflexivity.
  - vm_compute. reflexivity.
  - vm_compute. reflexivity.
  - exists results'. split; [exact Hrun|]. split; [exact Hmid|].
    exact (Hrest 2 (Nat.lt_succ_diag_r 1)).
Defined.

(** ** The distribute image step before it runs *)

Section PreRunFacts.

Variable SetTargetImage : DistributeTaskTarget -> DistributeTaskTarget.

Lemma PreRun_loop_spec (targets : list DistributeTaskTarget) :
  forall visited,
    match List.find (fun target => streq (dtt_SourceImage target) "") targets with
    | None =>
        PreRun_loop SetTargetImage visited targets
        = (visited ++ map SetTargetImage targets, Ok ())
    | Some _ =>
        exists n,
          PreRun_loop SetTargetImage visited targets
          = (visited ++ map SetTargetImage (take n targets) ++ drop n targets,
             Err "source image is empty")
          /\ (dtt_SourceImage <$> targets !! n) = Some ""
          /\ forall k target, k < n -> targets !! k = Some target ->
               dtt_SourceImage target <> ""
    end.
Proof.
  induction targets as [|target targets IH]; intros visited; simpl.
  - by rewrite app_nil_r.
  - destruct (streq (dtt_SourceImage target) "") eqn:E.
    + exists 0. apply streq_true in E. simpl. rewrite E. split; [done|]. split; [done|].
      intros k t Hk. lia.
    + specialize (IH (visited ++ [SetTargetImage target])).
      destruct (List.find _ targets).
      * destruct IH as (n & Hrun & Hn & Hbefore). exists (S n). simpl.
        rewrite Hrun, <- app_assoc. split; [done|]. split; [done|].
        intros [|k] t Hk Ht; simpl in Ht.
        -- inversion Ht; subst. by apply streq_false.
        -- apply (Hbefore k); [lia|done].
      * by rewrite IH, <- app_assoc.
Qed.

(** [PreRun] succeeds exactly when no target lacks its source image, and
    then every target has been given its target image.  Otherwise it returns
    the error of the first target without source image: the targets before it
    have been given their target image, and it and the targets after it are
    left as they were. *)
Theorem PreRun_stops_at_first_empty_source_image (s : distributeImageCtl) :
  let targets := DistributeTarget_ (distributeImageSpec s) in
  let '(s', r) := PreRun SetTargetImage s in
  workflowCtx s' = workflowCtx s /\ jobName s' = jobName s
  /\ (r = Ok () <-> forall target, target ∈ targets -> dtt_SourceImage target <> "")
  /\ (r = Ok () -> DistributeTarget_ (distributeImageSpec s') = map SetTargetImage targets)
  /\ (r <> Ok () ->
      exists n target,
        r = Err "source image is empty"
        /\ targets !! n = Some target /\ dtt_SourceImage target = ""
        /\ (forall k t, k < n -> targets !! k = Some t -> dtt_SourceImage t <> "")
        /\ DistributeTarget_ (distributeImageSpec s')
           = map SetTargetImage (take n targets) ++ drop n targets).
Proof.
  intros targets. unfold PreRun. fold targets.
  pose proof (PreRun_loop_spec targets []) as Hspec.
  destruct (List.find (fun target => streq (dtt_SourceImage target) "") targets)
    as [bad|] eqn:Hfind.
  - destruct Hspec as (n & -> & Hn & Hbefore). simpl.
    destruct (targets !! n) as [target|] eqn:Ht; [|done].
    assert (Hempty : dtt_SourceImage target = "") by (by inversion Hn). clear Hn.
    split; [done|]. split; [done|]. split; [|split; [done|]].
    + split; [done|]. intros Hall. exfalso. apply (Hall target); [|done].
      by eapply list_elem_of_lookup_2.
    + intros _. exists n, target. repeat split; done.
  - rewrite Hspec. simpl. split; [done|]. split; [done|]. split; [|split; [done|done]].
    split; [|done]. intros _ target Hin Hempty.
    apply list_elem_of_In in Hin.
    pose proof (find_none _ _ Hfind target Hin) as Hne. simpl in Hne.
    apply streq_false in Hne. done.
Qed.

End PreRunFacts.

(** ** The image distribute job: presets, arguments, latest settings *)

Section ImageDistributeFacts.

Variable cat : Catalog.
Variable cfg : Settings.
Variable SourceFromJob SourceRuntime : string.
Variable JobZadigDistributeImage JobZadigDeploy : string.
Variable StepDistributeImage ImageFromKoderover : string.
Variable getOriginJobName : WorkflowV4 -> string -> string.
Variable GetJobOutputKey : string -> string -> string.
Variable IToi_deploy : JobSpec -> Result ZadigDeployJobSpec.
Variable ProductColl_Find : string -> string -> Lookup Product.
Variable WorkflowV4Coll_Find : string -> option WorkflowV4 * option string.

Local Abbreviation getOriginReferredJobTargets :=
  (ImageDistribute.getOriginReferredJobTargets cfg JobZadigDistributeImage JobZadigDeploy
     GetJobOutputKey IToi_deploy ProductColl_Find).
Local Abbreviation SetPreset_ :=
  (ImageDistribute.SetPreset cat cfg SourceFromJob SourceRuntime JobZadigDistributeImage
     JobZadigDeploy getOriginJobName GetJobOutputKey IToi_deploy ProductColl_Find).
Local Abbreviation UpdateWithLatestSetting_ :=
  (ImageDistribute.UpdateWithLatestSetting SourceFromJob SourceRuntime WorkflowV4Coll_Find).

Lemma getOriginReferredJobTargets_workflow (j j' : ImageDistributeJob) (a b : string) :
  dist_workflow j' = dist_workflow j ->
  getOriginReferredJobTargets j' a b = getOriginReferredJobTargets j a b.
Proof. intros Hw. unfold ImageDistribute.getOriginReferredJobTargets. by rewrite Hw. Qed.

Lemma presetTarget_idemp (m : gmap string Service) (t : DistributeTarget) :
  ImageDistribute.presetTarget m (ImageDistribute.presetTarget m t)
  = ImageDistribute.presetTarget m t.
Proof.
  unfold ImageDistribute.presetTarget.
  destruct (m !! dt_ServiceName t) as [service|] eqn:Hm; simpl.
  - destruct (List.find _ (svc_Containers service)) as [c|] eqn:Hc; simpl;
      rewrite Hm, Hc; done.
  - by rewrite Hm.
Qed.

(** [SetPreset] of the distribute job is idempotent; with a runtime source
    it keeps the targets, in order, and changes their image names only: the
    image name becomes that of the container named as the module in the
    latest revision of the service, and the module name when the service or
    the container is unknown. *)
Theorem ImageDistribute_SetPreset_idempotent (j j1 : ImageDistributeJob) :
  SetPreset_ j = Ok j1 ->
  SetPreset_ j1 = Ok j1
  /\ forall s m,
       job_Spec (dist_job j) = SpecDistribute s ->
       dj_Source s <> SourceFromJob -> dj_Source s = SourceRuntime ->
       GetMaxRevisionsServicesMap cat (wf_Project (dist_workflow j)) = Found m ->
       dist_spec j1
       = withTargets_ s
           (map (fun t =>
                   withTargetImageName t
                     (default (dt_ServiceModule t)
                        (c_ImageName
                           <$> (m !! dt_ServiceName t
                                ≫= fun service =>
                                     List.find (fun c => streq (c_Name c) (dt_ServiceModule t))
                                               (svc_Containers service)))))
                (dj_Targets s)).
Proof.
  unfold ImageDistribute.SetPreset.
  destruct (IToi_distribute (job_Spec (dist_job j))) as [s| |] eqn:Hs; simpl;
    [|intros; discriminate|intros; discriminate].
  destruct (job_Spec (dist_job j)) as [|s0|] eqn:Hspec; simpl in Hs; try discriminate.
  inversion Hs; subst s0. clear Hs.
  destruct (streq (dj_Source s) SourceFromJob) eqn:Hfrom.
  - destruct (getOriginReferredJobTargets j (getOriginJobName (dist_workflow j) (dj_JobName s))
                (dj_JobName s)) as [[targets reg]|e|] eqn:Href; simpl;
      [|intros; discriminate|intros; discriminate].
    intros H. inversion H as [Hj1]. clear H Hj1. simpl. rewrite Hfrom.
    rewrite (getOriginReferredJobTargets_workflow j) by done. rewrite Href. simpl.
    split; [done|]. intros s' m Hs' Hne. inversion Hs'; subst s'.
    apply streq_true in Hfrom. done.
  - destruct (streq (dj_Source s) SourceRuntime) eqn:Hrun.
    + destruct (GetMaxRevisionsServicesMap cat (wf_Project (dist_workflow j)))
        as [m|e] eqn:Hm; simpl; [|intros; discriminate].
      intros H. inversion H as [Hj1]. clear H Hj1. simpl. rewrite Hfrom, Hrun, Hm. simpl.
      split.
      * rewrite map_map.
        rewrite (map_ext (fun t => ImageDistribute.presetTarget m (ImageDistribute.presetTarget m t))
                         (ImageDistribute.presetTarget m)) by apply presetTarget_idemp.
        done.
      * intros s' m' Hs' _ _ Hm'. inversion Hs'; subst s'. inversion Hm'; subst m'.
        f_equal. apply map_ext. intros t. unfold ImageDistribute.presetTarget.
        destruct (m !! dt_ServiceName t) as [service|]; simpl; [|done].
        by destruct (List.find _ (svc_Containers service)).
    + simpl. intros H. inversion H as [Hj1]. clear H Hj1. simpl. rewrite Hfrom, Hrun. simpl.
      split; [by destruct s|].
      intros s' m Hs' _ Hsrc. inversion Hs'; subst s'.
      apply streq_false in Hrun. done.
Qed.

(** [UpdateWithLatestSetting] of the distribute job, when the two sources
    have different names: the job takes the source, the target registry, the
    timeout, the cluster, the strategy and the tag rule of the stored job of
    the same name and type, the referred job when the stored source is a job
    and the source registry otherwise; it keeps its targets unless its source
    was a job and the stored one is runtime, in which case they are emptied.
    A second call changes nothing. *)
Theorem ImageDistribute_UpdateWithLatestSetting_follows_stored_job
    (j j1 : ImageDistributeJob) :
  SourceFromJob <> SourceRuntime ->
  UpdateWithLatestSetting_ j = Ok j1 ->
  UpdateWithLatestSetting_ j1 = Ok j1
  /\ exists s latestWorkflow job latestSpec,
       job_Spec (dist_job j) = SpecDistribute s
       /\ fst (WorkflowV4Coll_Find (wf_Name (dist_workflow j))) = Some latestWorkflow
       /\ findStoredJob (wf_Stages latestWorkflow) (job_Name (dist_job j))
            (job_JobType (dist_job j)) = Some job
       /\ job_Spec job = SpecDistribute latestSpec
       /\ dj_Source (dist_spec j1) = dj_Source latestSpec
       /\ dj_TargetRegistryID (dist_spec j1) = dj_TargetRegistryID latestSpec
       /\ dj_Timeout (dist_spec j1) = dj_Timeout latestSpec
       /\ dj_ClusterID (dist_spec j1) = dj_ClusterID latestSpec
       /\ dj_StrategyID (dist_spec j1) = dj_StrategyID latestSpec
       /\ dj_EnableTargetImageTagRule (dist_spec j1) = dj_EnableTargetImageTagRule latestSpec
       /\ dj_TargetImageTagRule (dist_spec j1) = dj_TargetImageTagRule latestSpec
       /\ dj_TargetOptions (dist_spec j1) = dj_TargetOptions s
       /\ dj_JobName (dist_spec j1)
          = (if decide (dj_Source latestSpec = SourceFromJob)
             then dj_JobName latestSpec else dj_JobName s)
       /\ dj_SourceRegistryID (dist_spec j1)
          = (if decide (dj_Source latestSpec = SourceFromJob)
             then dj_SourceRegistryID s else dj_SourceRegistryID latestSpec)
       /\ dj_Targets (dist_spec j1)
          = (if decide (dj_Source s = SourceFromJob /\ dj_Source latestSpec = SourceRuntime)
             then [] else dj_Targets s).
Proof.
  intros Hdiff. unfold ImageDistribute.UpdateWithLatestSetting.
  destruct (job_Spec (dist_job j)) as [|s|] eqn:Hspec; simpl; try (intros; discriminate).
  destruct (fst (WorkflowV4Coll_Find (wf_Name (dist_workflow j)))) as [latestWorkflow|] eqn:Hw;
    [|intros; discriminate].
  destruct (findStoredJob _ _ _) as [job|] eqn:Hjob; [|intros; discriminate].
  destruct (job_Spec job) as [|latestSpec|] eqn:Hlatest; simpl; try (intros; discriminate).
  intros H. inversion H as [Hj1]. clear H Hj1. simpl. rewrite Hw, Hjob, Hlatest. simpl.
  split.
  - do 2 f_equal.
    destruct (streq (dj_Source latestSpec) SourceFromJob) eqn:Hfrom;
      destruct (streq (dj_Source latestSpec) SourceRuntime) eqn:Hrun;
      rewrite ?andb_false_r, ?andb_true_r; simpl; try done.
    apply streq_true in Hfrom, Hrun. congruence.
  - exists s, latestWorkflow, job, latestSpec. repeat split; try done.
    + destruct (streq (dj_Source latestSpec) SourceFromJob) eqn:E;
        [apply streq_true in E; by rewrite decide_True|
         apply streq_false in E; by rewrite decide_False].
    + destruct (streq (dj_Source latestSpec) SourceFromJob) eqn:E;
        [apply streq_true in E; by rewrite decide_True|
         apply streq_false in E; by rewrite decide_False].
    + destruct (streq (dj_Source s) SourceFromJob) eqn:E1;
        destruct (streq (dj_Source latestSpec) SourceRuntime) eqn:E2; simpl;
        rewrite ?streq_true in *; rewrite ?streq_false in *;
        [by rewrite decide_True|rewrite decide_False; [done|intros [? ?]; done]..].
Qed.

Local Abbreviation ToJobs_ :=
  (ImageDistribute.ToJobs cat cfg SourceFromJob SourceRuntime JobZadigDistributeImage
     JobZadigDeploy StepDistributeImage ImageFromKoderover getOriginJobName GetJobOutputKey
     IToi_deploy ProductColl_Find).

(** A job that [getOriginReferredJobTargets] stops at: it has the referred
    name and is a build, a distribute or a deploy job. *)
Definition referable (serviceReferredJob : string) (job : Job) : bool :=
  streq (job_Name job) serviceReferredJob
  && (streq (job_JobType job) (JobZadigBuild cfg)
      || streq (job_JobType job) JobZadigDistributeImage
      || streq (job_JobType job) JobZadigDeploy).

Lemma serviceLoop_find (project serviceReferredJob : string) (jobs : list Job) :
  ImageDistribute.serviceLoop cfg JobZadigDistributeImage JobZadigDeploy IToi_deploy
    ProductColl_Find project serviceReferredJob jobs
  = List.find (referable serviceReferredJob) jobs
    ≫= ImageDistribute.referredTargets cfg JobZadigDistributeImage JobZadigDeploy IToi_deploy
         ProductColl_Find project.
Proof.
  induction jobs as [|job jobs IH]; [done|]. cbn [ImageDistribute.serviceLoop List.find].
  unfold referable at 1. destruct (streq (job_Name job) serviceReferredJob); simpl; [|done].
  destruct (streq (job_JobType job) (JobZadigBuild cfg)) eqn:E1; simpl.
  { unfold ImageDistribute.referredTargets. by rewrite E1. }
  destruct (streq (job_JobType job) JobZadigDistributeImage) eqn:E2; simpl.
  { unfold ImageDistribute.referredTargets. by rewrite E1, E2. }
  destruct (streq (job_JobType job) JobZadigDeploy) eqn:E3; simpl.
  { unfold ImageDistribute.referredTargets. by rewrite E1, E2, E3. }
  rewrite <- IH. unfold ImageDistribute.referredTargets. by rewrite E1, E2, E3.
Qed.

(** The targets a distribute job takes from a build job it refers to.  The
    first job, in stage order, that has the referred name and is a build,
    distribute or deploy job decides; when it is a build job, the targets are
    its selected (service, module) pairs, in order, each with the source
    image [GetJobOutputKey(key, "IMAGE")] where [key] is the key the build
    job's [ToJobs] gives to the task of that pair under the name
    [imageReferredJob], and the source registry is the registry of the build
    job.  When no job has the referred name and one of these types, the
    function fails. *)
Theorem getOriginReferredJobTargets_of_a_build_job
    (j : ImageDistributeJob) (serviceReferredJob imageReferredJob : string) :
  let jobs := concat (map stage_Jobs (wf_Stages (dist_workflow j))) in
  (forall buildJob buildSpec,
     List.find (referable serviceReferredJob) jobs = Some buildJob ->
     job_JobType buildJob = JobZadigBuild cfg ->
     job_Spec buildJob = SpecBuild buildSpec ->
     getOriginReferredJobTargets j serviceReferredJob imageReferredJob
     = Ok (map (fun build =>
                  mkDistributeTarget (sab_ServiceName build) (sab_ServiceModule build) "" "" ""
                    (GetJobOutputKey (buildJobKey imageReferredJob build) "IMAGE") "" false)
               (ServiceAndBuilds buildSpec),
           DockerRegistryID buildSpec))
  /\ (List.find (referable serviceReferredJob) jobs = None ->
      getOriginReferredJobTargets j serviceReferredJob imageReferredJob
      = Err ("referred service job " +:+ serviceReferredJob +:+ " not found")).
Proof.
  intros jobs. unfold ImageDistribute.getOriginReferredJobTargets. fold jobs.
  rewrite serviceLoop_find. split.
  - intros buildJob buildSpec Hfind Htype Hspec. rewrite Hfind. simpl.
    unfold ImageDistribute.referredTargets. rewrite Htype, streq_refl, Hspec. simpl.
    rewrite map_map. done.
  - intros Hfind. by rewrite Hfind.
Qed.

(** The task a distribute job compiles to.  [ToJobs] emits one task, named
    and keyed by the job name, whose timeout is that of the job, or the
    default of 10 when the job has none.  The step of the task lists the
    targets of the job as [ToJobs] leaves them, in the same order, with their
    service and module names, source image, target tag and update flag but no
    target image; the target image of a target of the job is the output key
    [GetJobOutputKey(jobName.service.module, "IMAGE")].  With a runtime
    source the targets are those of the job, all flagged for update. *)
Theorem ImageDistribute_ToJobs_task_and_targets
    (j j1 : ImageDistributeJob) (taskID : Z) (task : JobTask) (step : StepImageDistributeSpec) :
  ToJobs_ j taskID = Ok (j1, task, step) ->
  let name := job_Name (dist_job j) in
  let targets := dj_Targets (dist_spec j1) in
  jt_Name task = name /\ jt_Key task = name
  /\ jt_JobInfo task !! JobNameKey cfg = Some name
  /\ jt_Timeout task
     = (if decide (dj_Timeout (dist_spec j1) = 0%Z) then 10%Z else dj_Timeout (dist_spec j1))
  /\ job_Spec (dist_job j1) = SpecDistribute (dist_spec j1)
  /\ map (fun t => (dtt_ServiceName t, dtt_ServiceModule t)) (DistributeTarget_ step)
     = map (fun t => (dt_ServiceName t, dt_ServiceModule t)) targets
  /\ (forall i t, targets !! i = Some t ->
        dt_TargetImage t
        = GetJobOutputKey (targetKey name (dt_ServiceName t) (dt_ServiceModule t)) "IMAGE"
        /\ DistributeTarget_ step !! i
           = Some (mkDistributeTaskTarget (dt_SourceImage t) "" (dt_ServiceName t)
                     (dt_ServiceModule t) (dt_TargetTag t) (dt_UpdateTag t)))
  /\ (forall s, job_Spec (dist_job j) = SpecDistribute s ->
        dj_Source s <> SourceFromJob -> dj_Source s = SourceRuntime ->
        map (fun t => (dt_ServiceName t, dt_ServiceModule t, dt_SourceTag t, dt_ImageName t))
            targets
        = map (fun t => (dt_ServiceName t, dt_ServiceModule t, dt_SourceTag t, dt_ImageName t))
              (dj_Targets s)
        /\ Forall (fun t => dt_UpdateTag t = true) targets).
Proof.
  unfold ImageDistribute.ToJobs.
  destruct (job_Spec (dist_job j)) as [|s|] eqn:Hspec; simpl; try (intros; discriminate).
  destruct (FindRegistryById cat (dj_SourceRegistryID s)) as [sourceReg|]; simpl;
    [|intros; discriminate].
  destruct (FindRegistryById cat (dj_TargetRegistryID s)) as [targetReg|]; simpl;
    [|intros; discriminate].
  match goal with
  | |- (?m ≫= _) = _ -> _ => destruct m as [s1| |] eqn:Hs1
  end; simpl; [|intros; discriminate|intros; discriminate].
  intros H. inversion H as [[Hj1 Htask Hstep]]. clear H. simpl.
  split; [done|]. split; [done|]. split; [by rewrite lookup_insert_eq|].
  split.
  { unfold getTimeout, DistributeTimeout.
    destruct (Z.eqb_spec (dj_Timeout s1) 0) as [E|E];
      [by rewrite decide_True|by rewrite decide_False]. }
  split; [done|]. split.
  { rewrite !map_map. done. }
  split.
  { intros i t Ht. rewrite list_lookup_fmap in Ht.
    destruct (dj_Targets s1 !! i) as [t0|] eqn:Ht0; [|done]. inversion Ht; subst t. simpl.
    split; [done|]. by rewrite list_lookup_fmap, Ht0. }
  intros s' Hs' Hne Hrun. inversion Hs'; subst s'.
  rewrite (proj2 (streq_false _ _) Hne) in Hs1. rewrite Hrun, streq_refl in Hs1.
  inversion Hs1; subst s1. simpl. rewrite !map_map. split.
  - apply map_ext. intros t. unfold ImageDistribute.tagRuntime. simpl.
    by destruct (dj_EnableTargetImageTagRule s).
  - apply Forall_forall. intros t Ht.
    apply list_elem_of_fmap in Ht as (t1 & -> & Ht1). done.
Qed.

End ImageDistributeFacts.

(** Stand-ins for the collaborators of the distribute job that are declared
    outside the sources at hand, and a workflow whose distribute job follows a
    build job. *)
Definition noDeploySpec (spec : JobSpec) : Result ZadigDeployJobSpec :=
  Err "cannot decode deploy job spec".

Definition noProduct (envName project : string) : Lookup Product :=
  NotFound "mongo: no documents in result".

Definition sameJobName (workflow : WorkflowV4) (name : string) : string := name.

Definition runtimeTargets : list DistributeTarget :=
  [mkDistributeTarget "svc" "mod" "v1" "" "" "" "" false;
   mkDistributeTarget "ghost" "tool" "v2" "" "" "" "" false].

Definition runtimeSpec : ZadigDistributeImageJobSpec :=
  mkZadigDistributeImageJobSpec "runtime" "" "reg-a" "reg-b" runtimeTargets [] 0%Z "c1" "" true
    "release-{{.workflow.input.imageTag}}".

Definition fromJobSpec : ZadigDistributeImageJobSpec :=
  mkZadigDistributeImageJobSpec "fromjob" "build" "" "reg-b"
    [mkDistributeTarget "svc" "mod" "" "stable" "" "" "" true] [] 30%Z "c1" "" false "".

Definition buildThenDistribute (distributeSpec : ZadigDistributeImageJobSpec) : WorkflowV4 :=
  mkWorkflowV4 "wf" "wf" "proj"
    [mkWorkflowStage "build" false
       [mkJob "build" "zadig-build"
          (SpecBuild (mkZadigBuildJobSpec "reg-1" configuredSelection [])) None];
     mkWorkflowStage "distribute" false
       [mkJob "distribute" "zadig-distribute-image" (SpecDistribute distributeSpec) None]].

Definition distributeJobOf (s : ZadigDistributeImageJobSpec) : ImageDistributeJob :=
  mkImageDistributeJob
    (mkJob "distribute" "zadig-distribute-image" (SpecDistribute s) None)
    (buildThenDistribute s) s.

(** The stored workflow has turned the distribute job to a runtime source. *)
Definition storedWorkflows (name : string) : option WorkflowV4 * option string :=
  if streq name "wf" then (Some (buildThenDistribute runtimeSpec), None)
  else (None, Some "mongo: no documents in result").

Lemma ImageDistribute_SetPreset_idempotent_witness :
  exists j1,
    ImageDistribute.SetPreset scenarioCatalog upstreamSettings "fromjob" "runtime"
      "zadig-distribute-image" "zadig-deploy" sameJobName jobOutputKeyTemplate noDeploySpec
      noProduct (distributeJobOf runtimeSpec) = Ok j1
    /\ map dt_ImageName (dj_Targets (dist_spec j1)) = ["mod-image"; "tool"]
    /\ ImageDistribute.SetPreset scenarioCatalog upstreamSettings "fromjob" "runtime"
         "zadig-distribute-image" "zadig-deploy" sameJobName jobOutputKeyTemplate noDeploySpec
         noProduct j1 = Ok j1.
Proof.
  eexists. split; [reflexivity|]. split; [vm_compute; reflexivity|].
  apply (ImageDistribute_SetPreset_idempotent scenarioCatalog upstreamSettings "fromjob"
           "runtime" "zadig-distribute-image" "zadig-deploy" sameJobName jobOutputKeyTemplate
           noDeploySpec noProduct (distributeJobOf runtimeSpec)).
  reflexivity.
Defined.

Lemma ImageDistribute_UpdateWithLatestSetting_follows_stored_job_witness :
  exists j1,
    ImageDistribute.UpdateWithLatestSetting "fromjob" "runtime" storedWorkflows
      (distributeJobOf fromJobSpec) = Ok j1
    /\ dj_Source (dist_spec j1) = "runtime" /\ dj_Targets (dist_spec j1) = []
    /\ dj_SourceRegistryID (dist_spec j1) = "reg-a"
    /\ ImageDistribute.UpdateWithLatestSetting "fromjob" "runtime" storedWorkflows j1 = Ok j1.
Proof.
  eexists. split; [reflexivity|]. split; [reflexivity|]. split; [reflexivity|].
  split; [reflexivity|].
  apply (ImageDistribute_UpdateWithLatestSetting_follows_stored_job "fromjob" "runtime"
           storedWorkflows (distributeJobOf fromJobSpec)); [discriminate|reflexivity].
Defined.

Lemma ImageDistribute_ToJobs_task_and_targets_witness :
  exists j1 task step,
    ImageDistribute.ToJobs scenarioCatalog upstreamSettings "fromjob" "runtime"
      "zadig-distribute-image" "zadig-deploy" "distribute_image" "koderover" sameJobName
      jobOutputKeyTemplate noDeploySpec noProduct (distributeJobOf runtimeSpec) 1
    = Ok (j1, task, step)
    /\ jt_Key task = "distribute" /\ jt_Timeout task = 10%Z
    /\ map dtt_SourceImage (DistributeTarget_ step)
       = ["registry.example.com/dev/mod:v1"; "registry.example.com/dev/tool:v2"]
    /\ map dtt_TargetTag (DistributeTarget_ step) = ["release-v1"; "release-v2"]
    /\ map dt_TargetImage (dj_Targets (dist_spec j1))
       = ["{{.job.distribute.svc.mod.output.IMAGE}}";
          "{{.job.distribute.ghost.tool.output.IMAGE}}"].
Proof.
  destruct (ImageDistribute.ToJobs scenarioCatalog upstreamSettings "fromjob" "runtime"
              "zadig-distribute-image" "zadig-deploy" "distribute_image" "koderover" sameJobName
              jobOutputKeyTemplate noDeploySpec noProduct (distributeJobOf runtimeSpec) 1)
    as [[[j1 task] step]| |] eqn:Hrun;
    [|vm_compute in Hrun; discriminate|vm_compute in Hrun; discriminate].
  exists j1, task, step. split; [reflexivity|].
  destruct (ImageDistribute_ToJobs_task_and_targets scenarioCatalog upstreamSettings "fromjob"
              "runtime" "zadig-distribute-image" "zadig-deploy" "distribute_image" "koderover"
              sameJobName jobOutputKeyTemplate noDeploySpec noProduct
              (distributeJobOf runtimeSpec) j1 1 task step Hrun)
    as (_ & Hkey & _ & Htimeout & _).
  split; [exact Hkey|].
  vm_compute in Hrun. inversion Hrun. subst j1 task step.
  split; [exact Htimeout|]. split; [reflexivity|]. split; reflexivity.
Defined.

(** ** Image names *)

Lemma prefix_app (p s : string) : String.prefix p (p +:+ s) = true.
Proof.
  induction p as [|c p IH]; [by destruct s|].
  rewrite append_cons. simpl. by destruct (Ascii.ascii_dec c c).
Qed.

Lemma dropBytes_app (p s : string) : dropBytes (String.length p) (p +:+ s) = s.
Proof. induction p as [|c p IH]; [by destruct s|]. by rewrite append_cons. Qed.

Lemma strings_TrimPrefix_app (p s : string) : strings_TrimPrefix (p +:+ s) p = s.
Proof. unfold strings_TrimPrefix. by rewrite prefix_app, dropBytes_app. Qed.

Lemma append_assoc (a b c : string) : (a +:+ b) +:+ c = a +:+ (b +:+ c).
Proof. induction a as [|x a IH]; [done|]. by rewrite !append_cons, IH. Qed.

Lemma prefix_app_false (p a s : string) :
  String.length p <= String.length a -> String.prefix p a = false ->
  String.prefix p (a +:+ s) = false.
Proof.
  revert a. induction p as [|c p IH]; intros a Hlen Hp.
  - by destruct a.
  - destruct a as [|d a]; [simpl in Hlen; lia|]. rewrite append_cons. simpl in *.
    destruct (Ascii.ascii_dec c d); [|done]. apply IH; [lia|done].
Qed.

(** The image a distribute job pulls or pushes: registry address, namespace
    when the registry has one, name and tag.  A leading [https://] of the
    registry address is dropped; so is a leading [http://], and then a
    [https://] that follows it; an address of at least eight bytes without
    either scheme is kept as it is. *)
Theorem getImage_drops_the_scheme (name tag host namespace accessKey secretKey : string) :
  let path :=
    (if decide (namespace = "") then "" else namespace +:+ "/") +:+ name +:+ ":" +:+ tag in
  getImage name tag (mkRegistryNamespace ("https://" +:+ host) namespace accessKey secretKey)
  = host +:+ "/" +:+ path
  /\ getImage name tag (mkRegistryNamespace ("http://" +:+ host) namespace accessKey secretKey)
     = strings_TrimPrefix (host +:+ "/" +:+ path) "https://"
  /\ (8 <= String.length host -> String.prefix "http://" host = false ->
      String.prefix "https://" host = false ->
      getImage name tag (mkRegistryNamespace host namespace accessKey secretKey)
      = host +:+ "/" +:+ path).
Proof.
  intros path.
  assert (Himage : forall addr,
            (if (0 <? String.length namespace)%nat
             then addr +:+ "/" +:+ namespace +:+ "/" +:+ name +:+ ":" +:+ tag
             else addr +:+ "/" +:+ name +:+ ":" +:+ tag)
            = addr +:+ "/" +:+ path).
  { intros addr. unfold path. destruct namespace as [|c ns]; [done|].
    rewrite decide_False by discriminate. simpl.
    by rewrite !append_assoc. }
  unfold getImage. cbn [reg_RegAddr reg_Namespace]. rewrite !Himage.
  split; [|split].
  - rewrite append_assoc.
    assert (Hno : String.prefix "http://" ("https://" +:+ (host +:+ "/" +:+ path)) = false)
      by reflexivity.
    unfold strings_TrimPrefix at 2. rewrite Hno. apply strings_TrimPrefix_app.
  - rewrite append_assoc. by rewrite strings_TrimPrefix_app.
  - intros Hlen Hhttp Hhttps. unfold strings_TrimPrefix.
    rewrite (prefix_app_false "http://" host) by (simpl; lia || done).
    rewrite (prefix_app_false "https://" host) by (simpl; lia || done). done.
Qed.

(** ** The steps of a build task *)

Lemma dropBytes_nil (n : nat) : dropBytes n "" = "".
Proof. by destruct n. Qed.

Section ToJobsSteps.

Variable cat : Catalog.
Variable cfg : Settings.
Variable MergeBuildEnvs : list KeyVal -> list KeyVal -> list KeyVal.
Variable jobNameFormat : string -> string.
Variable GetJobOutputKey : string -> string -> string.

(** The steps of the task compiled for a build of service [serviceName]:
    every step carries the name of the task, no two steps have the same name,
    the tools are installed first, the sources are always cloned, and the
    cache archive is downloaded and uploaded exactly when the task caches on
    an object medium. *)
Definition stepsOf (serviceName : string) (task : JobTask) : Prop :=
  let names := map step_Name (jt_Steps task) in
  Forall (fun st => step_JobName st = jt_Name task) (jt_Steps task)
  /\ NoDup names
  /\ head (jt_Steps task)
     = Some (mkStepTask (serviceName +:+ "-tool-install") (jt_Name task) (StepTools cfg))
  /\ ((serviceName +:+ "-git") ∈ names)
  /\ (if prop_CacheEnable (jt_Properties task)
         && streq (prop_CacheMediumType (jt_Properties task)) (ObjectMedium cfg)
      then ((serviceName +:+ "-download-archive") ∈ names)
           /\ ((serviceName +:+ "-tar-archive") ∈ names)
      else ((serviceName +:+ "-download-archive") ∉ names)
           /\ ((serviceName +:+ "-tar-archive") ∉ names)).

Local Ltac literal_list :=
  rewrite ?dropBytes_app, ?dropBytes_nil; apply (bool_decide_unpack _); vm_compute; exact I.

Local Ltac absent_name serviceName :=
  let H := fresh "H" in
  intros H;
  apply (list_elem_of_fmap_2 (dropBytes (String.length serviceName))) in H;
  simpl in H; rewrite ?dropBytes_app, ?dropBytes_nil in H;
  revert H; apply (bool_decide_unpack (_ ∉ _)); vm_compute; exact I.

Lemma buildSteps_shape (b : Build) (serviceName jobTaskName : string)
    (cacheEnable : bool) (medium : string) (steps : list StepTask) :
  buildSteps cat cfg b serviceName jobTaskName cacheEnable medium = Ok steps ->
  let names := map step_Name steps in
  Forall (fun st => step_JobName st = jobTaskName) steps
  /\ NoDup names
  /\ head steps = Some (mkStepTask (serviceName +:+ "-tool-install") jobTaskName (StepTools cfg))
  /\ ((serviceName +:+ "-git") ∈ names)
  /\ (if cacheEnable && streq medium (ObjectMedium cfg)
      then ((serviceName +:+ "-download-archive") ∈ names)
           /\ ((serviceName +:+ "-tar-archive") ∈ names)
      else ((serviceName +:+ "-download-archive") ∉ names)
           /\ ((serviceName +:+ "-tar-archive") ∉ names)).
Proof.
  unfold buildSteps.
  set (objectCache := cacheEnable && streq medium (ObjectMedium cfg)).
  assert (Hupload : forall upload,
            match objectStorageToUpload b with
            | Some osu =>
                _ ← lookupOr (S3StorageColl_Find cat (osu_ObjectStorageID osu))
                      (fun err => "find object storage: " +:+ osu_ObjectStorageID osu
                                  +:+ " failed, err: " +:+ err);
                Ok [mkStepTask (serviceName +:+ "-object-storage") jobTaskName (StepArchive cfg)]
            | None => Ok []
            end = Ok upload ->
            upload = [] \/
            upload = [mkStepTask (serviceName +:+ "-object-storage") jobTaskName
                        (StepArchive cfg)]).
  { intros upload. destruct (objectStorageToUpload b) as [osu|]; [|left; congruence].
    destruct (S3StorageColl_Find cat (osu_ObjectStorageID osu)); simpl; [|discriminate].
    right. congruence. }
  destruct (match objectStorageToUpload b with Some _ => _ | None => _ end)
    as [upload|e|] eqn:Eu; simpl; [|discriminate|discriminate].
  specialize (Hupload upload eq_refl). intros Hsteps. inversion Hsteps; subst steps.
  clear Hsteps Eu.
  assert (Hscript :
    scriptStep cfg b serviceName jobTaskName
      = mkStepTask (serviceName +:+ "-shell") jobTaskName (StepShell cfg)
    \/ scriptStep cfg b serviceName jobTaskName
      = mkStepTask (serviceName +:+ "-batchfile") jobTaskName (StepBatchFile cfg)
    \/ scriptStep cfg b serviceName jobTaskName
      = mkStepTask (serviceName +:+ "-powershell") jobTaskName (StepPowerShell cfg)
    \/ scriptStep cfg b serviceName jobTaskName = mkStepTask "" jobTaskName "").
  { unfold scriptStep.
    destruct (streq (b_ScriptType b) (ScriptTypeShell cfg) || streq (b_ScriptType b) "");
      [by left|].
    destruct (streq (b_ScriptType b) (ScriptTypeBatchFile cfg)); [right; by left|].
    destruct (streq (b_ScriptType b) (ScriptTypePowerShell cfg)); [right; right; by left|].
    by do 3 right. }
  generalize dependent (scriptStep cfg b serviceName jobTaskName). intros script Hscript.
  cbv zeta.
  destruct objectCache, (hasDockerBuild b), (hasFileArchive b), (hasPostScripts b);
    destruct Hupload as [->| ->];
    destruct Hscript as [->|[->|[->| ->]]]; simpl.
  all: split; [repeat constructor|].
  all: split; [apply (NoDup_fmap_1 (dropBytes (String.length serviceName))); simpl;
               literal_list|].
  all: split; [reflexivity|].
  all: split; [apply list_elem_of_In; simpl; tauto|].
  all: split; first [apply list_elem_of_In; simpl; tauto | absent_name serviceName].
Qed.

Lemma ToJobs_body_steps (j : Job) (project : string) (h h' : Heap)
    (build build' : ServiceAndBuild) (jobTask : JobTask) :
  ToJobs_body cat cfg MergeBuildEnvs jobNameFormat GetJobOutputKey j project h build
  = (build', Ok (h', jobTask)) ->
  jt_Key jobTask = buildJobKey (job_Name j) build
  /\ stepsOf (sab_ServiceName build) jobTask.
Proof.
  unfold ToJobs_body.
  destruct (_ ≫= _) as [[[[[h3 b] pb] basicImage] [[cacheEnable cacheDirType] medium]]|e|];
    [|discriminate|discriminate].
  destruct (buildSteps cat cfg b (sab_ServiceName build) _ cacheEnable medium)
    as [steps|e|] eqn:Es; simpl; intros H; inversion H; subst.
  split; [done|]. apply buildSteps_shape in Es. exact Es.
Qed.

Lemma ToJobs_loop_steps (j : Job) (project : string) (builds : list ServiceAndBuild) :
  forall (h : Heap) (done : list ServiceAndBuild) (resp : list JobTask)
         (done' : list ServiceAndBuild) (resp' : list JobTask) (r : Result unit),
    ToJobs_loop cat cfg MergeBuildEnvs jobNameFormat GetJobOutputKey j project h done resp builds
    = (done', resp', r) ->
    exists tasks,
      resp' = resp ++ tasks
      /\ Forall (fun task =>
                   exists build,
                     build ∈ builds
                     /\ jt_Key task = buildJobKey (job_Name j) build
                     /\ stepsOf (sab_ServiceName build) task)
                tasks.
Proof.
  induction builds as [|build builds IH]; intros h done resp done' resp' r Hrun; simpl in Hrun.
  - inversion Hrun; subst. exists []. by rewrite app_nil_r.
  - destruct (ToJobs_body _ _ _ _ _ j project h build) as [build' [[h' jobTask]|e|]] eqn:Eb.
    + apply ToJobs_body_steps in Eb as [Hkey Hsteps].
      destruct (IH _ _ _ _ _ _ Hrun) as (tasks & -> & Hall).
      exists (jobTask :: tasks). rewrite <- app_assoc. split; [done|].
      constructor.
      * exists build. split; [left|done].
      * eapply Forall_impl; [exact Hall|]. intros task (b0 & Hb0 & Hrest).
        exists b0. split; [by right|done].
    + inversion Hrun; subst. exists []. by rewrite app_nil_r.
    + inversion Hrun; subst. exists []. by rewrite app_nil_r.
Qed.

(** Every task [ToJobs] of a build job emits, whether or not a later build
    makes it fail, is the task of one of the selected builds and has
    well-formed steps: each step carries the task's name, the step names are
    pairwise distinct, the first step installs the tools, the sources are
    cloned, and the cache archive is downloaded and uploaded exactly when the
    task's properties enable the cache on the object medium. *)
Theorem ToJobs_steps_are_well_formed
    (j j' : BuildJob) (s : ZadigBuildJobSpec) (taskID : Z) (tasks : list JobTask)
    (r : Result unit) :
  job_Spec (job j) = SpecBuild s ->
  ToJobs cat cfg MergeBuildEnvs jobNameFormat GetJobOutputKey j taskID = (j', tasks, r) ->
  Forall (fun task =>
            exists build,
              build ∈ ServiceAndBuilds s
              /\ jt_Key task = buildJobKey (job_Name (job j)) build
              /\ stepsOf (sab_ServiceName build) task)
         tasks.
Proof.
  intros Hspec Hrun. unfold ToJobs in Hrun. rewrite Hspec in Hrun. simpl in Hrun.
  destruct (FindRegistryById cat (DockerRegistryID s));
    [|inversion Hrun; subst; constructor].
  destruct (S3StorageColl_FindDefault cat); [|inversion Hrun; subst; constructor].
  destruct (ToJobs_loop _ _ _ _ _ _ _ _ _ _ _) as [[builds resp] r'] eqn:El.
  inversion Hrun; subst. apply ToJobs_loop_steps in El as (tasks' & -> & Hall).
  exact Hall.
Qed.

End ToJobsSteps.

Lemma ToJobs_steps_are_well_formed_witness :
  let '(j', tasks, r) :=
    ToJobs scenarioCatalog upstreamSettings keepTemplateEnvs plainJobName
      jobOutputKeyTemplate plainJob 1 in
  r = Ok ()
  /\ length tasks = 2
  /\ Forall (fun task => NoDup (map step_Name (jt_Steps task))) tasks.
Proof.
  destruct (ToJobs scenarioCatalog upstreamSettings keepTemplateEnvs plainJobName
              jobOutputKeyTemplate plainJob 1) as [[j' tasks] r] eqn:Hrun.
  pose proof (ToJobs_steps_are_well_formed scenarioCatalog upstreamSettings
                keepTemplateEnvs plainJobName jobOutputKeyTemplate plainJob j'
                (mkZadigBuildJobSpec "reg-1" plainSelection []) 1 tasks r eq_refl Hrun)
    as Hall.
  split; [vm_compute in Hrun; by inversion Hrun|].
  split; [vm_compute in Hrun; by inversion Hrun|].
  eapply Forall_impl; [exact Hall|].
  intros task (build & _ & _ & _ & Hnd & _). exact Hnd.
Defined.

(** ** Cronjob reconciliation on any collection *)

Section UpdateCronjobAnyCollection.

Context {S : Type} `{CronjobColl S}.

Variable TestingCronjob : string.
Variable rangeKeys : gmap string bool -> list string.

(** [range] visits every key of the map once, in some order. *)
Hypothesis rangeKeys_perm : forall m : gmap string bool, rangeKeys m ≡ₚ (map_to_list m).*1.

Variables parentName parentType productName : string.

(** The loop over the submitted items, whatever the collection answers: the
    ids still to delete are the listed ids that no submitted item carries; an
    item with an id is returned as it is and an item without one with the id
    the collection answered. *)
Lemma reconcileItems_any (items : list Schedule) :
  forall (st st' : S) (idMap idMap' : gmap string bool) (visited out : list Schedule),
    reconcileItems TestingCronjob parentName parentType productName st idMap visited items
    = Ok (st', idMap', out) ->
    idMap' = unmatched idMap items
    /\ exists items',
         out = visited ++ items'
         /\ Forall2 (fun tasks tasks' =>
                       if IsZero (sch_ID tasks)
                       then exists id, tasks' = withScheduleID tasks id
                       else tasks' = tasks)
                    items items'.
Proof.
  induction items as [|t items IH]; intros st st' idMap idMap' visited out Hrun.
  - simpl in Hrun. inversion Hrun; subst. split; [done|]. exists []. rewrite app_nil_r.
    split; [done|constructor].
  - cbn [reconcileItems] in Hrun. unfold unmatched. cbn [fold_left].
    destruct (IsZero (sch_ID t)) eqn:Ez; cbn [negb] in Hrun.
    + destruct (coll_Create st _) as [[st1 id]|e]; [|discriminate].
      destruct (IH _ _ _ _ _ _ Hrun) as (-> & items' & -> & Hall).
      split; [done|]. exists (withScheduleID t id :: items'). rewrite <- app_assoc.
      split; [done|]. constructor; [|done]. rewrite Ez. by exists id.
    + destruct (coll_Update st _) as [st1|e]; [|discriminate].
      destruct (IH _ _ _ _ _ _ Hrun) as (-> & items' & -> & Hall).
      split; [done|]. exists (t :: items'). rewrite <- app_assoc.
      split; [done|]. constructor; [|done]. by rewrite Ez.
Qed.

(** Whatever collection [UpdateCronjob] talks to, when it returns without
    error the delete list holds, once each, exactly the ids of the records
    the collection listed for (parentName, parentType) that no submitted item
    carries: a record whose id was submitted is never deleted.  The schedule
    keeps its enabled flag and the number and order of its items; an item
    submitted with an id is returned unchanged, and an item submitted without
    one differs from the submitted item in its id only. *)
Theorem UpdateCronjob_never_deletes_a_submitted_id
    (schedule schedule' : ScheduleCtrl) (st st' : S) (deleteList : list string) :
  UpdateCronjob TestingCronjob rangeKeys parentName parentType productName schedule st
  = Ok (deleteList, schedule', st') ->
  exists jobList,
    coll_List st parentName parentType = Found jobList
    /\ NoDup deleteList
    /\ (forall id, id ∈ deleteList
                   <-> id ∈ map cj_ID jobList /\ id ∉ submittedIDs (sc_Items schedule))
    /\ sc_Enabled schedule' = sc_Enabled schedule
    /\ Forall2 (fun tasks tasks' =>
                  if IsZero (sch_ID tasks)
                  then exists id, tasks' = withScheduleID tasks id
                  else tasks' = tasks)
               (sc_Items schedule) (sc_Items schedule').
Proof.
  unfold UpdateCronjob.
  destruct (coll_List st parentName parentType) as [jobList|e]; [|discriminate].
  destruct (reconcileItems _ _ _ _ _ _ _ _) as [[[st1 idMap1] items]|e|] eqn:Hrec;
    simpl; [|discriminate|discriminate].
  destruct (coll_Delete st1 (rangeKeys idMap1)) as [st2|e]; [|discriminate].
  intros Hrun. inversion Hrun; subst. clear Hrun.
  apply reconcileItems_any in Hrec as (-> & items' & -> & Hall).
  exists jobList. split; [done|]. split.
  { rewrite (rangeKeys_perm _). apply NoDup_fst_map_to_list. }
  split; [|split; [done|exact Hall]].
  intros id. rewrite (rangeKeys_perm _), list_elem_of_fmap. split.
  - intros ([k v] & -> & Hin). apply elem_of_map_to_list in Hin. simpl.
    rewrite (unmatched_lookup rangeKeys rangeKeys_perm) in Hin.
    case_decide; [done|]. rewrite (idMap_lookup rangeKeys rangeKeys_perm) in Hin.
    case_decide; done.
  - intros [Hl Hs]. exists (id, true). split; [done|].
    apply elem_of_map_to_list.
    rewrite (unmatched_lookup rangeKeys rangeKeys_perm), decide_False by done.
    by rewrite (idMap_lookup rangeKeys rangeKeys_perm), decide_True.
Qed.

End UpdateCronjobAnyCollection.

Lemma UpdateCronjob_never_deletes_a_submitted_id_witness :
  exists deleteList schedule' st',
    UpdateCronjob "testing" keysOf "nightly" "workflow" ""
      (mkScheduleCtrl true [itemA; itemC]) scenarioStore
    = Ok (deleteList, schedule', st')
    /\ (forall id, id ∈ deleteList -> id ∉ submittedIDs [itemA; itemC])
    /\ sc_Enabled schedule' = true
    /\ length (sc_Items schedule') = 2.
Proof.
  destruct (UpdateCronjob "testing" keysOf "nightly" "workflow" ""
              (mkScheduleCtrl true [itemA; itemC]) scenarioStore)
    as [[[deleteList schedule'] st']| |] eqn:Hrun;
    [|vm_compute in Hrun; discriminate|vm_compute in Hrun; discriminate].
  destruct (UpdateCronjob_never_deletes_a_submitted_id "testing" keysOf keysOf_perm
              "nightly" "workflow" "" (mkScheduleCtrl true [itemA; itemC]) schedule'
              scenarioStore st' deleteList Hrun)
    as (jobList & _ & _ & Hids & Henabled & Hitems).
  exists deleteList, schedule', st'. split; [reflexivity|]. split.
  - intros id Hid. by apply Hids in Hid as [_ Hid].
  - split; [exact Henabled|]. by rewrite <- (Forall2_length _ _ _ Hitems).
Defined.
